(** * Hooke's Law: the reactive constraint-propagation layer

    A shallow embedding of the model layer of the simulation: the [Spring]
    and [RoboticArm] entities (src/unnamed/part_001) and the [SeriesSystem]
    (src/js/systems/model/SeriesSystem.js), run on top of an executable model
    of the observable cells they are built from.

    JavaScript numbers are IEEE-754 binary64 values, so every quantity is a
    primitive [float]; [=?], [<?] and [<=?] are the IEEE comparisons that
    JavaScript's [===], [<] and [<=] compute on numbers. *)

From Stdlib Require Import Floats ZArith Uint63 Bool List String Lia.
Import ListNotations.

Set Warnings "-inexact-float".
Set Implicit Arguments.

#[local] Open Scope float_scope.

(* ================================================================= *)
(** ** JavaScript arithmetic used by the model *)

Module Math.

(** The integer [n] as a number; exact for [|n| < 2^53]. *)
Definition of_Z (n : Z) : float :=
  let m := of_uint63 (Uint63.of_Z (Z.abs n)) in
  if (n <? 0)%Z then - m else m.

(** [Math.round(x)]: the integer closest to [x], ties towards +Infinity;
    NaN, the infinities, the zeros and integral values are returned as
    they are, and a negative argument that rounds to zero gives [-0]. *)
Definition round (x : float) : float :=
  match Prim2SF x with
  | S754_finite sign m e =>
      if (0 <=? e)%Z then x
      else
        let d := (2 ^ (- e))%Z in
        let q := if sign then Z.neg m else Z.pos m in
        let n := ((2 * q + d) / (2 * d))%Z in
        if (n =? 0)%Z then (if sign then (-0)%float else 0%float)
        else of_Z n
  | _ => x
  end.

Definition is_negative_zero (x : float) : bool :=
  match Prim2SF x with
  | S754_zero true => true
  | _ => false
  end.

(** [Math.max(a, b)] and [Math.min(a, b)]: NaN when either argument is
    NaN, and [-0] counts as smaller than [+0]. *)
Definition max (a b : float) : float :=
  if is_nan a || is_nan b then nan
  else if a <? b then b
  else if b <? a then a
  else if is_negative_zero a then b else a.

Definition min (a b : float) : float :=
  if is_nan a || is_nan b then nan
  else if a <? b then a
  else if b <? a then b
  else if is_negative_zero a then a else b.

Definition abs (x : float) : float := PrimFloat.abs x.

End Math.

(* ================================================================= *)
(** ** Ranges (DOT/Range, DOT/RangeWithValue) *)

(** Modelled from the spec: the range type of the DOT library, which is not
    part of this repository. A range carries [min], [max] and a default
    value (the initial value of the quantity); [contains] is the closed
    interval test and [constrainValue] clamps into the interval. *)
Record Range : Type := mkRange {
  min : float;
  max : float;
  defaultValue : float
}.

(** [new RangeWithValue( min, max, defaultValue )]. *)
Definition RangeWithValue (lo hi dflt : float) : Range := mkRange lo hi dflt.

(** [new Range( min, max )]: the default value is [min]. *)
Definition Range2 (lo hi : float) : Range := mkRange lo hi lo.

Definition contains (r : Range) (v : float) : bool :=
  (min r <=? v) && (v <=? max r).

Definition constrainValue (r : Range) (v : float) : float :=
  Math.min (Math.max v (min r)) (max r).

(** What a cell holds after [set( v )] returned: [v] itself if it was
    stored, or the value that [set] found equal to [v]. *)
Definition holds (current v : float) : Prop :=
  current = v \/ (v =? current) = true.

(* ================================================================= *)
(** ** Observable cells (AXON/Property, AXON/DerivedProperty) *)

(** Modelled from the spec: the observable cell of the AXON library (spec
    sections 3, 4.1 and 4.2), which is not part of this repository.
    A world is a family of cells indexed by [cell]; every cell has a current
    value, the value it was created with, and an ordered list of subscribed
    listeners. Listeners are named by the type [listener]; what a listener
    does when it is invoked with the notified value is an [action], given by
    the world's [body] function. [X] is the type of the closure variables
    that listeners share (the guard flag of a composite system). *)
Module Axon.
Section Cells.

Variables cell listener X : Type.
Variable cell_eq_dec : forall a b : cell, {a = b} + {a <> b}.

(** What a propagation does that an observer can count: a cell taking a
    new value (its subscribers are then notified), and an assignment to a
    closure variable. *)
Inductive event : Type :=
  | Changed (c : cell) (v : float)
  | Assigned (x : X).

Record store : Type := mkStore {
    value : cell -> float;
    initialValue : cell -> float;
    observers : cell -> list listener;
    locals : X;
    trace : list event
  }.

(** [get()]: the current value, never fails. *)
Definition get (s : store) (c : cell) : float := value s c.

Definition update {A : Type} (f : cell -> A) (c : cell) (a : A) : cell -> A :=
  fun c' => if cell_eq_dec c c' then a else f c'.

(** The cell [c] takes the value [v], and the change is recorded. *)
Definition changed (c : cell) (v : float) (s : store) : store :=
  mkStore (update (value s) c v) (initialValue s) (observers s) (locals s)
          (trace s ++ [Changed c v]).

Definition assigned (x : X) (s : store) : store :=
  mkStore (value s) (initialValue s) (observers s) x (trace s ++ [Assigned x]).

(** [new Property( v )]. *)
Definition create (c : cell) (v : float) (s : store) : store :=
  mkStore (update (value s) c v) (update (initialValue s) c v)
          (update (observers s) c []) (locals s) (trace s).

(** [subscribe]: the listener goes to the end of the cell's list. *)
Definition subscribe (c : cell) (l : listener) (s : store) : store :=
  mkStore (value s) (initialValue s)
          (update (observers s) c (observers s c ++ [l])) (locals s) (trace s).

Inductive error : Type :=
  | InvalidValueError
  | ReadOnlyError
  | AssertionError (msg : string)
  | Error (msg : string).

(** How a call ends: it returns, it throws, or the model's fuel is
    exhausted (the JavaScript call is still running). The store is kept in
    every case: nothing is rolled back when an exception unwinds. *)
Inductive outcome : Type :=
  | Returned
  | Threw (e : error)
  | OutOfFuel.

Definition result : Type := (outcome * store)%type.

Definition bind (m k : store -> result) : store -> result :=
  fun s => match m s with
           | (Returned, s') => k s'
           | r => r
           end.

(** The body of a listener: a straight-line program over the cells. An
    expression is evaluated in the store at the moment the statement runs. *)
Inductive action : Type :=
  | Skip
  | SetCell (c : cell) (e : store -> float) (k : action)    (* c.set( e ); k *)
  | Assert (b : store -> bool) (msg : string) (k : action)  (* assert && assert( b, msg ); k *)
  | Throw (msg : string)                                    (* throw new Error( msg ) *)
  | Assign (x : X) (k : action)                             (* closure variable = x; k *)
  | IfThen (b : store -> bool) (a k : action).              (* if ( b ) { a } k *)

(** Whether assertions are enabled ([assert] is defined). *)
Variable assertions : bool.
(** The validity predicate supplied when a cell was created. *)
Variable isValidValue : cell -> float -> bool.
Variable body : listener -> float -> action.

Section Run.
Variable set_ : cell -> float -> store -> result.

Fixpoint exec (a : action) (s : store) : result :=
  match a with
  | Skip => (Returned, s)
  | SetCell c e k => bind (set_ c (e s)) (exec k) s
  | Assert b msg k =>
      if assertions && negb (b s) then (Threw (AssertionError msg), s)
      else exec k s
  | Throw msg => (Threw (Error msg), s)
  | Assign x k => exec k (assigned x s)
  | IfThen b a k => if b s then bind (exec a) (exec k) s else exec k s
  end.

(** Every listener of the list, in subscription order, with the value [v]. *)
Fixpoint notify (ls : list listener) (v : float) (s : store) : result :=
  match ls with
  | [] => (Returned, s)
  | l :: ls' => bind (exec (body l v)) (notify ls' v) s
  end.
End Run.

(** [set(v)]: fails if the validity predicate rejects [v]; otherwise stores
    [v] and, only if [v] differs from the prior value, synchronously
    invokes every subscriber with [v], depth first. *)
Fixpoint set (fuel : nat) (c : cell) (v : float) (s : store) : result :=
  match fuel with
  | O => (OutOfFuel, s)
  | S fuel' =>
      if negb (isValidValue c v) then (Threw InvalidValueError, s)
      else if v =? get s c then (Returned, s)
      else notify (set fuel') (observers s c) v (changed c v s)
  end.

(** [reset()]: the value supplied at construction, through [set]. *)
Definition reset (fuel : nat) (c : cell) (s : store) : result :=
  set fuel c (initialValue s c) s.

(** [link( l )]: subscribes [l] and invokes it at once with the current
    value; [lazyLink( l )] only subscribes. *)
Definition lazyLink (c : cell) (l : listener) (s : store) : result :=
  (Returned, subscribe c l s).

Definition link (fuel : nat) (c : cell) (l : listener) (s : store) : result :=
  let s' := subscribe c l s in
  exec (set fuel) (body l (get s' c)) s'.

(** [new DerivedProperty( deps, f )]: the listener [l] recomputes the cell
    [c]; it runs once for the initial value and is subscribed to every
    dependency. *)
Definition derive (fuel : nat) (c : cell) (deps : list cell) (l : listener)
    (s : store) : result :=
  bind (exec (set fuel) (body l 0))
       (fun s' => (Returned, fold_left (fun t d => subscribe d l t) deps s'))
       (create c 0 s).

(** A run of construction steps, and the store before any cell exists. *)
Fixpoint steps (ms : list (store -> result)) (s : store) : result :=
  match ms with
  | [] => (Returned, s)
  | m :: ms' => bind m (steps ms') s
  end.

Definition empty (x : X) : store :=
  mkStore (fun _ => 0) (fun _ => 0) (fun _ => []) x [].

(** A write through the public interface: a derived cell is read-only. *)
Variable derived : cell -> bool.

Definition external_set (fuel : nat) (c : cell) (v : float) (s : store) : result :=
  if derived c then (Threw ReadOnlyError, s) else set fuel c v s.

End Cells.

Arguments Skip {cell listener X}.
Arguments Throw {cell listener X} msg.
Arguments Changed {cell X} c v.
Arguments Assigned {cell X} x.

End Axon.

Import Axon.

(* ================================================================= *)
(** ** Spring (src/unnamed/part_001, second module) *)

Module Spring.

(** The cells a spring owns: four primary cells and the derived ones. The
    [Range] held by [rightRangeProperty] is kept as its two bounds. *)
Inductive property : Type :=
  | appliedForceProperty     (* F *)
  | springConstantProperty   (* k *)
  | displacementProperty     (* x *)
  | leftProperty
  | springForceProperty      (* -F *)
  | equilibriumXProperty     (* left + equilibriumLength *)
  | rightProperty            (* equilibriumX + x *)
  | rightRangeMin
  | rightRangeMax
  | lengthProperty           (* |right - left| *)
  | energyProperty.          (* k x x / 2 *)

(** The listeners a spring subscribes to its own cells: one per derived
    cell (its recomputation) and the three property observers. *)
Inductive observer : Type :=
  | deriveSpringForce
  | deriveEquilibriumX
  | deriveRight
  | deriveRightRange
  | deriveLength
  | deriveEnergy
  | observeAppliedForce
  | observeSpringConstant
  | observeDisplacement.

Definition property_eq_dec (a b : property) : {a = b} + {a <> b}.
Proof. decide equality. Defined.

Definition isDerived (p : property) : bool :=
  match p with
  | appliedForceProperty | springConstantProperty
  | displacementProperty | leftProperty => false
  | _ => true
  end.

(** The constructor's options; [null] is [None]. *)
Record options : Type := mkOptions {
    left : float;
    equilibriumLength : float;
    springConstantRange : Range;
    displacementRange : option Range;
    appliedForceRange : option Range;
    appliedForceDelta : float
  }.

(** The read-only fields of a constructed spring. [forceDriven] records
    the test [if ( options.appliedForceRange )] that the listeners repeat. *)
Record fields : Type := mkFields {
    self_equilibriumLength : float;
    self_springConstantRange : Range;
    self_appliedForceDelta : float;
    self_appliedForceRange : Range;
    self_displacementRange : Range;
    forceDriven : bool
  }.

(** The default options of the constructor. *)
Definition APPLIED_FORCE_DELTA : float := 1.

Definition defaults : options :=
  mkOptions 0 1.5 (RangeWithValue 100 1000 200) None None APPLIED_FORCE_DELTA.

(** The two ranges: the one supplied is kept and the other is computed,
    [x = F/k] or [F = kx]. With neither option there is no range to read. *)
Definition fields_of (o : options) : option fields :=
  let kr := springConstantRange o in
  match appliedForceRange o, displacementRange o with
  | Some fr, _ =>
      Some (mkFields (equilibriumLength o) kr (appliedForceDelta o) fr
              (RangeWithValue (min fr / min kr) (max fr / min kr)
                              (defaultValue fr / defaultValue kr))
              true)
  | None, Some xr =>
      Some (mkFields (equilibriumLength o) kr (appliedForceDelta o)
              (RangeWithValue (max kr * min xr) (max kr * max xr)
                              (defaultValue kr * defaultValue xr))
              xr false)
  | None, None => None
  end.

Section Instance.

(** A spring lives in a world: [P] places its cells and [L] its listeners
    among the world's. *)
Variables cell listener X : Type.
Variable P : property -> cell.
Variable L : observer -> listener.
Variable self : fields.

#[local] Abbreviation store := (store cell listener X).
#[local] Abbreviation action := (action cell listener X).
#[local] Abbreviation result := (result cell listener X).

(** The applied force that a displacement stands for: [F = kx],
    constrained to the delta if the applied force range was specified,
    then constrained to the range. *)
Definition forceOfDisplacement (springConstant displacement : float) : float :=
  let appliedForce := springConstant * displacement in
  let appliedForce :=
    if forceDriven self
    then Math.round (appliedForce / self_appliedForceDelta self)
         * self_appliedForceDelta self
    else appliedForce in
  constrainValue (self_appliedForceRange self) appliedForce.

(** What each listener does with the notified value [v]. The derivations
    read the current values of their dependencies. *)
Definition body (o : observer) (v : float) : action :=
  match o with
  | deriveSpringForce =>
      SetCell (P springForceProperty)
              (fun s => - get s (P appliedForceProperty)) Skip
  | deriveEquilibriumX =>
      SetCell (P equilibriumXProperty)
              (fun s => get s (P leftProperty) + self_equilibriumLength self) Skip
  | deriveRight =>
      Assert (fun s =>
                let left := get s (P leftProperty) in
                let right := get s (P equilibriumXProperty)
                             + get s (P displacementProperty) in
                0 <? right - left)
             "right must be > left"
        (SetCell (P rightProperty)
                 (fun s => get s (P equilibriumXProperty)
                           + get s (P displacementProperty)) Skip)
  | deriveRightRange =>
      if forceDriven self then
        SetCell (P rightRangeMin)
          (fun s => get s (P equilibriumXProperty)
                    + min (self_appliedForceRange self) / get s (P springConstantProperty))
        (SetCell (P rightRangeMax)
          (fun s => get s (P equilibriumXProperty)
                    + max (self_appliedForceRange self) / get s (P springConstantProperty))
         Skip)
      else
        SetCell (P rightRangeMin)
          (fun s => get s (P equilibriumXProperty) + min (self_displacementRange self))
        (SetCell (P rightRangeMax)
          (fun s => get s (P equilibriumXProperty) + max (self_displacementRange self))
         Skip)
  | deriveLength =>
      SetCell (P lengthProperty)
              (fun s => Math.abs (get s (P rightProperty) - get s (P leftProperty))) Skip
  | deriveEnergy =>
      SetCell (P energyProperty)
              (fun s => get s (P springConstantProperty)
                        * get s (P displacementProperty)
                        * get s (P displacementProperty) / 2) Skip
  (* F: when applied force changes, maintain the spring constant,
     change displacement. *)
  | observeAppliedForce =>
      Assert (fun _ => contains (self_appliedForceRange self) v)
             "appliedForce is out of range"
        (SetCell (P displacementProperty)
                 (fun s => v / get s (P springConstantProperty)) Skip)
  (* k: when spring constant changes, adjust either displacement or
     applied force. *)
  | observeSpringConstant =>
      Assert (fun _ => contains (self_springConstantRange self) v)
             "springConstant is out of range"
        (if forceDriven self
         then SetCell (P displacementProperty)
                      (fun s => get s (P appliedForceProperty) / v) Skip
         else SetCell (P appliedForceProperty)
                      (fun s => v * get s (P displacementProperty)) Skip)
  (* x: when displacement changes, maintain the spring constant,
     change applied force. *)
  | observeDisplacement =>
      Assert (fun _ => contains (self_displacementRange self) v)
             "displacement is out of range"
        (SetCell (P appliedForceProperty)
                 (fun s => forceOfDisplacement (get s (P springConstantProperty)) v)
                 Skip)
  end.

(** *** The constructor and [reset] *)

Variable cell_eq_dec : forall a b : cell, {a = b} + {a <> b}.
Variable assertions : bool.
Variable isValidValue : cell -> float -> bool.
Variable world : listener -> float -> action.

Let assert_ (b : bool) (msg : string) : store -> result :=
  exec assertions (fun _ _ s => (Returned, s)) (Assert (fun _ => b) msg Skip).
Let create_ c v : store -> result := fun s => (Returned, create cell_eq_dec c v s).
Let derive_ fuel c deps l := derive cell_eq_dec assertions isValidValue world fuel c deps l.
Let link_ fuel c l := link cell_eq_dec assertions isValidValue world fuel c l.

(** [new Spring( options )]: the options are validated, the primary and
    the derived cells are created in the order of the source, and the
    three property observers are linked (each is invoked once as it is
    linked). *)
Definition new (fuel : nat) (o : options) : store -> result :=
  steps
    [ assert_ (0 <? equilibriumLength o) "equilibriumLength must be > 0";
      assert_ (0 <? min (springConstantRange o)) "minimum spring constant must be positive";
      assert_ (0 <? appliedForceDelta o) "appliedForceDelta must be > 0";
      assert_ (match displacementRange o, appliedForceRange o with
               | Some _, None | None, Some _ => true
               | _, _ => false
               end)
              "specify either displacementRange or appliedForceRange, but not both";
      fun s =>
        match fields_of o with
        | None => (Threw (Error "options.displacementRange is null"), s)
        | Some this =>
            steps
              [ create_ (P appliedForceProperty) (defaultValue (self_appliedForceRange this));
                create_ (P springConstantProperty) (defaultValue (self_springConstantRange this));
                create_ (P displacementProperty) (defaultValue (self_displacementRange this));
                create_ (P leftProperty) (left o);
                derive_ fuel (P springForceProperty) [P appliedForceProperty]
                        (L deriveSpringForce);
                derive_ fuel (P equilibriumXProperty) [P leftProperty]
                        (L deriveEquilibriumX);
                derive_ fuel (P rightProperty)
                        [P equilibriumXProperty; P displacementProperty] (L deriveRight);
                create_ (P rightRangeMin) 0;
                derive_ fuel (P rightRangeMax)
                        (if forceDriven this
                         then [P springConstantProperty; P equilibriumXProperty]
                         else [P equilibriumXProperty])
                        (L deriveRightRange);
                derive_ fuel (P lengthProperty) [P leftProperty; P rightProperty]
                        (L deriveLength);
                derive_ fuel (P energyProperty)
                        [P springConstantProperty; P displacementProperty]
                        (L deriveEnergy);
                link_ fuel (P appliedForceProperty) (L observeAppliedForce);
                link_ fuel (P springConstantProperty) (L observeSpringConstant);
                link_ fuel (P displacementProperty) (L observeDisplacement) ] s
        end ].

(** [reset]: the four primary cells, in the order of the source. *)
Definition reset (fuel : nat) : store -> result :=
  let reset_ c := Axon.reset cell_eq_dec assertions isValidValue world fuel c in
  steps [ reset_ (P appliedForceProperty);
          reset_ (P springConstantProperty);
          reset_ (P displacementProperty);
          reset_ (P leftProperty) ].

End Instance.

Arguments body {cell listener X} P self o v.

End Spring.

(* ================================================================= *)
(** ** A spring on its own *)

(** The world of one spring: its cells are the world's cells, its listeners
    the world's listeners, no cell has a validity predicate and there is no
    closure variable. *)
Module SingleSpring.
Section World.

Variable assertions : bool.
Variable o : Spring.options.

Definition self : Spring.fields :=
  match Spring.fields_of o with
  | Some this => this
  | None => Spring.mkFields 0 (Range2 0 0) 0 (Range2 0 0) (Range2 0 0) false
  end.

Definition state : Type := store Spring.property Spring.observer unit.

Definition body : Spring.observer -> float -> action Spring.property Spring.observer unit :=
  Spring.body (fun p => p) self.

Definition set (fuel : nat) (p : Spring.property) (v : float) : state -> result _ _ _ :=
  external_set Spring.property_eq_dec assertions (fun _ _ => true) body Spring.isDerived
               fuel p v.

Definition new (fuel : nat) : result Spring.property Spring.observer unit :=
  Spring.new (fun p => p) (fun l => l) Spring.property_eq_dec assertions
             (fun _ _ => true) body fuel o (empty _ _ tt).

Definition reset (fuel : nat) : state -> result _ _ _ :=
  Spring.reset (fun p => p) Spring.property_eq_dec assertions (fun _ _ => true) body fuel.

End World.
End SingleSpring.

(* ================================================================= *)
(** ** RoboticArm (src/unnamed/part_001, first module) *)

Module RoboticArm.

Record options : Type := mkOptions {
    left : float;   (* initial x location of the left (movable) end *)
    right : float   (* x location of the right (fixed) end *)
  }.

Definition defaults : options := mkOptions 0 1.

(** The arm is constrained to extend from right to left:
    [isValidValue: function( value ) { return value < self.right; }]. *)
Definition isValidValue (o : options) (value : float) : bool :=
  value <? right o.

(** The arm on its own: one cell, [leftProperty], with the validity
    predicate above, and no listener. *)
Inductive property : Type := leftProperty.

Definition property_eq_dec (a b : property) : {a = b} + {a <> b}.
Proof. decide equality. Defined.

Definition state : Type := store property Empty_set unit.

Definition body (l : Empty_set) (v : float) : action property Empty_set unit :=
  match l with end.

Section World.
Variable o : options.

(** [new RoboticArm( options )]. *)
Definition new : state :=
  create property_eq_dec leftProperty (left o) (empty property Empty_set tt).

(** [leftProperty.set( v )] and [leftProperty.get()]. *)
Definition set (fuel : nat) (v : float) (s : state) : result property Empty_set unit :=
  Axon.set property_eq_dec false (fun _ => isValidValue o) body fuel leftProperty v s.

Definition get (s : state) : float := Axon.get s leftProperty.

(** [reset]. *)
Definition reset (fuel : nat) (s : state) : result property Empty_set unit :=
  Axon.reset property_eq_dec false (fun _ => isValidValue o) body fuel leftProperty s.

(** A caller that goes on after a failed [set]: the state after the calls
    [set( v )] for the values [vs], in this order. *)
Fixpoint sets (fuel : nat) (vs : list float) (s : state) : state :=
  match vs with
  | [] => s
  | v :: vs' => sets fuel vs' (snd (set fuel v s))
  end.

(** The last of the values [vs] that the predicate accepts, [current] if
    there is none. *)
Fixpoint lastAccepted (vs : list float) (current : float) : float :=
  match vs with
  | [] => current
  | v :: vs' => lastAccepted vs' (if isValidValue o v then v else current)
  end.

End World.

End RoboticArm.

(* ================================================================= *)
(** ** SeriesSystem (src/js/systems/model/SeriesSystem.js) *)

Module SeriesSystem.

(** The cells of the system: those of the three springs and the left end
    of the robotic arm. *)
Inductive cell : Type :=
  | leftSpring (p : Spring.property)
  | rightSpring (p : Spring.property)
  | equivalentSpring (p : Spring.property)
  | roboticArm_leftProperty.

(** The listeners: those of the three springs, and the ones the system
    subscribes, in the order of the source. *)
Inductive listener : Type :=
  | ofLeftSpring (o : Spring.observer)
  | ofRightSpring (o : Spring.observer)
  | ofEquivalentSpring (o : Spring.observer)
  | forceLink                        (* Feq = F1 = F2 *)
  | updateEquivalentSpringConstant   (* keq = 1 / ( 1/k1 + 1/k2 ) *)
  | armLink                          (* robotic arm sets displacement of equivalent spring *)
  | connectRightSpring               (* connect right spring to left spring *)
  | connectArm                       (* connect arm to right spring *)
  | leftSpringLeftGuard
  | equivalentLeftGuard
  | equivalentEquilibriumXGuard.

Definition cell_eq_dec (a b : cell) : {a = b} + {a <> b}.
Proof. decide equality; apply Spring.property_eq_dec. Defined.

(** The closure variable [ignoreUpdates] is the only local of the world. *)
Definition state : Type := store cell listener bool.
Definition ignoreUpdates (s : state) : bool := locals s.

Definition appliedForceRange : Range := RangeWithValue (-100) 100 0.
Definition springConstantRange : Range := RangeWithValue 200 600 200.

(** Options of the left spring, attached to the wall. *)
Definition leftSpringOptions : Spring.options :=
  Spring.mkOptions 0 0.75 springConstantRange None (Some appliedForceRange)
                   Spring.APPLIED_FORCE_DELTA.

(** Options of the right spring, in series with the left spring; [left]
    is where the right end of the left spring is. *)
Definition rightSpringOptions (left : float) : Spring.options :=
  Spring.mkOptions left (Spring.equilibriumLength leftSpringOptions)
                   (Spring.springConstantRange leftSpringOptions) None
                   (Spring.appliedForceRange leftSpringOptions)
                   Spring.APPLIED_FORCE_DELTA.

Definition roboticArmOptions (left : float) : RoboticArm.options :=
  RoboticArm.mkOptions left 3.

(** Options of the single spring that the system is equivalent to. The
    source reads [this.leftSpring.left], the left end of the left spring. *)
Definition equivalentSpringOptions (left : float) : Spring.options :=
  Spring.mkOptions left
    (Spring.equilibriumLength leftSpringOptions
     + Spring.equilibriumLength (rightSpringOptions 0))
    (Range2 (1 / (1 / min springConstantRange + 1 / min springConstantRange))
            (1 / (1 / max springConstantRange + 1 / max springConstantRange)))
    None (Spring.appliedForceRange leftSpringOptions) Spring.APPLIED_FORCE_DELTA.

Definition springFields (o : Spring.options) : Spring.fields :=
  match Spring.fields_of o with
  | Some this => this
  | None => Spring.mkFields 0 (Range2 0 0) 0 (Range2 0 0) (Range2 0 0) false
  end.

Definition isDerived (c : cell) : bool :=
  match c with
  | leftSpring p | rightSpring p | equivalentSpring p => Spring.isDerived p
  | roboticArm_leftProperty => false
  end.

Definition isValidValue (c : cell) (v : float) : bool :=
  match c with
  | roboticArm_leftProperty => RoboticArm.isValidValue (roboticArmOptions 0) v
  | _ => true
  end.

(** The body of every listener of the world. *)
Definition body (l : listener) (v : float) : action cell listener bool :=
  match l with
  | ofLeftSpring o => Spring.body leftSpring (springFields leftSpringOptions) o v
  | ofRightSpring o => Spring.body rightSpring (springFields (rightSpringOptions 0)) o v
  | ofEquivalentSpring o =>
      Spring.body equivalentSpring (springFields (equivalentSpringOptions 0)) o v
  (* Feq = F1 = F2 *)
  | forceLink =>
      SetCell (leftSpring Spring.appliedForceProperty) (fun _ => v)
        (SetCell (rightSpring Spring.appliedForceProperty) (fun _ => v) Skip)
  (* keq = 1 / ( 1/k1 + 1/k2 ) *)
  | updateEquivalentSpringConstant =>
      SetCell (equivalentSpring Spring.springConstantProperty)
        (fun s =>
           let leftSpringConstant := get s (leftSpring Spring.springConstantProperty) in
           let rightSpringConstant := get s (rightSpring Spring.springConstantProperty) in
           1 / (1 / leftSpringConstant + 1 / rightSpringConstant))
        Skip
  (* Robotic arm sets displacement of equivalent spring. *)
  | armLink =>
      IfThen (fun s => negb (ignoreUpdates s))
        (Assign true
           (SetCell (equivalentSpring Spring.displacementProperty)
              (fun s => v - get s (equivalentSpring Spring.equilibriumXProperty))
              (Assign false Skip)))
        Skip
  (* Connect right spring to left spring. *)
  | connectRightSpring => SetCell (rightSpring Spring.leftProperty) (fun _ => v) Skip
  (* Connect arm to right spring. *)
  | connectArm => SetCell roboticArm_leftProperty (fun _ => v) Skip
  | leftSpringLeftGuard => Throw "Left end of left spring must remain fixed"
  | equivalentLeftGuard => Throw "Left end of equivalent spring must remain fixed"
  | equivalentEquilibriumXGuard =>
      Throw "Equilibrium position of equivalent spring must remain fixed"
  end.

Section Run.

Variable assertions : bool.

(** A write from outside the system, and what it runs. *)
Definition set (fuel : nat) (c : cell) (v : float) : state -> result cell listener bool :=
  external_set cell_eq_dec assertions isValidValue body isDerived fuel c v.

Let new_ (P : Spring.property -> cell) (L : Spring.observer -> listener) fuel o :=
  Spring.new P L cell_eq_dec assertions isValidValue body fuel o.
Let link_ fuel c l := link cell_eq_dec assertions isValidValue body fuel c l.
Let lazyLink_ c l : state -> result cell listener bool := lazyLink cell_eq_dec c l.

(** [new SeriesSystem()]: the components, then the property observers,
    then the checks for violations of the general spring model. *)
Definition new (fuel : nat) : result cell listener bool :=
  steps
    [ new_ leftSpring ofLeftSpring fuel leftSpringOptions;
      fun s => new_ rightSpring ofRightSpring fuel
                 (rightSpringOptions (get s (leftSpring Spring.rightProperty))) s;
      fun s => (Returned,
                create cell_eq_dec roboticArm_leftProperty
                  (RoboticArm.left (roboticArmOptions (get s (rightSpring Spring.rightProperty))))
                  s);
      fun s => new_ equivalentSpring ofEquivalentSpring fuel
                 (equivalentSpringOptions (get s (leftSpring Spring.leftProperty))) s;
      link_ fuel (equivalentSpring Spring.appliedForceProperty) forceLink;
      link_ fuel (leftSpring Spring.springConstantProperty) updateEquivalentSpringConstant;
      link_ fuel (rightSpring Spring.springConstantProperty) updateEquivalentSpringConstant;
      link_ fuel roboticArm_leftProperty armLink;
      link_ fuel (leftSpring Spring.rightProperty) connectRightSpring;
      link_ fuel (rightSpring Spring.rightProperty) connectArm;
      lazyLink_ (leftSpring Spring.leftProperty) leftSpringLeftGuard;
      lazyLink_ (equivalentSpring Spring.leftProperty) equivalentLeftGuard;
      lazyLink_ (equivalentSpring Spring.equilibriumXProperty) equivalentEquilibriumXGuard ]
    (empty cell listener false).

(** [reset]: the components in the order of the source. *)
Definition reset (fuel : nat) : state -> result cell listener bool :=
  let spring_reset P := Spring.reset P cell_eq_dec assertions isValidValue body fuel in
  steps [ spring_reset leftSpring;
          spring_reset rightSpring;
          Axon.reset cell_eq_dec assertions isValidValue body fuel roboticArm_leftProperty;
          spring_reset equivalentSpring ].

End Run.

End SeriesSystem.

(* ================================================================= *)
(** * Properties *)

(** ** Facts about cells that hold in every world *)

Module AxonFacts.
Section Facts.

Variables cell listener X : Type.
Variable cell_eq_dec : forall a b : cell, {a = b} + {a <> b}.
Variable assertions : bool.
Variable isValidValue : cell -> float -> bool.
Variable body : listener -> float -> action cell listener X.

#[local] Abbreviation store := (store cell listener X).
#[local] Abbreviation result := (result cell listener X).
#[local] Abbreviation set_ := (set cell_eq_dec assertions isValidValue body).

Lemma update_same (A : Type) (f : cell -> A) c a : update cell_eq_dec f c a c = a.
Proof. unfold update. destruct (cell_eq_dec c c); congruence. Qed.

Lemma update_other (A : Type) (f : cell -> A) c a c' :
  c <> c' -> update cell_eq_dec f c a c' = f c'.
Proof. unfold update. destruct (cell_eq_dec c c'); congruence. Qed.

(** A propagation never subscribes a listener. *)
Section Observers.
Variable set' : cell -> float -> store -> result.
Hypothesis set'_observers : forall c v s, observers (snd (set' c v s)) = observers s.

Lemma exec_observers a :
  forall s, observers (snd (exec assertions set' a s)) = observers s.
Proof.
  induction a as [| c e k IHk | b msg k IHk | msg | x k IHk | b a1 IH1 k IHk];
    intros s; simpl; unfold bind.
  - reflexivity.
  - specialize (set'_observers c (e s) s).
    destruct (set' c (e s) s) as [[| err |] s1]; simpl in *; trivial.
    rewrite IHk. assumption.
  - destruct (assertions && negb (b s)); simpl; auto.
  - reflexivity.
  - rewrite IHk. reflexivity.
  - destruct (b s); auto.
    specialize (IH1 s).
    destruct (exec assertions set' a1 s) as [[| err |] s1]; simpl in *; trivial.
    rewrite IHk. assumption.
Qed.

Lemma notify_observers ls v :
  forall s, observers (snd (notify assertions body set' ls v s)) = observers s.
Proof.
  induction ls as [| l ls IH]; intros s; simpl; unfold bind; trivial.
  pose proof (exec_observers (body l v) s) as H.
  destruct (exec assertions set' (body l v) s) as [[| err |] s1]; simpl in *; trivial.
  rewrite IH. assumption.
Qed.
End Observers.

Lemma set_observers fuel :
  forall c v s, observers (snd (set_ fuel c v s)) = observers s.
Proof.
  induction fuel as [| n IH]; intros c v s; simpl; trivial.
  destruct (negb (isValidValue c v)); trivial.
  destruct (v =? get s c); trivial.
  rewrite notify_observers by exact IH. reflexivity.
Qed.

(** *** The rule for reasoning about a propagation

      To show that every [set] is related by [R] to its result, it is
      enough to consider one notification round in which the nested calls
      of [set] are only known to meet [R] themselves (and to subscribe
      nothing). *)
Section Rule.
Variable R : cell -> float -> store -> result -> Prop.

Definition meets (set' : cell -> float -> store -> result) : Prop :=
  forall c v s,
    R c v s (set' c v s) /\ observers (snd (set' c v s)) = observers s.

Hypothesis R_fuel : forall c v s, R c v s (OutOfFuel, s).
Hypothesis R_invalid :
  forall c v s, isValidValue c v = false -> R c v s (Threw InvalidValueError, s).
Hypothesis R_same :
  forall c v s, isValidValue c v = true -> (v =? get s c) = true ->
                R c v s (Returned, s).
Hypothesis R_changed :
  forall set', meets set' ->
    forall c v s, isValidValue c v = true -> (v =? get s c) = false ->
      R c v s (notify assertions body set' (observers s c) v
                      (changed cell_eq_dec c v s)).

Theorem set_rule fuel : meets (set_ fuel).
Proof.
  induction fuel as [| n IH]; intros c v s; split; try apply set_observers.
  - apply R_fuel.
  - simpl. destruct (isValidValue c v) eqn:Hv; simpl.
    + destruct (v =? get s c) eqn:Hc.
      * apply R_same; assumption.
      * apply R_changed; assumption.
    + apply R_invalid; assumption.
Qed.
End Rule.

(** A cell nobody observes: [set] stores the value and returns. *)
Lemma set_unobserved fuel c v s :
  observers s c = [] -> isValidValue c v = true ->
  set_ (S fuel) c v s
  = (Returned, if v =? get s c then s else changed cell_eq_dec c v s).
Proof.
  intros Ho Hv. simpl. rewrite Hv, Ho. simpl.
  destruct (v =? get s c); reflexivity.
Qed.

End Facts.
End AxonFacts.

(* ================================================================= *)
(** ** Facts about a spring in any world *)

Module SpringFacts.
Import Spring.
Section Facts.

Variables cell listener X : Type.
Variable P : property -> cell.
Variable L : observer -> listener.
Variable cell_eq_dec : forall a b : cell, {a = b} + {a <> b}.
Variable assertions : bool.
Variable isValidValue : cell -> float -> bool.
Variable world : listener -> float -> action cell listener X.

#[local] Abbreviation store := (store cell listener X).
#[local] Abbreviation result := (result cell listener X).

Lemma steps_cons (m : store -> result) ms s s' :
  steps (m :: ms) s = (Returned, s') ->
  exists s1, m s = (Returned, s1) /\ steps ms s1 = (Returned, s').
Proof.
  simpl. unfold bind. destruct (m s) as [[| e |] s1]; try discriminate.
  intros H. exists s1. split; trivial.
Qed.

Lemma steps_nil (s s' : store) : steps [] s = (Returned, s') -> s' = s.
Proof. simpl. congruence. Qed.

(** The subscriptions that constructing a spring makes, in order: a cell
    is created with no listener, a listener goes to the end of a list. *)
Inductive wiring : Type :=
  | Fresh (c : cell)
  | Sub (c : cell) (l : listener).

Definition wire (f : cell -> list listener) (w : wiring) : cell -> list listener :=
  match w with
  | Fresh c => update cell_eq_dec f c []
  | Sub c l => update cell_eq_dec f c (f c ++ [l])
  end.

Definition wired_by (ws : list wiring) (f : cell -> list listener) :=
  fold_left wire ws f.

Definition new_wiring (this : fields) : list wiring :=
  [ Fresh (P appliedForceProperty); Fresh (P springConstantProperty);
    Fresh (P displacementProperty); Fresh (P leftProperty);
    Fresh (P springForceProperty);
    Sub (P appliedForceProperty) (L deriveSpringForce);
    Fresh (P equilibriumXProperty);
    Sub (P leftProperty) (L deriveEquilibriumX);
    Fresh (P rightProperty);
    Sub (P equilibriumXProperty) (L deriveRight);
    Sub (P displacementProperty) (L deriveRight);
    Fresh (P rightRangeMin); Fresh (P rightRangeMax) ]
  ++ (if forceDriven this
      then [ Sub (P springConstantProperty) (L deriveRightRange);
             Sub (P equilibriumXProperty) (L deriveRightRange) ]
      else [ Sub (P equilibriumXProperty) (L deriveRightRange) ])
  ++ [ Fresh (P lengthProperty);
       Sub (P leftProperty) (L deriveLength);
       Sub (P rightProperty) (L deriveLength);
       Fresh (P energyProperty);
       Sub (P springConstantProperty) (L deriveEnergy);
       Sub (P displacementProperty) (L deriveEnergy);
       Sub (P appliedForceProperty) (L observeAppliedForce);
       Sub (P springConstantProperty) (L observeSpringConstant);
       Sub (P displacementProperty) (L observeDisplacement) ].

Lemma wired_by_app ws1 ws2 f :
  wired_by (ws1 ++ ws2) f = wired_by ws2 (wired_by ws1 f).
Proof. apply fold_left_app. Qed.

Lemma create_wired c v (s s' : store) :
  (Returned, create cell_eq_dec c v s) = (Returned, s') ->
  observers s' = wired_by [Fresh c] (observers s).
Proof. intros H. inversion H. reflexivity. Qed.

Lemma subscribe_all_observers l deps :
  forall s : store,
    observers (fold_left (fun t d => subscribe cell_eq_dec d l t) deps s)
    = wired_by (map (fun d => Sub d l) deps) (observers s).
Proof.
  induction deps as [| d deps IH]; intros s; simpl; trivial.
Qed.

Lemma derive_wired fuel c deps l s s' :
  derive cell_eq_dec assertions isValidValue world fuel c deps l s = (Returned, s') ->
  observers s' = wired_by (Fresh c :: map (fun d => Sub d l) deps) (observers s).
Proof.
  unfold derive, bind.
  pose proof (@AxonFacts.exec_observers _ _ _ assertions _
                (AxonFacts.set_observers cell_eq_dec assertions isValidValue world fuel)
                (world l 0) (create cell_eq_dec c 0 s)) as H.
  destruct (exec _ _ _ _) as [[| e |] s1]; try discriminate.
  intros E. inversion E; subst s'. rewrite subscribe_all_observers.
  simpl in H. rewrite H. reflexivity.
Qed.

Lemma link_wired fuel c l s s' :
  link cell_eq_dec assertions isValidValue world fuel c l s = (Returned, s') ->
  observers s' = wired_by [Sub c l] (observers s).
Proof.
  unfold link. intros E.
  pose proof (@AxonFacts.exec_observers _ _ _ assertions _
                (AxonFacts.set_observers cell_eq_dec assertions isValidValue world fuel)
                (world l (get (subscribe cell_eq_dec c l s) c))
                (subscribe cell_eq_dec c l s)) as H.
  rewrite E in H. simpl in H. rewrite H. reflexivity.
Qed.

Lemma assert_returned (b : bool) msg (s s' : store) :
  exec assertions (fun _ _ t => (Returned, t)) (Assert (fun _ => b) msg Skip) s
  = (Returned, s') -> s' = s.
Proof. simpl. destruct (assertions && negb b); congruence. Qed.

(** A constructor that returns has made exactly the subscriptions of
    [new_wiring]. *)
Lemma new_wired fuel o s s' :
  Spring.new P L cell_eq_dec assertions isValidValue world fuel o s = (Returned, s') ->
  exists this, fields_of o = Some this
               /\ observers s' = wired_by (new_wiring this) (observers s).
Proof.
  unfold Spring.new. intros H.
  repeat (apply steps_cons in H; destruct H as (? & Ha & H);
          try (apply assert_returned in Ha; subst)).
  apply steps_nil in H. subst.
  destruct (fields_of o) as [this |]; try discriminate.
  exists this. split; trivial.
  rename Ha into H.
  repeat (apply steps_cons in H; destruct H as (? & ? & H)).
  apply steps_nil in H. subst.
  repeat match goal with
         | E : (Returned, create _ _ _ _) = (Returned, _) |- _ =>
             apply create_wired in E
         | E : derive _ _ _ _ _ _ _ _ _ = (Returned, _) |- _ =>
             apply derive_wired in E
         | E : link _ _ _ _ _ _ _ _ = (Returned, _) |- _ =>
             apply link_wired in E
         end.
  unfold new_wiring.
  repeat match goal with
         | E : observers ?t = _ |- context [observers ?t] => rewrite E; clear E
         end.
  destruct (forceDriven this); reflexivity.
Qed.

(** The last thing a constructor does is to link the displacement observer. *)
Lemma new_last_link fuel o s s' :
  Spring.new P L cell_eq_dec assertions isValidValue world fuel o s = (Returned, s') ->
  exists s1,
    link cell_eq_dec assertions isValidValue world fuel
         (P displacementProperty) (L observeDisplacement) s1 = (Returned, s').
Proof.
  unfold Spring.new. intros H.
  repeat (apply steps_cons in H; destruct H as (? & Ha & H);
          try (apply assert_returned in Ha; subst)).
  apply steps_nil in H. subst.
  destruct (fields_of o) as [this |]; try discriminate.
  rename Ha into H.
  repeat (apply steps_cons in H; destruct H as (? & ? & H)).
  apply steps_nil in H. subst. eauto.
Qed.

End Facts.
End SpringFacts.

(* ================================================================= *)
(** ** A spring on its own: what its states satisfy *)

Module SingleSpringFacts.
Import Spring.
Section Facts.

Variable assertions : bool.
Variable o : options.

#[local] Abbreviation self := (SingleSpring.self o).
#[local] Abbreviation state := SingleSpring.state.
#[local] Abbreviation result := (result property observer unit).

(** The listeners of each cell of a constructed spring, in the order in
    which they are invoked. *)
Definition table (p : property) : list observer :=
  match p with
  | appliedForceProperty => [deriveSpringForce; observeAppliedForce]
  | springConstantProperty =>
      if forceDriven self
      then [deriveRightRange; deriveEnergy; observeSpringConstant]
      else [deriveEnergy; observeSpringConstant]
  | displacementProperty => [deriveRight; deriveEnergy; observeDisplacement]
  | leftProperty => [deriveEquilibriumX; deriveLength]
  | equilibriumXProperty => [deriveRight; deriveRightRange]
  | rightProperty => [deriveLength]
  | _ => []
  end.

Definition wired (s : state) : Prop := forall p, observers s p = table p.

Lemma new_is_wired fuel s :
  SingleSpring.new assertions o fuel = (Returned, s) -> wired s.
Proof.
  unfold SingleSpring.new. intros H.
  apply SpringFacts.new_wired in H. destruct H as (this & Hf & Ho).
  intros p. rewrite Ho. unfold table, SingleSpring.self. rewrite Hf.
  unfold SpringFacts.new_wiring.
  destruct (forceDriven this); destruct p; reflexivity.
Qed.

Lemma wired_observers (s s' : state) :
  observers s' = observers s -> wired s -> wired s'.
Proof. intros E H p. rewrite E. apply H. Qed.

(** Hooke's law as far as the code keeps it: the displacement is the
    quotient [F / k], or the applied force is what the displacement
    observer computes from [k] and [x] (the product, rounded to the delta
    for a force-driven spring, clamped to the range), or, for a
    displacement-driven spring, the product itself. *)
Definition hooke (s : state) : Prop :=
  let F := get s appliedForceProperty in
  let k := get s springConstantProperty in
  let x := get s displacementProperty in
  (F / k =? x) = true
  \/ (forceOfDisplacement self k x =? F) = true
  \/ (forceDriven self = false /\ (k * x =? F) = true).

Definition same_Fkx (s s' : state) : Prop :=
  get s' appliedForceProperty = get s appliedForceProperty
  /\ get s' springConstantProperty = get s springConstantProperty
  /\ get s' displacementProperty = get s displacementProperty.

Definition settles (p : property) (v : float) (s : state) (r : result) : Prop :=
  wired s -> fst r = Returned ->
  match p with
  | appliedForceProperty | springConstantProperty | displacementProperty =>
      hooke (snd r) \/ (snd r = s /\ (v =? get s p) = true)
  | _ => same_Fkx s (snd r)
  end.

Lemma get_changed_same (p : property) v (s : state) :
  get (changed property_eq_dec p v s) p = v.
Proof. unfold get, changed; simpl. apply AxonFacts.update_same. Qed.

Lemma get_changed_other (p q : property) v (s : state) :
  p <> q -> get (changed property_eq_dec p v s) q = get s q.
Proof. intros H. unfold get, changed; simpl. apply AxonFacts.update_other, H. Qed.

Lemma same_Fkx_refl s : same_Fkx s s.
Proof. repeat split. Qed.

Lemma same_Fkx_trans s1 s2 s3 : same_Fkx s1 s2 -> same_Fkx s2 s3 -> same_Fkx s1 s3.
Proof. unfold same_Fkx. intros (a & b & c) (d & e & f). repeat split; congruence. Qed.

Lemma same_Fkx_changed p v s :
  isDerived p = true \/ p = leftProperty -> same_Fkx s (changed property_eq_dec p v s).
Proof.
  intros H. repeat split; apply get_changed_other;
    destruct H as [H | H]; subst; try discriminate; destruct p; discriminate.
Qed.

Lemma hooke_same_Fkx s s' : same_Fkx s s' -> hooke s -> hooke s'.
Proof. unfold hooke. intros (a & b & c). rewrite a, b, c. trivial. Qed.

Ltac skip_failures :=
  try (intros; simpl in *; discriminate).

Ltac call Hm set' :=
  match goal with
  | |- context [set' ?c ?v ?s] =>
      let HR := fresh "HR" in
      let Ho := fresh "Ho" in
      destruct (Hm c v s) as [HR Ho];
      destruct (set' c v s) as [[| ? |] ?]; simpl in HR, Ho |- *;
      skip_failures;
      [ specialize (HR ltac:(eauto using wired_observers) eq_refl); simpl in HR ]
  end.

Ltac check_assertion :=
  match goal with
  | |- context [assertions && negb ?b] =>
      destruct (assertions && negb b); simpl; skip_failures
  end.

Ltac frame_chain :=
  first
    [ solve [apply same_Fkx_changed; auto]
    | match goal with
      | H : same_Fkx (changed _ ?p ?v ?s) _ |- same_Fkx ?s _ =>
          apply (same_Fkx_trans (s2 := changed property_eq_dec p v s));
          [apply same_Fkx_changed; auto |]
      end;
      repeat (first [eassumption | eapply same_Fkx_trans; [eassumption |]]) ].

Lemma settles_changed set' :
  AxonFacts.meets settles set' ->
  forall p v s, (v =? get s p) = false ->
    settles p v s (notify assertions (SingleSpring.body o) set' (observers s p) v
                          (changed property_eq_dec p v s)).
Proof.
  intros Hm p v s Hc Hw. rewrite (Hw p).
  assert (Hw1 : wired (changed property_eq_dec p v s)) by exact Hw.
  destruct p; simpl; unfold bind.
  - (* F *)
    call Hm set'. check_assertion. call Hm set'. intros _. left.
    destruct HR0 as [H | [-> H]]; trivial.
    left. destruct HR as (a & b & c). rewrite a, get_changed_same. exact H.
  - (* k *)
    destruct (forceDriven self) eqn:Hfd; simpl; rewrite ?Hfd; simpl; unfold bind.
    + call Hm set'. call Hm set'. call Hm set'. check_assertion.
      call Hm set'. intros _. left.
      destruct HR2 as [H | [-> H]]; trivial.
      left.
      pose proof (same_Fkx_trans (same_Fkx_trans HR HR0) HR1) as (a & b & c).
      rewrite b, get_changed_same. exact H.
    + call Hm set'. check_assertion.
      call Hm set'. intros _. left.
      destruct HR0 as [H | [-> H]]; trivial.
      right. right. split; trivial.
      destruct HR as (a & b & c). rewrite b, get_changed_same. exact H.
  - (* x *)
    check_assertion. call Hm set'. call Hm set'. check_assertion. call Hm set'.
    intros _. left.
    destruct HR1 as [H | [-> H]]; trivial.
    right. left.
    pose proof (same_Fkx_trans HR HR0) as (a & b & c).
    rewrite c, get_changed_same. exact H.
  - (* left *)
    call Hm set'. call Hm set'. intros _. frame_chain.
  - intros _. frame_chain.
  - (* equilibriumX *)
    destruct (forceDriven self) eqn:Hfd; simpl; rewrite ?Hfd; simpl; unfold bind;
      check_assertion; call Hm set'; call Hm set'; call Hm set'; intros _; frame_chain.
  - (* right *)
    call Hm set'. intros _. frame_chain.
  - intros _. frame_chain.
  - intros _. frame_chain.
  - intros _. frame_chain.
  - intros _. frame_chain.
Qed.

Theorem settles_set fuel :
  AxonFacts.meets settles
    (Axon.set property_eq_dec assertions (fun _ _ => true) (SingleSpring.body o) fuel).
Proof.
  apply AxonFacts.set_rule.
  - intros p v s _ H. discriminate.
  - intros p v s H. discriminate.
  - intros p v s _ H _ _. destruct p; auto using same_Fkx_refl.
  - intros set' Hm p v s _ Hc. apply settles_changed; assumption.
Qed.

(** The states a spring can be in: the one its constructor returns, and
    the one any write from outside returns in. *)
Inductive reachable : state -> Prop :=
  | reachable_new fuel s :
      SingleSpring.new assertions o fuel = (Returned, s) -> reachable s
  | reachable_set fuel p v s s' :
      reachable s -> SingleSpring.set assertions o fuel p v s = (Returned, s') ->
      reachable s'.

Lemma new_hooke fuel s :
  SingleSpring.new assertions o fuel = (Returned, s) -> hooke s.
Proof.
  intros H. pose proof H as Hw. apply new_is_wired in Hw.
  apply SpringFacts.new_last_link in H. destruct H as (s1 & H).
  unfold link in H. simpl in H.
  destruct (assertions && negb _); try discriminate.
  unfold bind in H.
  match type of H with
  | context [set _ _ _ _ ?n ?c ?v ?t] =>
      destruct (settles_set n c v t) as [HR Ho];
      destruct (set _ _ _ _ n c v t) as [[| ? |] s2] eqn:E; try discriminate
  end.
  simpl in H. cbn [snd] in Ho. inversion H; subst s2.
  assert (Hw1 : wired (subscribe property_eq_dec displacementProperty
                                 observeDisplacement s1))
    by (intros p; rewrite <- Ho; apply Hw).
  specialize (HR Hw1 eq_refl). simpl in HR.
  destruct HR as [HR | [-> HR]]; trivial.
  right. left. exact HR.
Qed.

Lemma reachable_wired_hooke s : reachable s -> wired s /\ hooke s.
Proof.
  induction 1 as [fuel s H | fuel p v s s' _ [Hw Hh] H].
  - split; eauto using new_is_wired, new_hooke.
  - unfold SingleSpring.set, external_set in H.
    destruct (isDerived p) eqn:Hd; try discriminate.
    destruct (settles_set fuel p v s) as [HR Ho].
    rewrite H in HR, Ho. simpl in Ho. split.
    + eauto using wired_observers.
    + specialize (HR Hw eq_refl). simpl in HR.
      destruct p; try discriminate;
        try (destruct HR as [HR | [-> _]]; assumption).
      eauto using hooke_same_Fkx.
Qed.

End Facts.
End SingleSpringFacts.

(* ================================================================= *)
(** ** A spring on its own: one propagation, step by step *)

Module SingleSpringSteps.
Import Spring SingleSpringFacts.
Section Steps.

Variable assertions : bool.
Variable o : options.

#[local] Abbreviation self := (SingleSpring.self o).
#[local] Abbreviation state := SingleSpring.state.
#[local] Abbreviation set_ :=
  (Axon.set property_eq_dec assertions (fun _ _ => true) (SingleSpring.body o)).
#[local] Abbreviation wired := (wired o).

(** An assertion that does not stop the run: it holds, or assertions are
    disabled. *)
Definition passes (b : bool) : bool := negb (assertions && negb b).

(** The effect of [set] on a cell that nobody observes. *)
Definition put (p : property) (v : float) (s : state) : state :=
  if v =? get s p then s else changed property_eq_dec p v s.

(** The cells that the property observers and the derivation of [right]
    read. *)
Definition same_inputs (s s' : state) : Prop :=
  get s' appliedForceProperty = get s appliedForceProperty
  /\ get s' springConstantProperty = get s springConstantProperty
  /\ get s' displacementProperty = get s displacementProperty
  /\ get s' leftProperty = get s leftProperty
  /\ get s' equilibriumXProperty = get s equilibriumXProperty.

Definition is_input (p : property) : bool :=
  match p with
  | appliedForceProperty | springConstantProperty | displacementProperty
  | leftProperty | equilibriumXProperty => true
  | _ => false
  end.

Lemma same_inputs_refl s : same_inputs s s.
Proof. repeat split. Qed.

Lemma same_inputs_trans s1 s2 s3 :
  same_inputs s1 s2 -> same_inputs s2 s3 -> same_inputs s1 s3.
Proof.
  unfold same_inputs. intros (a & b & c & d & e) (a' & b' & c' & d' & e').
  repeat split; congruence.
Qed.

Lemma same_inputs_put p v s : is_input p = false -> same_inputs s (put p v s).
Proof.
  intros H. unfold put. destruct (v =? get s p); [apply same_inputs_refl |].
  repeat split; apply get_changed_other; intros ->; discriminate.
Qed.

Lemma wired_put p v s : wired s -> wired (put p v s).
Proof. unfold put. destruct (v =? get s p); trivial. Qed.

Lemma set_leaf n p v s :
  wired s -> table o p = [] -> set_ (S n) p v s = (Returned, put p v s).
Proof.
  intros Hw Ht. unfold put. rewrite AxonFacts.set_unobserved; trivial.
  rewrite (Hw p). exact Ht.
Qed.

Lemma set_same n p v s :
  (v =? get s p) = true -> set_ (S n) p v s = (Returned, s).
Proof. intros H. simpl. rewrite H. reflexivity. Qed.

Lemma set_changed n p v s :
  wired s -> (v =? get s p) = false ->
  set_ (S n) p v s
  = notify assertions (SingleSpring.body o) (set_ n) (table o p) v
           (changed property_eq_dec p v s).
Proof. intros Hw H. simpl. rewrite H, (Hw p). reflexivity. Qed.

Ltac unfold_round :=
  cbn [table notify exec]; unfold bind;
  cbn [SingleSpring.body Spring.body exec]; unfold bind.

(** [right] is observed by the derivation of [length] only. *)
Lemma set_right n v s :
  wired s ->
  exists s', set_ (S (S n)) rightProperty v s = (Returned, s')
             /\ wired s' /\ same_inputs s s'.
Proof.
  intros Hw. destruct (v =? get s rightProperty) eqn:E.
  - rewrite set_same by trivial. exists s. auto using same_inputs_refl.
  - rewrite set_changed by trivial. unfold_round.
    rewrite set_leaf by trivial.
    eexists. split; [reflexivity |]. split.
    + apply wired_put. exact Hw.
    + eapply same_inputs_trans; [| apply same_inputs_put; reflexivity].
      repeat split; apply get_changed_other; discriminate.
Qed.

Lemma passes_true b :
  passes b = true -> assertions && negb b = false.
Proof. unfold passes. destruct (assertions && negb b); simpl; congruence. Qed.

Lemma bind_skip (r : result property observer unit) :
  (let (out, s') := r in
   match out with
   | Returned => (Returned, s')
   | Threw e => (Threw e, s')
   | OutOfFuel => (OutOfFuel, s')
   end) = r.
Proof. destruct r as [[| e |] s']; reflexivity. Qed.

Lemma same_inputs_changed p v s :
  is_input p = false -> same_inputs s (changed property_eq_dec p v s).
Proof.
  intros H. repeat split; apply get_changed_other; intros ->; discriminate.
Qed.

(** The derivations that a change of [displacement] triggers. *)
Lemma derive_right_energy n v s :
  wired s ->
  passes (0 <? get s equilibriumXProperty + get s displacementProperty
               - get s leftProperty) = true ->
  exists s1,
    wired s1 /\ same_inputs s s1 /\
    forall k : state -> result property observer unit,
      bind (exec assertions (set_ (S (S n))) (SingleSpring.body o deriveRight v))
           (bind (exec assertions (set_ (S (S n))) (SingleSpring.body o deriveEnergy v)) k) s
      = k s1.
Proof.
  intros Hw Ha.
  destruct (set_right n (get s equilibriumXProperty + get s displacementProperty) Hw)
    as (s1 & E1 & Hw1 & H1).
  exists (put energyProperty
              (get s1 springConstantProperty * get s1 displacementProperty
               * get s1 displacementProperty / 2) s1).
  split; [apply wired_put, Hw1 |]. split.
  - eapply same_inputs_trans; [exact H1 | apply same_inputs_put; reflexivity].
  - intros k. cbn [SingleSpring.body Spring.body exec]. unfold bind at 1.
    rewrite (passes_true _ Ha).
    unfold bind at 1. rewrite E1. cbn [exec]. unfold bind at 1 2.
    rewrite set_leaf by trivial. reflexivity.
Qed.

(** x: a new displacement [v] is stored, [right], [length] and [energy]
    follow, and the displacement observer hands
    [forceOfDisplacement k v] to [appliedForceProperty.set]. *)
Lemma set_displacement n v s :
  wired s ->
  (v =? get s displacementProperty) = false ->
  passes (0 <? get s equilibriumXProperty + v - get s leftProperty) = true ->
  passes (contains (self_displacementRange self) v) = true ->
  exists s1,
    wired s1
    /\ same_inputs (changed property_eq_dec displacementProperty v s) s1
    /\ set_ (S (S (S n))) displacementProperty v s
       = set_ (S (S n)) appliedForceProperty
              (forceOfDisplacement self (get s springConstantProperty) v) s1.
Proof.
  intros Hw Hc Ha1 Ha2.
  rewrite set_changed by trivial.
  cbn [table notify].
  destruct (@derive_right_energy n v (changed property_eq_dec displacementProperty v s))
    as (s1 & Hw1 & H1 & E); trivial.
  exists s1. split; trivial. split; trivial.
  rewrite E. cbn [SingleSpring.body Spring.body exec notify]. unfold bind.
  rewrite (passes_true _ Ha2). rewrite !bind_skip.
  destruct H1 as (_ & -> & _). rewrite get_changed_other by discriminate.
  reflexivity.
Qed.

(** F: a new applied force [v] is stored, [springForce] follows, and the
    applied-force observer hands [v / k] to [displacementProperty.set]. *)
Lemma set_appliedForce n v s :
  wired s ->
  (v =? get s appliedForceProperty) = false ->
  passes (contains (self_appliedForceRange self) v) = true ->
  exists s1,
    wired s1
    /\ same_inputs (changed property_eq_dec appliedForceProperty v s) s1
    /\ set_ (S (S n)) appliedForceProperty v s
       = set_ (S n) displacementProperty (v / get s springConstantProperty) s1.
Proof.
  intros Hw Hc Ha.
  rewrite set_changed by trivial. unfold_round.
  rewrite set_leaf by trivial. rewrite (passes_true _ Ha). rewrite !bind_skip.
  pose proof (@same_inputs_put springForceProperty (- v)
                (changed property_eq_dec appliedForceProperty v s) eq_refl) as H.
  rewrite get_changed_same.
  eexists. split; [| split; [exact H |]].
  - apply wired_put. exact Hw.
  - destruct H as (_ & -> & _).
    rewrite get_changed_other by discriminate. reflexivity.
Qed.

(** k: a new spring constant [v] is stored, [rightRange] and [energy]
    follow, and the spring-constant observer hands [F / v] to
    [displacementProperty.set] (force-driven) or [v * x] to
    [appliedForceProperty.set] (displacement-driven). *)
Lemma set_springConstant n v s :
  wired s ->
  (v =? get s springConstantProperty) = false ->
  passes (contains (self_springConstantRange self) v) = true ->
  exists s1,
    wired s1
    /\ same_inputs (changed property_eq_dec springConstantProperty v s) s1
    /\ set_ (S (S n)) springConstantProperty v s
       = if forceDriven self
         then set_ (S n) displacementProperty (get s appliedForceProperty / v) s1
         else set_ (S n) appliedForceProperty (v * get s displacementProperty) s1.
Proof.
  intros Hw Hc Ha.
  rewrite set_changed by trivial. cbn [table].
  destruct (forceDriven self) eqn:Hfd; unfold_round; rewrite ?Hfd;
    cbn [exec]; unfold bind;
    repeat (rewrite set_leaf by (trivial; repeat apply wired_put; exact Hw));
    rewrite (passes_true _ Ha); cbn [exec]; unfold bind; rewrite !bind_skip.
  - match goal with
    | |- context [get ?t appliedForceProperty / v] =>
        assert (H : same_inputs (changed property_eq_dec springConstantProperty v s) t)
          by (repeat (eapply same_inputs_trans; [| apply same_inputs_put; reflexivity]);
              apply same_inputs_refl);
        exists t
    end.
    split; [repeat apply wired_put; exact Hw |]. split; [exact H |].
    destruct H as (-> & _). rewrite get_changed_other by discriminate. reflexivity.
  - match goal with
    | |- context [v * get ?t displacementProperty] =>
        assert (H : same_inputs (changed property_eq_dec springConstantProperty v s) t)
          by (repeat (eapply same_inputs_trans; [| apply same_inputs_put; reflexivity]);
              apply same_inputs_refl);
        exists t
    end.
    split; [repeat apply wired_put; exact Hw |]. split; [exact H |].
    destruct H as (_ & _ & -> & _). rewrite get_changed_other by discriminate.
    reflexivity.
Qed.

(** *** Writing the spring constant *)

(** A spring constant [k'] keeps the applied force [F] of a force-driven
    spring when the assertions on its way pass and the displacement observer
    computes [F] again from the new displacement [F / k']. *)
Definition keeps_force (s : state) (k' : float) : bool :=
  let F := get s appliedForceProperty in
  passes (contains (self_springConstantRange self) k')
  && passes (0 <? get s equilibriumXProperty + F / k' - get s leftProperty)
  && passes (contains (self_displacementRange self) (F / k'))
  && (forceOfDisplacement self k' (F / k') =? F).

(** A spring constant [k'] keeps the displacement [x] of a
    displacement-driven spring when the assertions on its way pass and the
    applied-force observer computes [x] again from the new force [k' x]. *)
Definition keeps_displacement (s : state) (k' : float) : bool :=
  let x := get s displacementProperty in
  passes (contains (self_springConstantRange self) k')
  && passes (contains (self_appliedForceRange self) (k' * x))
  && (k' * x / k' =? x).

(** The cells that a write of the spring constant leaves alone. *)
Definition same_anchor (s s' : state) : Prop :=
  get s' leftProperty = get s leftProperty
  /\ get s' equilibriumXProperty = get s equilibriumXProperty.

Lemma springConstant_keeps_force n k' s :
  wired s -> forceDriven self = true -> keeps_force s k' = true ->
  exists s',
    set_ (4 + n) springConstantProperty k' s = (Returned, s')
    /\ wired s' /\ same_anchor s s'
    /\ get s' appliedForceProperty = get s appliedForceProperty
    /\ (s' = s
        \/ get s' springConstantProperty = k'
           /\ holds (get s' displacementProperty)
                    (get s' appliedForceProperty / get s' springConstantProperty)).
Proof.
  intros Hw Hfd H. unfold keeps_force in H.
  apply andb_prop in H. destruct H as [H HS].
  apply andb_prop in H. destruct H as [H HX].
  apply andb_prop in H. destruct H as [HK HG].
  change (4 + n)%nat with (S (S (S (S n)))).
  destruct (k' =? get s springConstantProperty) eqn:Ek.
  { rewrite set_same by trivial. exists s. unfold same_anchor. auto 10. }
  destruct (@set_springConstant (S (S n)) k' s Hw Ek HK) as (s1 & Hw1 & H1 & E).
  rewrite E, Hfd. clear E.
  destruct H1 as (F1 & K1 & X1 & L1 & Q1).
  rewrite !get_changed_other in F1, X1, L1, Q1 by discriminate.
  rewrite get_changed_same in K1.
  destruct (get s appliedForceProperty / k' =? get s1 displacementProperty) eqn:Ex.
  { rewrite set_same by trivial. exists s1. unfold same_anchor, holds.
    repeat (split; trivial). right. rewrite F1, K1. auto. }
  destruct (@set_displacement n _ s1 Hw1 Ex) as (s2 & Hw2 & H2 & E).
  { rewrite Q1, L1. exact HG. }
  { exact HX. }
  rewrite E. clear E.
  destruct H2 as (F2 & K2 & X2 & L2 & Q2).
  rewrite !get_changed_other in F2, K2, L2, Q2 by discriminate.
  rewrite get_changed_same in X2.
  rewrite set_same by (rewrite K1, F2, F1; exact HS).
  exists s2. unfold same_anchor, holds. repeat (split; try congruence).
  right. split; [congruence |]. left. congruence.
Qed.

Lemma springConstant_keeps_displacement n k' s :
  wired s -> forceDriven self = false -> keeps_displacement s k' = true ->
  exists s',
    set_ (4 + n) springConstantProperty k' s = (Returned, s')
    /\ wired s' /\ same_anchor s s'
    /\ get s' displacementProperty = get s displacementProperty
    /\ (s' = s
        \/ get s' springConstantProperty = k'
           /\ holds (get s' appliedForceProperty)
                    (get s' springConstantProperty * get s' displacementProperty)).
Proof.
  intros Hw Hfd H. unfold keeps_displacement in H.
  apply andb_prop in H. destruct H as [H HS].
  apply andb_prop in H. destruct H as [HK HF].
  change (4 + n)%nat with (S (S (S (S n)))).
  destruct (k' =? get s springConstantProperty) eqn:Ek.
  { rewrite set_same by trivial. exists s. unfold same_anchor. auto 10. }
  destruct (@set_springConstant (S (S n)) k' s Hw Ek HK) as (s1 & Hw1 & H1 & E).
  rewrite E, Hfd. clear E.
  destruct H1 as (F1 & K1 & X1 & L1 & Q1).
  rewrite !get_changed_other in F1, X1, L1, Q1 by discriminate.
  rewrite get_changed_same in K1.
  destruct (k' * get s displacementProperty =? get s1 appliedForceProperty) eqn:Ef.
  { rewrite set_same by trivial. exists s1. unfold same_anchor, holds.
    repeat (split; trivial). right. rewrite X1, K1. auto. }
  destruct (@set_appliedForce (S n) _ s1 Hw1 Ef HF) as (s2 & Hw2 & H2 & E).
  rewrite E. clear E.
  destruct H2 as (F2 & K2 & X2 & L2 & Q2).
  rewrite !get_changed_other in K2, X2, L2, Q2 by discriminate.
  rewrite get_changed_same in F2.
  rewrite set_same by (rewrite K1, X2, X1; exact HS).
  exists s2. unfold same_anchor, holds. repeat (split; try congruence).
  right. split; [congruence |]. left. congruence.
Qed.

Lemma forallb_same (f g : float -> bool) l :
  (forall k, f k = g k) -> forallb f l = forallb g l.
Proof. intros H. induction l as [| k l IH]; simpl; congruence. Qed.

(** A run of writes of the spring constant from outside. *)
Definition setSpringConstants (fuel : nat) (ks : list float)
  : state -> result property observer unit :=
  steps (map (SingleSpring.set assertions o fuel springConstantProperty) ks).

Lemma keeps_force_ext s s' k' :
  get s' appliedForceProperty = get s appliedForceProperty ->
  same_anchor s s' -> keeps_force s' k' = keeps_force s k'.
Proof. unfold keeps_force. intros -> [-> ->]. reflexivity. Qed.

Lemma keeps_displacement_ext s s' k' :
  get s' displacementProperty = get s displacementProperty ->
  keeps_displacement s' k' = keeps_displacement s k'.
Proof. unfold keeps_displacement. intros ->. reflexivity. Qed.

Lemma same_anchor_trans s1 s2 s3 :
  same_anchor s1 s2 -> same_anchor s2 s3 -> same_anchor s1 s3.
Proof. unfold same_anchor. intros [a b] [c d]. split; congruence. Qed.

Lemma setSpringConstants_keep_force n ks :
  forall s,
    wired s -> forceDriven self = true ->
    forallb (keeps_force s) ks = true ->
    exists s',
      setSpringConstants (4 + n) ks s = (Returned, s')
      /\ wired s' /\ same_anchor s s'
      /\ get s' appliedForceProperty = get s appliedForceProperty
      /\ (s' = s
          \/ holds (get s' displacementProperty)
                   (get s' appliedForceProperty / get s' springConstantProperty)).
Proof.
  unfold setSpringConstants.
  induction ks as [| k' ks IH]; intros s Hw Hfd H; simpl in H |- *.
  - exists s. unfold same_anchor. auto 10.
  - apply andb_prop in H. destruct H as [Hk Hks].
    destruct (@springConstant_keeps_force n k' s Hw Hfd Hk) as (s1 & E & Hw1 & A1 & F1 & D1).
    change (4 + n)%nat with (S (S (S (S n)))) in *.
    unfold bind, SingleSpring.set, external_set. simpl isDerived. cbv iota.
    rewrite E.
    destruct (IH s1 Hw1 Hfd) as (s2 & E2 & Hw2 & A2 & F2 & D2).
    { rewrite <- Hks. apply forallb_same. intros k. apply keeps_force_ext; trivial. }
    unfold SingleSpring.set, external_set in E2. simpl isDerived in E2.
    rewrite E2. exists s2.
    split; trivial. split; trivial.
    split; [eapply same_anchor_trans; eassumption |].
    split; [congruence |].
    destruct D2 as [-> | D2]; [| auto].
    destruct D1 as [-> | [_ D1]]; auto.
Qed.

Lemma setSpringConstants_keep_displacement n ks :
  forall s,
    wired s -> forceDriven self = false ->
    forallb (keeps_displacement s) ks = true ->
    exists s',
      setSpringConstants (4 + n) ks s = (Returned, s')
      /\ wired s'
      /\ get s' displacementProperty = get s displacementProperty
      /\ (s' = s
          \/ holds (get s' appliedForceProperty)
                   (get s' springConstantProperty * get s' displacementProperty)).
Proof.
  unfold setSpringConstants.
  induction ks as [| k' ks IH]; intros s Hw Hfd H; simpl in H |- *.
  - exists s. auto 10.
  - apply andb_prop in H. destruct H as [Hk Hks].
    destruct (@springConstant_keeps_displacement n k' s Hw Hfd Hk)
      as (s1 & E & Hw1 & A1 & X1 & D1).
    change (4 + n)%nat with (S (S (S (S n)))) in *.
    unfold bind, SingleSpring.set, external_set. simpl isDerived. cbv iota.
    rewrite E.
    destruct (IH s1 Hw1 Hfd) as (s2 & E2 & Hw2 & X2 & D2).
    { rewrite <- Hks. apply forallb_same. intros k.
      apply keeps_displacement_ext; trivial. }
    unfold SingleSpring.set, external_set in E2. simpl isDerived in E2.
    rewrite E2. exists s2.
    split; trivial. split; trivial.
    split; [congruence |].
    destruct D2 as [-> | D2]; [| auto].
    destruct D1 as [-> | [_ D1]]; auto.
Qed.

End Steps.
End SingleSpringSteps.

(* ================================================================= *)
(** ** The values that [reset] restores *)

Module InitialValueFacts.
Section Facts.

Variables cell listener X : Type.
Variable cell_eq_dec : forall a b : cell, {a = b} + {a <> b}.
Variable assertions : bool.
Variable isValidValue : cell -> float -> bool.
Variable body : listener -> float -> action cell listener X.

Section Round.
Variable set' : cell -> float -> store cell listener X -> result cell listener X.
Hypothesis set'_initialValue :
  forall c v s, initialValue (snd (set' c v s)) = initialValue s.

Lemma exec_initialValue a :
  forall s, initialValue (snd (exec assertions set' a s)) = initialValue s.
Proof.
  induction a as [| c e k IHk | b msg k IHk | msg | x k IHk | b a1 IH1 k IHk];
    intros s; simpl; unfold bind; try reflexivity.
  - specialize (set'_initialValue c (e s) s).
    destruct (set' c (e s) s) as [[| err |] s1]; simpl in *; trivial.
    rewrite IHk. assumption.
  - destruct (assertions && negb (b s)); simpl; auto.
  - rewrite IHk. reflexivity.
  - destruct (b s); auto.
    specialize (IH1 s).
    destruct (exec assertions set' a1 s) as [[| err |] s1]; simpl in *; trivial.
    rewrite IHk. assumption.
Qed.

Lemma notify_initialValue ls v :
  forall s, initialValue (snd (notify assertions body set' ls v s)) = initialValue s.
Proof.
  induction ls as [| l ls IH]; intros s; simpl; unfold bind; trivial.
  pose proof (exec_initialValue (body l v) s) as H.
  destruct (exec assertions set' (body l v) s) as [[| err |] s1]; simpl in *; trivial.
  rewrite IH. assumption.
Qed.
End Round.

(** A propagation does not touch the values that [reset] restores. *)
Theorem set_initialValue fuel :
  forall c v s,
    initialValue (snd (set cell_eq_dec assertions isValidValue body fuel c v s))
    = initialValue s.
Proof.
  induction fuel as [| n IH]; intros c v s; simpl; trivial.
  destruct (negb (isValidValue c v)); trivial.
  destruct (v =? get s c); trivial.
  rewrite notify_initialValue by exact IH. reflexivity.
Qed.

End Facts.
End InitialValueFacts.

(* ================================================================= *)
(** ** Facts about the comparisons of numbers *)

Module NumberFacts.

(** A number in the sense of JavaScript's [isNaN]. *)
Definition is_number (x : float) : bool := negb (is_nan x).

Lemma SFcompare_antisym (f1 f2 : spec_float) :
  SFcompare f2 f1 = option_map CompOpp (SFcompare f1 f2).
Proof.
  destruct f1 as [s1 | s1 | | s1 m1 e1], f2 as [s2 | s2 | | s2 m2 e2];
    simpl; try reflexivity;
    try (destruct s1; reflexivity); try (destruct s2; reflexivity);
    try (destruct s1, s2; reflexivity).
  destruct s1, s2; simpl; trivial;
    rewrite (Z.compare_antisym e1 e2);
    destruct (e1 ?= e2)%Z; simpl; trivial;
    change (Pos.compare_cont Eq m2 m1) with (m2 ?= m1)%positive;
    change (Pos.compare_cont Eq m1 m2) with (m1 ?= m2)%positive;
    rewrite (Pos.compare_antisym m1 m2); destruct (m1 ?= m2)%positive; reflexivity.
Qed.

Lemma SFcompare_refl (f : spec_float) :
  f <> S754_nan -> SFcompare f f = Some Eq.
Proof.
  destruct f as [s | s | | s m e]; simpl; intros H; try congruence.
  - destruct s; reflexivity.
  - rewrite Z.compare_refl.
    change (Pos.compare_cont Eq m m) with (m ?= m)%positive.
    rewrite Pos.compare_refl. destruct s; reflexivity.
Qed.

Lemma SFcompare_none (f1 f2 : spec_float) :
  SFcompare f1 f2 = None -> f1 = S754_nan \/ f2 = S754_nan.
Proof.
  destruct f1 as [s1 | s1 | | s1 m1 e1], f2 as [s2 | s2 | | s2 m2 e2];
    simpl; auto; discriminate.
Qed.

Lemma is_number_spec (x : float) : is_number x = true -> Prim2SF x <> S754_nan.
Proof.
  unfold is_number, is_nan. rewrite negb_involutive, FloatAxioms.eqb_spec. unfold SFeqb.
  intros H E. rewrite E in H. discriminate.
Qed.

Lemma compare_numbers (x y : float) :
  is_number x = true -> is_number y = true ->
  exists c, SFcompare (Prim2SF x) (Prim2SF y) = Some c.
Proof.
  intros Hx Hy. apply is_number_spec in Hx, Hy.
  destruct (SFcompare (Prim2SF x) (Prim2SF y)) as [c |] eqn:E; eauto.
  apply SFcompare_none in E. tauto.
Qed.

(** [x < y] is false exactly when [y <= x], for numbers. *)
Lemma ltb_false_leb (x y : float) :
  is_number x = true -> is_number y = true ->
  (x <? y) = false -> (y <=? x) = true.
Proof.
  intros Hx Hy. destruct (compare_numbers x y Hx Hy) as [c E].
  rewrite FloatAxioms.ltb_spec, FloatAxioms.leb_spec. unfold SFltb, SFleb.
  rewrite (SFcompare_antisym (Prim2SF x) (Prim2SF y)), E. simpl.
  destruct c; simpl; congruence.
Qed.

Lemma leb_ltb_false (x y : float) : (y <=? x) = true -> (x <? y) = false.
Proof.
  rewrite FloatAxioms.ltb_spec, FloatAxioms.leb_spec. unfold SFltb, SFleb.
  rewrite (SFcompare_antisym (Prim2SF x) (Prim2SF y)).
  destruct (SFcompare (Prim2SF x) (Prim2SF y)) as [[| |] |]; simpl; congruence.
Qed.

Lemma ltb_leb (x y : float) : (x <? y) = true -> (x <=? y) = true.
Proof.
  rewrite FloatAxioms.ltb_spec, FloatAxioms.leb_spec. unfold SFltb, SFleb.
  destruct (SFcompare (Prim2SF x) (Prim2SF y)) as [[| |] |]; simpl; congruence.
Qed.

Lemma leb_refl (x : float) : is_number x = true -> (x <=? x) = true.
Proof.
  intros H. rewrite FloatAxioms.leb_spec. unfold SFleb.
  rewrite SFcompare_refl by (apply is_number_spec, H). reflexivity.
Qed.

Lemma ltb_number (x y : float) :
  (x <? y) = true -> is_number x = true /\ is_number y = true.
Proof.
  unfold is_number, is_nan. rewrite !negb_involutive, FloatAxioms.ltb_spec, !FloatAxioms.eqb_spec.
  unfold SFltb, SFeqb. intros H.
  destruct (Prim2SF x) as [s1 | s1 | | s1 m1 e1] eqn:Ex,
           (Prim2SF y) as [s2 | s2 | | s2 m2 e2] eqn:Ey;
    try discriminate; split;
    (rewrite SFcompare_refl; [reflexivity | discriminate]).
Qed.

(** [Math.max] and [Math.min] of two numbers. *)
Lemma max_number (a b : float) :
  is_number a = true -> is_number b = true ->
  is_number (Math.max a b) = true
  /\ (a <=? Math.max a b) = true /\ (b <=? Math.max a b) = true.
Proof.
  intros Ha Hb. unfold Math.max.
  assert (Na : is_nan a = false) by (unfold is_number in Ha; destruct (is_nan a); trivial; discriminate).
  assert (Nb : is_nan b = false) by (unfold is_number in Hb; destruct (is_nan b); trivial; discriminate).
  rewrite Na, Nb. simpl.
  destruct (a <? b) eqn:E1.
  { auto using ltb_leb, leb_refl. }
  destruct (b <? a) eqn:E2.
  { auto using ltb_leb, leb_refl. }
  destruct (Math.is_negative_zero a);
    auto using ltb_false_leb, leb_refl.
Qed.

Lemma min_number (a b : float) :
  is_number a = true -> is_number b = true ->
  is_number (Math.min a b) = true
  /\ (Math.min a b <=? a) = true /\ (Math.min a b <=? b) = true
  /\ (Math.min a b = a \/ Math.min a b = b).
Proof.
  intros Ha Hb. unfold Math.min.
  assert (Na : is_nan a = false) by (unfold is_number in Ha; destruct (is_nan a); trivial; discriminate).
  assert (Nb : is_nan b = false) by (unfold is_number in Hb; destruct (is_nan b); trivial; discriminate).
  rewrite Na, Nb. simpl.
  destruct (a <? b) eqn:E1.
  { auto 6 using ltb_leb, leb_refl. }
  destruct (b <? a) eqn:E2.
  { auto 6 using ltb_leb, leb_refl. }
  destruct (Math.is_negative_zero a);
    auto 6 using ltb_false_leb, leb_refl.
Qed.

(** [constrainValue] clamps a number into a range whose bounds are numbers
    in order. *)
Lemma constrainValue_contains (r : Range) (v : float) :
  is_number v = true -> (min r <=? max r) = true ->
  contains r (constrainValue r v) = true.
Proof.
  intros Hv Hr.
  assert (Hlo : is_number (min r) = true /\ is_number (max r) = true).
  { unfold is_number, is_nan. rewrite !negb_involutive, !FloatAxioms.eqb_spec.
    rewrite FloatAxioms.leb_spec in Hr. unfold SFleb in Hr. unfold SFeqb.
    destruct (Prim2SF (min r)) as [s1 | s1 | | s1 m1 e1],
             (Prim2SF (max r)) as [s2 | s2 | | s2 m2 e2];
      try discriminate; split;
      (rewrite SFcompare_refl; [reflexivity | discriminate]). }
  destruct Hlo as [Hlo Hhi].
  unfold contains, constrainValue.
  destruct (max_number v (min r) Hv Hlo) as (Hm & _ & Hlm).
  destruct (min_number (Math.max v (min r)) (max r) Hm Hhi) as (_ & _ & Hc & [E | E]);
    rewrite Hc, andb_true_r; rewrite E; trivial.
Qed.

End NumberFacts.

(* ================================================================= *)
(** ** A spring on its own: writes that settle at once, and [reset] *)

Module SingleSpringReset.
Import Spring SingleSpringFacts SingleSpringSteps.
Section Reset.

Variable assertions : bool.
Variable o : options.

#[local] Abbreviation self := (SingleSpring.self o).
#[local] Abbreviation state := SingleSpring.state.
#[local] Abbreviation set_ :=
  (Axon.set property_eq_dec assertions (fun _ _ => true) (SingleSpring.body o)).
#[local] Abbreviation wired := (wired o).
#[local] Abbreviation passes := (passes assertions).

Lemma same_inputs_get s s' :
  same_inputs s s' <-> forall p, is_input p = true -> get s' p = get s p.
Proof.
  unfold same_inputs. split.
  - intros (a & b & c & d & e) p Hp. destruct p; try discriminate; assumption.
  - intros H. repeat split; apply H; reflexivity.
Qed.

Lemma get_put p v s q :
  get (put p v s) q
  = if property_eq_dec p q
    then (if v =? get s p then get s p else v)
    else get s q.
Proof.
  unfold put. destruct (property_eq_dec p q) as [<- | n].
  - destruct (v =? get s p); [reflexivity | apply get_changed_same].
  - destruct (v =? get s p); [reflexivity | apply get_changed_other, n].
Qed.

Lemma get_changed p v (s : state) q :
  get (changed property_eq_dec p v s) q = if property_eq_dec p q then v else get s q.
Proof.
  destruct (property_eq_dec p q) as [<- | n];
    [apply get_changed_same | apply get_changed_other, n].
Qed.

Lemma same_inputs_changed_both p v s s' :
  same_inputs s s' ->
  same_inputs (changed property_eq_dec p v s) (changed property_eq_dec p v s').
Proof.
  rewrite !same_inputs_get. intros H q Hq. rewrite !get_changed.
  destruct (property_eq_dec p q); auto.
Qed.

Lemma same_inputs_put_both p v s s' :
  is_input p = true -> same_inputs s s' -> same_inputs (put p v s) (put p v s').
Proof.
  rewrite !same_inputs_get. intros Hp H q Hq. rewrite !get_put, (H p Hp).
  destruct (property_eq_dec p q); auto.
Qed.

Lemma same_inputs_sym s s' : same_inputs s s' -> same_inputs s' s.
Proof. rewrite !same_inputs_get. intros H p Hp. symmetry. auto. Qed.

(** *** The displacement *)

(** The assertions that a change of the displacement to [x'] meets. *)
Definition allows (s : state) (x' : float) : bool :=
  passes (0 <? get s equilibriumXProperty + x' - get s leftProperty)
  && passes (contains (self_displacementRange self) x').

(** A write of [x'] to the displacement settles at once: [x'] is the
    current displacement, or the assertions pass and the displacement
    observer computes the applied force that is already there. *)
Definition settlesX (x' : float) (s : state) : bool :=
  (x' =? get s displacementProperty)
  || (allows s x'
      && (forceOfDisplacement self (get s springConstantProperty) x'
          =? get s appliedForceProperty)).

Lemma settlesX_inputs x' s s' : same_inputs s s' -> settlesX x' s' = settlesX x' s.
Proof.
  unfold settlesX, allows. intros (-> & -> & -> & -> & ->). reflexivity.
Qed.

Lemma displacement_settles n x' s :
  wired s -> settlesX x' s = true ->
  exists s',
    set_ (3 + n) displacementProperty x' s = (Returned, s')
    /\ wired s' /\ same_inputs (put displacementProperty x' s) s'.
Proof.
  intros Hw H. change (3 + n)%nat with (S (S (S n))).
  unfold settlesX in H.
  destruct (x' =? get s displacementProperty) eqn:E.
  - rewrite set_same by trivial. exists s. unfold put. rewrite E.
    auto using same_inputs_refl.
  - simpl in H. apply andb_prop in H. destruct H as [H HS].
    apply andb_prop in H. destruct H as [HG HX].
    destruct (@set_displacement assertions o n x' s Hw E HG HX) as (s1 & Hw1 & H1 & Eq).
    rewrite Eq. clear Eq. unfold put. rewrite E.
    exists s1. split; [| auto].
    apply set_same.
    destruct H1 as (-> & _). rewrite get_changed_other by discriminate. exact HS.
Qed.

(** *** The applied force *)

Definition settlesF (v : float) (s : state) : bool :=
  (v =? get s appliedForceProperty)
  || (passes (contains (self_appliedForceRange self) v)
      && settlesX (v / get s springConstantProperty)
                  (changed property_eq_dec appliedForceProperty v s)).

(** The primary cells after a write of [v] to the applied force that
    settles at once. *)
Definition writeF (v : float) (s : state) : state :=
  if v =? get s appliedForceProperty then s
  else put displacementProperty (v / get s springConstantProperty)
           (changed property_eq_dec appliedForceProperty v s).

Lemma appliedForce_settles n v s :
  wired s -> settlesF v s = true ->
  exists s',
    set_ (4 + n) appliedForceProperty v s = (Returned, s')
    /\ wired s' /\ same_inputs (writeF v s) s'.
Proof.
  intros Hw H. change (4 + n)%nat with (S (S (S (S n)))).
  unfold settlesF in H. unfold writeF.
  destruct (v =? get s appliedForceProperty) eqn:E.
  - rewrite set_same by trivial. exists s. auto using same_inputs_refl.
  - simpl in H. apply andb_prop in H. destruct H as [HF HX].
    destruct (@set_appliedForce assertions o (S (S n)) v s Hw E HF) as (s1 & Hw1 & H1 & Eq).
    rewrite Eq. clear Eq.
    rewrite <- (settlesX_inputs _ H1) in HX.
    destruct (@displacement_settles n _ s1 Hw1 HX) as (s2 & E2 & Hw2 & H2).
    exists s2. split; [exact E2 |]. split; [exact Hw2 |].
    eapply same_inputs_trans; [| exact H2].
    apply same_inputs_put_both; trivial.
Qed.

(** *** The spring constant of a force-driven spring *)

Definition settlesK (v : float) (s : state) : bool :=
  (v =? get s springConstantProperty)
  || (passes (contains (self_springConstantRange self) v)
      && settlesX (get s appliedForceProperty / v)
                  (changed property_eq_dec springConstantProperty v s)).

Definition writeK (v : float) (s : state) : state :=
  if v =? get s springConstantProperty then s
  else put displacementProperty (get s appliedForceProperty / v)
           (changed property_eq_dec springConstantProperty v s).

Lemma springConstant_settles n v s :
  wired s -> forceDriven self = true -> settlesK v s = true ->
  exists s',
    set_ (4 + n) springConstantProperty v s = (Returned, s')
    /\ wired s' /\ same_inputs (writeK v s) s'.
Proof.
  intros Hw Hfd H. change (4 + n)%nat with (S (S (S (S n)))).
  unfold settlesK in H. unfold writeK.
  destruct (v =? get s springConstantProperty) eqn:E.
  - rewrite set_same by trivial. exists s. auto using same_inputs_refl.
  - simpl in H. apply andb_prop in H. destruct H as [HK HX].
    destruct (@set_springConstant assertions o (S (S n)) v s Hw E HK)
      as (s1 & Hw1 & H1 & Eq).
    rewrite Eq, Hfd. clear Eq.
    rewrite <- (settlesX_inputs _ H1) in HX.
    destruct (@displacement_settles n _ s1 Hw1 HX) as (s2 & E2 & Hw2 & H2).
    exists s2. split; [exact E2 |]. split; [exact Hw2 |].
    eapply same_inputs_trans; [| exact H2].
    apply same_inputs_put_both; trivial.
Qed.

(** *** The left end *)

Ltac round :=
  cbn [table notify exec]; unfold bind;
  cbn [SingleSpring.body Spring.body exec]; unfold bind.

(** A new [equilibriumX]: [right] and its range follow. *)
Lemma set_equilibriumX n v s :
  wired s ->
  (v =? get s equilibriumXProperty) = false ->
  passes (0 <? v + get s displacementProperty - get s leftProperty) = true ->
  exists s',
    set_ (S (S (S n))) equilibriumXProperty v s = (Returned, s')
    /\ wired s' /\ same_inputs (changed property_eq_dec equilibriumXProperty v s) s'.
Proof.
  intros Hw E Ha. rewrite set_changed by trivial.
  set (s0 := changed property_eq_dec equilibriumXProperty v s).
  assert (Hw0 : wired s0) by exact Hw.
  assert (Ha0 : passes (0 <? get s0 equilibriumXProperty + get s0 displacementProperty
                             - get s0 leftProperty) = true).
  { unfold s0. rewrite get_changed_same, !get_changed_other by discriminate. exact Ha. }
  round. rewrite (passes_true _ _ Ha0).
  destruct (@set_right assertions o n
              (get s0 equilibriumXProperty + get s0 displacementProperty) s0 Hw0)
    as (s1 & -> & Hw1 & H1).
  destruct (forceDriven self); cbn [exec]; unfold bind;
    repeat (rewrite set_leaf by (trivial; repeat apply wired_put; exact Hw1));
    (eexists; split; [reflexivity |]; split; [repeat apply wired_put; exact Hw1 |]);
    repeat (eapply same_inputs_trans; [| apply same_inputs_put; reflexivity]);
    exact H1.
Qed.

Definition settlesLeft (v : float) (s : state) : bool :=
  (v =? get s leftProperty)
  || (v + self_equilibriumLength self =? get s equilibriumXProperty)
  || passes (0 <? v + self_equilibriumLength self + get s displacementProperty - v).

Definition writeLeft (v : float) (s : state) : state :=
  if v =? get s leftProperty then s
  else put equilibriumXProperty (v + self_equilibriumLength self)
           (changed property_eq_dec leftProperty v s).

Lemma left_settles n v s :
  wired s -> settlesLeft v s = true ->
  exists s',
    set_ (4 + n) leftProperty v s = (Returned, s')
    /\ wired s' /\ same_inputs (writeLeft v s) s'.
Proof.
  intros Hw H. change (4 + n)%nat with (S (S (S (S n)))).
  unfold settlesLeft in H. unfold writeLeft.
  destruct (v =? get s leftProperty) eqn:E.
  { rewrite set_same by trivial. exists s. auto using same_inputs_refl. }
  simpl in H. rewrite set_changed by trivial.
  set (s0 := changed property_eq_dec leftProperty v s).
  assert (Hw0 : wired s0) by exact Hw.
  assert (L0 : get s0 leftProperty = v) by apply get_changed_same.
  assert (Q0 : get s0 equilibriumXProperty = get s equilibriumXProperty)
    by (apply get_changed_other; discriminate).
  assert (X0 : get s0 displacementProperty = get s displacementProperty)
    by (apply get_changed_other; discriminate).
  round. rewrite L0. unfold put. rewrite Q0.
  destruct (v + self_equilibriumLength self =? get s equilibriumXProperty) eqn:Eq.
  - rewrite set_same by (rewrite Q0; exact Eq).
    rewrite set_leaf by trivial.
    eexists. split; [reflexivity |]. split; [apply wired_put; exact Hw0 |].
    apply same_inputs_put. reflexivity.
  - simpl in H.
    destruct (@set_equilibriumX n (v + self_equilibriumLength self) s0 Hw0)
      as (s1 & -> & Hw1 & H1).
    { rewrite Q0. exact Eq. }
    { rewrite X0, L0. exact H. }
    rewrite set_leaf by trivial.
    eexists. split; [reflexivity |]. split; [apply wired_put; exact Hw1 |].
    eapply same_inputs_trans; [exact H1 | apply same_inputs_put; reflexivity].
Qed.

(** *** [reset] of a force-driven spring *)

Lemma settlesK_inputs v s s' : same_inputs s s' -> settlesK v s' = settlesK v s.
Proof.
  intros H. unfold settlesK.
  rewrite (settlesX_inputs _ (same_inputs_changed_both springConstantProperty v H)).
  destruct H as (-> & -> & _). reflexivity.
Qed.

Lemma settlesLeft_inputs v s s' : same_inputs s s' -> settlesLeft v s' = settlesLeft v s.
Proof. unfold settlesLeft. intros (_ & _ & -> & -> & ->). reflexivity. Qed.

Lemma writeK_inputs v s s' :
  same_inputs s s' -> same_inputs (writeK v s) (writeK v s').
Proof.
  intros H. unfold writeK.
  destruct H as (HF & HK & HX) eqn:EH. rewrite HF, HK.
  destruct (v =? get s springConstantProperty); trivial.
  apply same_inputs_put_both; [reflexivity |].
  apply same_inputs_changed_both; trivial.
Qed.

Lemma writeF_appliedForce v s : holds (get (writeF v s) appliedForceProperty) v.
Proof.
  unfold writeF, holds. destruct (v =? get s appliedForceProperty) eqn:E; auto.
  left. rewrite get_put. simpl. apply get_changed_same.
Qed.

Lemma writeK_springConstant v s : holds (get (writeK v s) springConstantProperty) v.
Proof.
  unfold writeK, holds. destruct (v =? get s springConstantProperty) eqn:E; auto.
  left. rewrite get_put. simpl. apply get_changed_same.
Qed.

Lemma writeK_appliedForce v s :
  get (writeK v s) appliedForceProperty = get s appliedForceProperty.
Proof.
  unfold writeK. destruct (v =? get s springConstantProperty); trivial.
  rewrite get_put. simpl. apply get_changed_other. discriminate.
Qed.

Lemma put_displacement v s : holds (get (put displacementProperty v s) displacementProperty) v.
Proof.
  rewrite get_put. unfold holds.
  destruct (property_eq_dec displacementProperty displacementProperty); [| congruence].
  destruct (v =? get s displacementProperty) eqn:E; auto.
Qed.

Lemma writeLeft_left v s : holds (get (writeLeft v s) leftProperty) v.
Proof.
  unfold writeLeft, holds. destruct (v =? get s leftProperty) eqn:E; auto.
  left. rewrite get_put. simpl. apply get_changed_same.
Qed.

Lemma writeLeft_others v s :
  get (writeLeft v s) appliedForceProperty = get s appliedForceProperty
  /\ get (writeLeft v s) springConstantProperty = get s springConstantProperty
  /\ get (writeLeft v s) displacementProperty = get s displacementProperty.
Proof.
  unfold writeLeft. destruct (v =? get s leftProperty); auto.
  rewrite !get_put. simpl. rewrite ?get_changed_other by discriminate. auto.
Qed.

(** [reset] settles when each of its four writes does, in the state that
    the writes before it leave. *)
Definition resets (s : state) : bool :=
  let s1 := writeF (initialValue s appliedForceProperty) s in
  let s2 := writeK (initialValue s springConstantProperty) s1 in
  let s3 := put displacementProperty (initialValue s displacementProperty) s2 in
  settlesF (initialValue s appliedForceProperty) s
  && settlesK (initialValue s springConstantProperty) s1
  && settlesX (initialValue s displacementProperty) s2
  && settlesLeft (initialValue s leftProperty) s3.

(** Every primary cell holds the value it was created with. *)
Definition restored (s : state) : Prop :=
  holds (get s appliedForceProperty) (initialValue s appliedForceProperty)
  /\ holds (get s springConstantProperty) (initialValue s springConstantProperty)
  /\ holds (get s displacementProperty) (initialValue s displacementProperty)
  /\ holds (get s leftProperty) (initialValue s leftProperty).

Lemma set_keeps_initialValue n p v s s' :
  set_ n p v s = (Returned, s') -> initialValue s' = initialValue s.
Proof.
  intros E. change s' with (snd (Returned, s')). rewrite <- E.
  apply InitialValueFacts.set_initialValue.
Qed.

Lemma reset_restores n s :
  wired s -> forceDriven self = true -> resets s = true ->
  exists s',
    SingleSpring.reset assertions o (4 + n) s = (Returned, s')
    /\ wired s' /\ initialValue s' = initialValue s /\ restored s'.
Proof.
  intros Hw Hfd H. unfold resets in H.
  apply andb_prop in H. destruct H as [H HL].
  apply andb_prop in H. destruct H as [H HX].
  apply andb_prop in H. destruct H as [HF HK].
  unfold SingleSpring.reset, Spring.reset, Axon.reset. cbn [steps]. unfold bind.
  destruct (@appliedForce_settles n _ s Hw HF) as (s1 & E1 & Hw1 & H1).
  pose proof E1 as I1. apply set_keeps_initialValue in I1.
  rewrite E1, I1.
  rewrite <- (settlesK_inputs _ H1) in HK.
  destruct (@springConstant_settles n _ s1 Hw1 Hfd HK) as (s2 & E2 & Hw2 & H2).
  pose proof E2 as I2. apply set_keeps_initialValue in I2. rewrite I1 in I2.
  rewrite E2, I2.
  pose proof (same_inputs_trans (writeK_inputs _ H1) H2) as H2'.
  rewrite <- (settlesX_inputs _ H2') in HX.
  change (4 + n)%nat with (3 + S n)%nat.
  destruct (@displacement_settles (S n) _ s2 Hw2 HX) as (s3 & E3 & Hw3 & H3).
  pose proof E3 as I3. apply set_keeps_initialValue in I3. rewrite I2 in I3.
  rewrite E3, I3.
  pose proof (same_inputs_trans
                (same_inputs_put_both displacementProperty _ eq_refl H2') H3) as H3'.
  rewrite <- (settlesLeft_inputs _ H3') in HL.
  change (3 + S n)%nat with (4 + n)%nat.
  destruct (@left_settles n _ s3 Hw3 HL) as (s4 & E4 & Hw4 & H4).
  pose proof E4 as I4. apply set_keeps_initialValue in I4. rewrite I3 in I4.
  rewrite E4. exists s4. split; [reflexivity |]. split; [exact Hw4 |].
  split; [exact I4 |].
  unfold restored. rewrite I4.
  destruct H4 as (F4 & K4 & X4 & L4 & _).
  destruct (writeLeft_others (initialValue s leftProperty) s3) as (F4' & K4' & X4').
  destruct H3 as (F3 & K3 & X3 & _).
  destruct H2 as (F2 & K2 & _).
  destruct H1 as (F1 & _).
  rewrite F4, K4, X4, L4, F4', K4', X4', F3, K3, X3.
  rewrite !get_put. simpl.
  rewrite F2, K2, writeK_appliedForce, F1.
  split; [apply writeF_appliedForce |].
  split; [apply writeK_springConstant |].
  split; [| apply writeLeft_left].
  unfold holds.
  destruct (initialValue s displacementProperty =? get s2 displacementProperty) eqn:E;
    auto.
Qed.

End Reset.
End SingleSpringReset.

(* ================================================================= *)
(** ** Links between cells, in every world *)

Module LinkFacts.
Section Facts.

Variables cell listener X : Type.
Variable cell_eq_dec : forall a b : cell, {a = b} + {a <> b}.
Variable assertions : bool.
Variable isValidValue : cell -> float -> bool.
Variable body : listener -> float -> action cell listener X.

#[local] Abbreviation store := (store cell listener X).
#[local] Abbreviation result := (result cell listener X).
#[local] Abbreviation set_ := (set cell_eq_dec assertions isValidValue body).

(** The cells that an action may write. *)
Fixpoint targets (a : action cell listener X) : list cell :=
  match a with
  | Skip | Throw _ => []
  | SetCell c _ k => c :: targets k
  | Assert _ _ k | Assign _ k => targets k
  | IfThen _ a1 k => targets a1 ++ targets k
  end.

(** The listeners of every cell, as the constructor left them. *)
Variable table : cell -> list listener.

Definition wired (s : store) : Prop := forall c, observers s c = table c.

Lemma wired_preserved (s s' : store) :
  observers s' = observers s -> wired s -> wired s'.
Proof. intros E H c. rewrite E. apply H. Qed.

Lemma changed_same c v (s : store) : get (changed cell_eq_dec c v s) c = v.
Proof. unfold get, changed; simpl. apply AxonFacts.update_same. Qed.

Lemma changed_other c c' v (s : store) :
  c <> c' -> get (changed cell_eq_dec c v s) c' = get s c'.
Proof. intros H. unfold get, changed; simpl. apply AxonFacts.update_other, H. Qed.

(** *** A link that copies the notified value

    The listener [link] is the last listener of the cell [A] and copies the
    value it is notified of to the cell [B]; the listeners of [A] before it
    write cells that nobody observes; no other listener writes [B]. Then [B]
    holds the value of [A] whenever a write to a cell other than [B]
    returns; a write of [v] to [B] itself either brings [B] back to [A] or
    leaves [v] in [B] and [A] as it was. *)
Section Copy.

Variables A B : cell.
Variable link : listener.
Variable before : list listener.

Hypothesis A_B : A <> B.
Hypothesis table_A : table A = before ++ [link].
Hypothesis body_link : forall v, body link v = SetCell B (fun _ => v) Skip.
Hypothesis only_link_writes_B :
  forall c l v, c <> A -> In l (table c) -> ~ In B (targets (body l v)).
Hypothesis before_inert :
  forall l v c, In l before -> In c (targets (body l v)) ->
                table c = [] /\ c <> A /\ c <> B.

Definition copied (s : store) : Prop := holds (get s B) (get s A).

Definition untouched (s s' : store) : Prop :=
  get s' A = get s A /\ get s' B = get s B.

Definition copied_or_untouched (s s' : store) : Prop :=
  copied s' \/ untouched s s'.

Definition copy_rule (c : cell) (v : float) (s : store) (r : result) : Prop :=
  wired s -> fst r = Returned ->
  if cell_eq_dec c B
  then (get s A = v -> copied (snd r))
       /\ (copied (snd r) \/ get (snd r) A = get s A /\ holds (get (snd r) B) v)
  else copied_or_untouched s (snd r)
       /\ (table c = [] -> c <> A -> untouched s (snd r)).

Lemma untouched_refl s : untouched s s.
Proof. split; reflexivity. Qed.

Lemma untouched_trans s1 s2 s3 : untouched s1 s2 -> untouched s2 s3 -> untouched s1 s3.
Proof. unfold untouched. intros [a b] [c d]. split; congruence. Qed.

Lemma copied_untouched s s' : untouched s s' -> copied s -> copied s'.
Proof. unfold untouched, copied. intros [-> ->]. trivial. Qed.

Lemma cou_trans s1 s2 s3 :
  copied_or_untouched s1 s2 -> copied_or_untouched s2 s3 -> copied_or_untouched s1 s3.
Proof.
  unfold copied_or_untouched. intros [H1 | H1] [H2 | H2]; auto.
  - left. eapply copied_untouched; eassumption.
  - right. eapply untouched_trans; eassumption.
Qed.

Lemma cou_refl s : copied_or_untouched s s.
Proof. right. apply untouched_refl. Qed.

Section Round.
Variable set' : cell -> float -> store -> result.
Hypothesis set'_meets : AxonFacts.meets copy_rule set'.

(** An action that does not write [B]. *)
Lemma exec_cou a :
  forall s, wired s -> ~ In B (targets a) ->
    fst (exec assertions set' a s) = Returned ->
    copied_or_untouched s (snd (exec assertions set' a s))
    /\ wired (snd (exec assertions set' a s)).
Proof.
  induction a as [| c e k IHk | b msg k IHk | msg | x k IHk | b a1 IH1 k IHk];
    intros s Hw HB; simpl; unfold bind.
  - auto using cou_refl.
  - simpl in HB. destruct (set'_meets c (e s) s) as [HR Ho].
    destruct (set' c (e s) s) as [[| err |] s1]; simpl in *; try discriminate.
    intros Hr. unfold copy_rule in HR. specialize (HR Hw eq_refl). simpl in HR.
    destruct (cell_eq_dec c B) as [-> | _]; [tauto |].
    destruct HR as [HR _].
    destruct (IHk s1) as [H1 H2]; eauto using wired_preserved, cou_trans.
  - destruct (assertions && negb (b s)); simpl; try discriminate. auto.
  - discriminate.
  - intros Hr. simpl in HB. destruct (IHk (assigned x s)) as [H1 H2]; auto.
  - simpl in HB. destruct (b s); [| apply IHk; auto; intros H; apply HB, in_or_app; auto].
    intros Hr.
    destruct (exec assertions set' a1 s) as [[| err |] s1] eqn:E1;
      simpl in *; try discriminate.
    destruct (IH1 s) as [H1 H2]; auto; try (intros H; apply HB, in_or_app; auto).
    { rewrite E1. reflexivity. }
    rewrite E1 in H1, H2. simpl in H1, H2.
    destruct (IHk s1) as [H3 H4]; auto; try (intros H; apply HB, in_or_app; auto).
    eauto using cou_trans.
Qed.

Lemma notify_cou ls v :
  forall s, wired s ->
    (forall l, In l ls -> ~ In B (targets (body l v))) ->
    fst (notify assertions body set' ls v s) = Returned ->
    copied_or_untouched s (snd (notify assertions body set' ls v s)).
Proof.
  induction ls as [| l ls IH]; intros s Hw HB; simpl; unfold bind.
  - auto using cou_refl.
  - destruct (exec assertions set' (body l v) s) as [[| err |] s1] eqn:E1;
      simpl; try discriminate.
    intros Hr.
    destruct (@exec_cou (body l v) s) as [H1 H2]; auto.
    { apply HB. left. reflexivity. }
    { rewrite E1. reflexivity. }
    rewrite E1 in H1, H2. simpl in H1, H2.
    eapply cou_trans; [exact H1 |]. apply IH; auto.
    intros l' Hl'. apply HB. right. exact Hl'.
Qed.

(** An action that only writes cells nobody observes, other than [A], [B]. *)
Lemma exec_inert a :
  forall s, wired s ->
    (forall c, In c (targets a) -> table c = [] /\ c <> A /\ c <> B) ->
    fst (exec assertions set' a s) = Returned ->
    untouched s (snd (exec assertions set' a s))
    /\ wired (snd (exec assertions set' a s)).
Proof.
  induction a as [| c e k IHk | b msg k IHk | msg | x k IHk | b a1 IH1 k IHk];
    intros s Hw HT; simpl; unfold bind.
  - auto using untouched_refl.
  - simpl in HT. destruct (set'_meets c (e s) s) as [HR Ho].
    destruct (set' c (e s) s) as [[| err |] s1]; simpl in *; try discriminate.
    intros Hr. unfold copy_rule in HR. specialize (HR Hw eq_refl). simpl in HR.
    destruct (HT c) as (Tc & cA & cB); auto.
    destruct (cell_eq_dec c B) as [-> | _]; [tauto |].
    destruct HR as [_ HR]. specialize (HR Tc cA).
    destruct (IHk s1) as [H1 H2]; eauto using wired_preserved, untouched_trans.
  - destruct (assertions && negb (b s)); simpl; try discriminate. auto.
  - discriminate.
  - intros Hr. simpl in HT. destruct (IHk (assigned x s)) as [H1 H2]; auto.
  - simpl in HT.
    destruct (b s); [| apply IHk; auto; intros c Hc; apply HT, in_or_app; auto].
    intros Hr.
    destruct (exec assertions set' a1 s) as [[| err |] s1] eqn:E1;
      simpl in *; try discriminate.
    destruct (IH1 s) as [H1 H2]; auto; try (intros c Hc; apply HT, in_or_app; auto).
    { rewrite E1. reflexivity. }
    rewrite E1 in H1, H2. simpl in H1, H2.
    destruct (IHk s1) as [H3 H4]; auto; try (intros c Hc; apply HT, in_or_app; auto).
    eauto using untouched_trans.
Qed.

Lemma notify_link ls v :
  forall s, wired s -> get s A = v ->
    (forall l, In l ls -> In l before) ->
    fst (notify assertions body set' (ls ++ [link]) v s) = Returned ->
    copied (snd (notify assertions body set' (ls ++ [link]) v s)).
Proof.
  induction ls as [| l ls IH]; intros s Hw HA Hin; simpl; unfold bind.
  - rewrite body_link. simpl. unfold bind.
    destruct (set'_meets B v s) as [HR Ho].
    destruct (set' B v s) as [[| err |] s1]; simpl in *; try discriminate.
    intros _. unfold copy_rule in HR. specialize (HR Hw eq_refl). simpl in HR.
    destruct (cell_eq_dec B B) as [_ | n]; [| congruence].
    apply HR. exact HA.
  - destruct (exec assertions set' (body l v) s) as [[| err |] s1] eqn:E1;
      simpl; try discriminate.
    intros Hr.
    destruct (@exec_inert (body l v) s) as [H1 H2]; auto.
    { intros c Hc. eapply before_inert; [apply Hin; left; reflexivity | exact Hc]. }
    { rewrite E1. reflexivity. }
    rewrite E1 in H1, H2. simpl in H1, H2.
    apply IH; auto.
    + destruct H1 as [-> _]. exact HA.
    + intros l' Hl'. apply Hin. right. exact Hl'.
Qed.

End Round.

Theorem copy_rule_set fuel : AxonFacts.meets copy_rule (set_ fuel).
Proof.
  apply AxonFacts.set_rule.
  - intros c v s _ H. discriminate.
  - intros c v s _ _ H. discriminate.
  - intros c v s _ Hc Hw _. simpl.
    destruct (cell_eq_dec c B) as [-> | n].
    + split.
      * intros <-. right. exact Hc.
      * right. split; trivial. right. exact Hc.
    + split; [apply cou_refl | intros; apply untouched_refl].
  - intros set' Hm c v s _ Hc Hw Hr.
    assert (Hw1 : wired (changed cell_eq_dec c v s)) by exact Hw.
    destruct (cell_eq_dec c B) as [-> | n].
    + (* the target *)
      assert (H : copied_or_untouched (changed cell_eq_dec B v s)
                    (snd (notify assertions body set' (observers s B) v
                                 (changed cell_eq_dec B v s)))).
      { apply notify_cou; trivial.
        intros l Hl. apply only_link_writes_B with (c := B); auto.
        rewrite <- (Hw B). exact Hl. }
      split.
      * intros HA. destruct H as [H | H]; trivial.
        eapply copied_untouched; [exact H |].
        left. rewrite changed_same, changed_other by auto. auto.
      * destruct H as [H | [H1 H2]]; auto.
        right. rewrite H1, H2, changed_same, changed_other by auto.
        split; trivial. left. reflexivity.
    + destruct (cell_eq_dec c A) as [-> | n'].
      * (* the source *)
        split.
        -- left. rewrite (Hw A), table_A in Hr |- *.
           apply notify_link; trivial.
           apply changed_same.
        -- intros E. rewrite table_A in E. destruct before; discriminate.
      * split.
        -- apply cou_trans with (s2 := changed cell_eq_dec c v s).
           { right. split; apply changed_other; trivial. }
           apply notify_cou; trivial.
           intros l Hl. apply only_link_writes_B with (c := c); auto.
           rewrite <- (Hw c). exact Hl.
        -- intros E _. rewrite (Hw c), E in Hr |- *. simpl.
           split; apply changed_other; trivial.
Qed.

End Copy.

(** *** A link that recomputes a cell from others

    The listener [link] is the last listener of every cell of [sources] and
    writes to [B] an expression [g] of the cells of [sources]; no listener
    writes a cell of [sources], and no other listener writes [B]. Then [B]
    holds [g] whenever a write to a cell other than [B] returns. *)
Section Recompute.

Variable sources : list cell.
Variable B : cell.
Variable link : listener.
Variable g : store -> float.

Hypothesis B_not_source : ~ In B sources.
Hypothesis g_sources :
  forall s s' : store, (forall a, In a sources -> get s' a = get s a) -> g s' = g s.
Hypothesis body_link : forall v, body link v = SetCell B g Skip.
Hypothesis table_sources :
  forall a, In a sources ->
    exists before,
      table a = before ++ [link]
      /\ forall l v c, In l before -> In c (targets (body l v)) ->
                       c <> B /\ ~ In c sources.
Hypothesis nobody_else_writes :
  forall c l v c', ~ In c sources -> In l (table c) ->
    In c' (targets (body l v)) -> c' <> B /\ ~ In c' sources.

Definition recomputed (s : store) : Prop := holds (get s B) (g s).

Definition unmoved (s s' : store) : Prop :=
  get s' B = get s B /\ forall a, In a sources -> get s' a = get s a.

Definition recomputed_or_unmoved (s s' : store) : Prop :=
  recomputed s' \/ unmoved s s'.

Definition recompute_rule (c : cell) (v : float) (s : store) (r : result) : Prop :=
  wired s -> fst r = Returned ->
  if cell_eq_dec c B
  then g s = v -> recomputed (snd r)
  else if in_dec cell_eq_dec c sources
       then recomputed (snd r) \/ snd r = s
       else recomputed_or_unmoved s (snd r).

Lemma unmoved_refl s : unmoved s s.
Proof. split; auto. Qed.

Lemma unmoved_trans s1 s2 s3 : unmoved s1 s2 -> unmoved s2 s3 -> unmoved s1 s3.
Proof.
  unfold unmoved. intros [a b] [c d]. split; [congruence |].
  intros x Hx. rewrite d, b; auto.
Qed.

Lemma recomputed_unmoved s s' : unmoved s s' -> recomputed s -> recomputed s'.
Proof.
  unfold unmoved, recomputed. intros [E H]. rewrite E, (g_sources s s' H). trivial.
Qed.

Lemma rou_trans s1 s2 s3 :
  recomputed_or_unmoved s1 s2 -> recomputed_or_unmoved s2 s3 ->
  recomputed_or_unmoved s1 s3.
Proof.
  unfold recomputed_or_unmoved. intros [H1 | H1] [H2 | H2]; auto.
  - left. eapply recomputed_unmoved; eassumption.
  - right. eapply unmoved_trans; eassumption.
Qed.

Lemma rou_refl s : recomputed_or_unmoved s s.
Proof. right. apply unmoved_refl. Qed.

Lemma unmoved_changed c v s :
  c <> B -> ~ In c sources -> unmoved s (changed cell_eq_dec c v s).
Proof.
  intros H1 H2. split.
  - apply changed_other. exact H1.
  - intros a Ha. apply changed_other. intros ->. tauto.
Qed.

Section Round.
Variable set' : cell -> float -> store -> result.
Hypothesis set'_meets : AxonFacts.meets recompute_rule set'.

(** An action that writes neither [B] nor a source. *)
Lemma exec_rou a :
  forall s, wired s ->
    (forall c, In c (targets a) -> c <> B /\ ~ In c sources) ->
    fst (exec assertions set' a s) = Returned ->
    recomputed_or_unmoved s (snd (exec assertions set' a s))
    /\ wired (snd (exec assertions set' a s)).
Proof.
  induction a as [| c e k IHk | b msg k IHk | msg | x k IHk | b a1 IH1 k IHk];
    intros s Hw HT; simpl; unfold bind.
  - auto using rou_refl.
  - simpl in HT. destruct (set'_meets c (e s) s) as [HR Ho].
    destruct (set' c (e s) s) as [[| err |] s1]; simpl in *; try discriminate.
    intros Hr. unfold recompute_rule in HR. specialize (HR Hw eq_refl). simpl in HR.
    destruct (HT c) as (cB & cS); auto.
    destruct (cell_eq_dec c B) as [-> | _]; [tauto |].
    destruct (in_dec cell_eq_dec c sources) as [i | _]; [tauto |].
    destruct (IHk s1) as [H1 H2]; eauto using wired_preserved, rou_trans.
  - destruct (assertions && negb (b s)); simpl; try discriminate. auto.
  - discriminate.
  - intros Hr. simpl in HT. destruct (IHk (assigned x s)) as [H1 H2]; auto.
  - simpl in HT.
    destruct (b s); [| apply IHk; auto; intros c Hc; apply HT, in_or_app; auto].
    intros Hr.
    destruct (exec assertions set' a1 s) as [[| err |] s1] eqn:E1;
      simpl in *; try discriminate.
    destruct (IH1 s) as [H1 H2]; auto; try (intros c Hc; apply HT, in_or_app; auto).
    { rewrite E1. reflexivity. }
    rewrite E1 in H1, H2. simpl in H1, H2.
    destruct (IHk s1) as [H3 H4]; auto; try (intros c Hc; apply HT, in_or_app; auto).
    eauto using rou_trans.
Qed.

Lemma notify_rou ls v :
  forall s, wired s ->
    (forall l, In l ls ->
       forall c, In c (targets (body l v)) -> c <> B /\ ~ In c sources) ->
    fst (notify assertions body set' ls v s) = Returned ->
    recomputed_or_unmoved s (snd (notify assertions body set' ls v s))
    /\ wired (snd (notify assertions body set' ls v s)).
Proof.
  induction ls as [| l ls IH]; intros s Hw HT; simpl; unfold bind.
  - auto using rou_refl.
  - destruct (exec assertions set' (body l v) s) as [[| err |] s1] eqn:E1;
      simpl; try discriminate.
    intros Hr.
    destruct (@exec_rou (body l v) s) as [H1 H2]; auto.
    { apply HT. left. reflexivity. }
    { rewrite E1. reflexivity. }
    rewrite E1 in H1, H2. simpl in H1, H2.
    destruct (IH s1) as [H3 H4]; auto.
    { intros l' Hl'. apply HT. right. exact Hl'. }
    eauto using rou_trans.
Qed.

Lemma notify_then_link ls v :
  forall s, wired s ->
    (forall l, In l ls ->
       forall c, In c (targets (body l v)) -> c <> B /\ ~ In c sources) ->
    fst (notify assertions body set' (ls ++ [link]) v s) = Returned ->
    recomputed (snd (notify assertions body set' (ls ++ [link]) v s)).
Proof.
  induction ls as [| l ls IH]; intros s Hw HT; simpl; unfold bind.
  - rewrite body_link. simpl. unfold bind.
    destruct (set'_meets B (g s) s) as [HR Ho].
    destruct (set' B (g s) s) as [[| err |] s1]; simpl in *; try discriminate.
    intros _. unfold recompute_rule in HR. specialize (HR Hw eq_refl). simpl in HR.
    destruct (cell_eq_dec B B) as [_ | n]; [| congruence].
    apply HR. reflexivity.
  - destruct (exec assertions set' (body l v) s) as [[| err |] s1] eqn:E1;
      simpl; try discriminate.
    intros Hr.
    destruct (@exec_rou (body l v) s) as [H1 H2]; auto.
    { apply HT. left. reflexivity. }
    { rewrite E1. reflexivity. }
    rewrite E1 in H1, H2. simpl in H1, H2.
    apply IH; auto.
    intros l' Hl'. apply HT. right. exact Hl'.
Qed.

End Round.

Theorem recompute_rule_set fuel : AxonFacts.meets recompute_rule (set_ fuel).
Proof.
  apply AxonFacts.set_rule.
  - intros c v s _ H. discriminate.
  - intros c v s _ _ H. discriminate.
  - intros c v s _ Hc Hw _. simpl.
    destruct (cell_eq_dec c B) as [-> | n].
    + intros <-. right. exact Hc.
    + destruct (in_dec cell_eq_dec c sources); [auto | apply rou_refl].
  - intros set' Hm c v s _ Hc Hw Hr.
    assert (Hw1 : wired (changed cell_eq_dec c v s)) by exact Hw.
    destruct (cell_eq_dec c B) as [-> | n].
    + (* the target *)
      intros Hg.
      destruct (@notify_rou set' Hm (observers s B) v (changed cell_eq_dec B v s))
        as [[H | H] _]; trivial.
      * intros l Hl c Hc'. rewrite (Hw B) in Hl. eauto.
      * eapply recomputed_unmoved; [exact H |].
        unfold recomputed. left. rewrite changed_same.
        rewrite <- Hg. symmetry. apply g_sources.
        intros a Ha. apply changed_other. intros <-. tauto.
    + destruct (in_dec cell_eq_dec c sources) as [i | i].
      * (* a source *)
        left. destruct (table_sources c i) as (before & E & Hb).
        rewrite (Hw c), E in Hr |- *.
        apply notify_then_link; eauto.
      * apply rou_trans with (s2 := changed cell_eq_dec c v s).
        { right. apply unmoved_changed; trivial. }
        apply notify_rou; trivial.
        intros l Hl c' Hc'. rewrite (Hw c) in Hl. eauto.
Qed.

End Recompute.

(** *** What every step of a propagation preserves

    A relation between stores that is reflexive and transitive, that holds
    when a cell takes a value, and that every listener body preserves when
    the nested writes do, holds between the store before and after any
    [set], however it ends. *)
Section Preorder.

Variable P : store -> store -> Prop.
Hypothesis P_refl : forall s, P s s.
Hypothesis P_trans : forall s1 s2 s3, P s1 s2 -> P s2 s3 -> P s1 s3.
Hypothesis P_changed : forall c v s, P s (changed cell_eq_dec c v s).

Fixpoint assigns_nothing (a : action cell listener X) : bool :=
  match a with
  | Skip | Throw _ => true
  | SetCell _ _ k | Assert _ _ k => assigns_nothing k
  | Assign _ _ => false
  | IfThen _ a1 k => assigns_nothing a1 && assigns_nothing k
  end.

Lemma exec_assigns_nothing set' a :
  (forall c v s, P s (snd (set' c v s))) ->
  assigns_nothing a = true ->
  forall s, P s (snd (exec assertions set' a s)).
Proof.
  intros Hs.
  induction a as [| c e k IHk | b msg k IHk | msg | x k IHk | b a1 IH1 k IHk];
    simpl; intros Ha s; unfold bind; auto; try discriminate.
  - specialize (Hs c (e s) s).
    destruct (set' c (e s) s) as [[| err |] s1]; simpl in *; eauto.
  - destruct (assertions && negb (b s)); simpl; auto.
  - apply andb_prop in Ha. destruct Ha as [Ha1 Ha2].
    destruct (b s); auto.
    specialize (IH1 Ha1 s).
    destruct (exec assertions set' a1 s) as [[| err |] s1]; simpl in *; eauto.
Qed.

Hypothesis P_body :
  forall set', (forall c v s, P s (snd (set' c v s))) ->
    forall l v s, P s (snd (exec assertions set' (body l v) s)).

Lemma notify_preorder set' :
  (forall c v s, P s (snd (set' c v s))) ->
  forall ls v s, P s (snd (notify assertions body set' ls v s)).
Proof.
  intros Hs ls v. induction ls as [| l ls IH]; intros s; simpl; unfold bind; auto.
  pose proof (@P_body set' Hs l v s) as H.
  destruct (exec assertions set' (body l v) s) as [[| err |] s1]; simpl in *; eauto.
Qed.

Theorem set_preorder fuel : forall c v s, P s (snd (set_ fuel c v s)).
Proof.
  induction fuel as [| n IH]; intros c v s; simpl; auto.
  destruct (negb (isValidValue c v)); simpl; auto.
  destruct (v =? get s c); simpl; auto.
  eapply P_trans; [apply P_changed |]. apply notify_preorder. exact IH.
Qed.

End Preorder.

(** *** A cell that no listener writes

    The cell [A] is the target of no listener of the world. Then a write to
    another cell leaves [A] as it was, however the write ends, and a write
    to [A] that changes it leaves the written value in [A], however the
    notification of its listeners ends. *)
Section Anchor.

Variable A : cell.
Hypothesis nobody_writes_A :
  forall c l v, In l (table c) -> ~ In A (targets (body l v)).

Definition keeps (set' : cell -> float -> store -> result) : Prop :=
  forall c v s, wired s -> c <> A ->
    get (snd (set' c v s)) A = get s A
    /\ observers (snd (set' c v s)) = observers s.

Lemma exec_keeps set' a :
  keeps set' -> ~ In A (targets a) ->
  forall s, wired s ->
    get (snd (exec assertions set' a s)) A = get s A
    /\ observers (snd (exec assertions set' a s)) = observers s.
Proof.
  intros Hk.
  induction a as [| c e k IHk | b msg k IHk | msg | x k IHk | b a1 IH1 k IHk];
    intros HA s Hw; simpl in *; unfold bind; auto.
  - destruct (Hk c (e s) s Hw) as [H1 H2]; [tauto |].
    destruct (set' c (e s) s) as [[| err |] s1]; simpl in *; auto.
    destruct (IHk (fun H => HA (or_intror H)) s1) as [H3 H4];
      [eapply wired_preserved; eassumption |].
    split; congruence.
  - destruct (assertions && negb (b s)); simpl; auto.
  - apply (IHk HA (assigned x s)). exact Hw.
  - assert (HA1 : ~ In A (targets a1)) by (intros H; apply HA, in_or_app; auto).
    assert (HAk : ~ In A (targets k)) by (intros H; apply HA, in_or_app; auto).
    destruct (b s); auto.
    destruct (IH1 HA1 s Hw) as [H1 H2].
    destruct (exec assertions set' a1 s) as [[| err |] s1]; simpl in *; auto.
    destruct (IHk HAk s1) as [H3 H4]; [eapply wired_preserved; eassumption |].
    split; congruence.
Qed.

Lemma notify_keeps set' ls v :
  keeps set' -> (forall l, In l ls -> ~ In A (targets (body l v))) ->
  forall s, wired s ->
    get (snd (notify assertions body set' ls v s)) A = get s A
    /\ observers (snd (notify assertions body set' ls v s)) = observers s.
Proof.
  intros Hk. induction ls as [| l ls IH]; intros HA s Hw; simpl; unfold bind; auto.
  destruct (@exec_keeps set' (body l v) Hk (HA l (or_introl eq_refl)) s Hw)
    as [H1 H2].
  destruct (exec assertions set' (body l v) s) as [[| err |] s1]; simpl in *; auto.
  destruct (IH (fun l' H => HA l' (or_intror H)) s1) as [H3 H4];
    [eapply wired_preserved; eassumption |].
  split; congruence.
Qed.

Theorem set_keeps fuel : keeps (set_ fuel).
Proof.
  induction fuel as [| n IH]; intros c v s Hw Hc; simpl; auto.
  destruct (negb (isValidValue c v)); simpl; auto.
  destruct (v =? get s c); simpl; auto.
  destruct (@notify_keeps (set_ n) (observers s c) v IH) with (s := changed cell_eq_dec c v s)
    as [H1 H2].
  - intros l Hl. apply nobody_writes_A with (c := c). rewrite <- (Hw c). exact Hl.
  - exact Hw.
  - rewrite H1. split; [apply changed_other; exact Hc | exact H2].
Qed.

Theorem set_anchor fuel v s :
  wired s -> isValidValue A v = true -> (v =? get s A) = false ->
  get (snd (set_ (S fuel) A v s)) A = v.
Proof.
  intros Hw Hv Hc. simpl. rewrite Hv, Hc. simpl.
  destruct (@notify_keeps (set_ fuel) (observers s A) v (set_keeps fuel))
    with (s := changed cell_eq_dec A v s) as [H1 _].
  - intros l Hl. apply nobody_writes_A with (c := A). rewrite <- (Hw A). exact Hl.
  - exact Hw.
  - rewrite H1. apply changed_same.
Qed.

End Anchor.

End Facts.
End LinkFacts.

(* ================================================================= *)
(** ** The series system: wiring and links *)

Module SeriesFacts.
Import SeriesSystem.

(** The listeners of each cell of a constructed system, in the order in
    which they are invoked: those of the spring that owns the cell, then
    those of the system. *)
Definition springTable (p : Spring.property) : list Spring.observer :=
  match p with
  | Spring.appliedForceProperty => [Spring.deriveSpringForce; Spring.observeAppliedForce]
  | Spring.springConstantProperty =>
      [Spring.deriveRightRange; Spring.deriveEnergy; Spring.observeSpringConstant]
  | Spring.displacementProperty =>
      [Spring.deriveRight; Spring.deriveEnergy; Spring.observeDisplacement]
  | Spring.leftProperty => [Spring.deriveEquilibriumX; Spring.deriveLength]
  | Spring.equilibriumXProperty => [Spring.deriveRight; Spring.deriveRightRange]
  | Spring.rightProperty => [Spring.deriveLength]
  | _ => []
  end.

Definition table (c : cell) : list listener :=
  match c with
  | leftSpring p =>
      map ofLeftSpring (springTable p)
      ++ match p with
         | Spring.springConstantProperty => [updateEquivalentSpringConstant]
         | Spring.leftProperty => [leftSpringLeftGuard]
         | Spring.rightProperty => [connectRightSpring]
         | _ => []
         end
  | rightSpring p =>
      map ofRightSpring (springTable p)
      ++ match p with
         | Spring.springConstantProperty => [updateEquivalentSpringConstant]
         | Spring.rightProperty => [connectArm]
         | _ => []
         end
  | equivalentSpring p =>
      map ofEquivalentSpring (springTable p)
      ++ match p with
         | Spring.appliedForceProperty => [forceLink]
         | Spring.leftProperty => [equivalentLeftGuard]
         | Spring.equilibriumXProperty => [equivalentEquilibriumXGuard]
         | _ => []
         end
  | roboticArm_leftProperty => [armLink]
  end.

Definition wired : state -> Prop := LinkFacts.wired table.

(** The constructor needs no more fuel than one level of calls, and what
    it returns does not depend on the fuel. *)
Definition constructed (assertions : bool) : state :=
  snd (SeriesSystem.new assertions 1).

Lemma new_fuel assertions n :
  SeriesSystem.new assertions (S n) = (Returned, constructed assertions).
Proof. destruct assertions; vm_compute; reflexivity. Qed.

Lemma new_returned assertions fuel s :
  SeriesSystem.new assertions fuel = (Returned, s) -> s = constructed assertions.
Proof.
  destruct fuel as [| n].
  - destruct assertions; vm_compute; discriminate.
  - rewrite new_fuel. congruence.
Qed.

Lemma constructed_wired assertions : wired (constructed assertions).
Proof.
  intros c. destruct assertions;
    destruct c as [p | p | p |]; try destruct p; vm_compute; reflexivity.
Qed.

(** *** The right spring is attached to the left spring *)

Ltac each_listener Hl :=
  simpl in Hl;
  repeat (destruct Hl as [<- | Hl]; [| try contradiction]);
  try contradiction.

Ltac not_written HB :=
  cbn in HB; intuition (try discriminate; try congruence).

Lemma only_connectRightSpring_writes_left c l v :
  c <> leftSpring Spring.rightProperty -> In l (table c) ->
  ~ In (rightSpring Spring.leftProperty) (LinkFacts.targets (body l v)).
Proof.
  intros Hc Hl HB.
  destruct c as [p | p | p |]; try destruct p; try congruence;
    each_listener Hl; not_written HB.
Qed.

Definition attached (s : state) : Prop :=
  holds (get s (rightSpring Spring.leftProperty)) (get s (leftSpring Spring.rightProperty)).

Lemma attached_rule assertions fuel :
  AxonFacts.meets
    (LinkFacts.copy_rule cell_eq_dec table
       (leftSpring Spring.rightProperty) (rightSpring Spring.leftProperty))
    (Axon.set cell_eq_dec assertions isValidValue body fuel).
Proof.
  apply LinkFacts.copy_rule_set
    with (link := connectRightSpring) (before := [ofLeftSpring Spring.deriveLength]).
  - discriminate.
  - reflexivity.
  - reflexivity.
  - apply only_connectRightSpring_writes_left.
  - intros l v c [<- | []] [<- | []]. repeat split; discriminate.
Qed.

(** *** The arm is attached to the right spring *)

Lemma only_connectArm_writes_arm c l v :
  c <> rightSpring Spring.rightProperty -> In l (table c) ->
  ~ In roboticArm_leftProperty (LinkFacts.targets (body l v)).
Proof.
  intros Hc Hl HB.
  destruct c as [p | p | p |]; try destruct p; try congruence;
    each_listener Hl; not_written HB.
Qed.

Definition gripped (s : state) : Prop :=
  holds (get s roboticArm_leftProperty) (get s (rightSpring Spring.rightProperty)).

Lemma gripped_rule assertions fuel :
  AxonFacts.meets
    (LinkFacts.copy_rule cell_eq_dec table
       (rightSpring Spring.rightProperty) roboticArm_leftProperty)
    (Axon.set cell_eq_dec assertions isValidValue body fuel).
Proof.
  apply LinkFacts.copy_rule_set
    with (link := connectArm) (before := [ofRightSpring Spring.deriveLength]).
  - discriminate.
  - reflexivity.
  - reflexivity.
  - apply only_connectArm_writes_arm.
  - intros l v c [<- | []] [<- | []]. repeat split; discriminate.
Qed.

(** *** The equivalent spring constant *)

(** keq = 1 / ( 1/k1 + 1/k2 ), as the listener computes it. *)
Definition equivalentSpringConstant (s : state) : float :=
  1 / (1 / get s (leftSpring Spring.springConstantProperty)
       + 1 / get s (rightSpring Spring.springConstantProperty)).

Definition componentConstants : list cell :=
  [leftSpring Spring.springConstantProperty; rightSpring Spring.springConstantProperty].

Definition equivalent_constant (s : state) : Prop :=
  holds (get s (equivalentSpring Spring.springConstantProperty))
        (equivalentSpringConstant s).

Lemma nobody_writes_constants c l v c' :
  ~ In c componentConstants -> In l (table c) ->
  In c' (LinkFacts.targets (body l v)) ->
  c' <> equivalentSpring Spring.springConstantProperty /\ ~ In c' componentConstants.
Proof.
  intros Hc Hl HT.
  destruct c as [p | p | p |]; try destruct p;
    try (exfalso; apply Hc; simpl; tauto);
    each_listener Hl; cbn in HT;
    repeat (destruct HT as [<- | HT]; [| try contradiction]);
    try contradiction;
    (split; [discriminate | simpl; intuition discriminate]).
Qed.

Lemma constant_rule assertions fuel :
  AxonFacts.meets
    (LinkFacts.recompute_rule cell_eq_dec table componentConstants
       (equivalentSpring Spring.springConstantProperty) equivalentSpringConstant)
    (Axon.set cell_eq_dec assertions isValidValue body fuel).
Proof.
  apply LinkFacts.recompute_rule_set with (link := updateEquivalentSpringConstant).
  - simpl. intuition discriminate.
  - intros s s' H. unfold equivalentSpringConstant.
    rewrite !H by (simpl; tauto). reflexivity.
  - reflexivity.
  - intros a [<- | [<- | []]].
    + exists (map ofLeftSpring (springTable Spring.springConstantProperty)).
      split; [reflexivity |].
      intros l v c Hl HT. each_listener Hl; cbn in HT;
        repeat (destruct HT as [<- | HT]; [| try contradiction]);
        try contradiction;
        (split; [discriminate | simpl; intuition discriminate]).
    + exists (map ofRightSpring (springTable Spring.springConstantProperty)).
      split; [reflexivity |].
      intros l v c Hl HT. each_listener Hl; cbn in HT;
        repeat (destruct HT as [<- | HT]; [| try contradiction]);
        try contradiction;
        (split; [discriminate | simpl; intuition discriminate]).
  - apply nobody_writes_constants.
Qed.

End SeriesFacts.

(* ================================================================= *)
(** ** The series system: the anchor of the equivalent spring *)

Module SeriesSteps.
Import SeriesSystem SeriesFacts.
Section Steps.

Variable assertions : bool.

#[local] Abbreviation set_ := (Axon.set cell_eq_dec assertions isValidValue body).
#[local] Abbreviation result := (result cell listener bool).

Lemma set_changes n c v s :
  wired s -> isValidValue c v = true -> (v =? get s c) = false ->
  set_ (S n) c v s
  = notify assertions body (set_ n) (table c) v (changed cell_eq_dec c v s).
Proof. intros Hw Hv H. simpl. rewrite Hv, H, (Hw c). reflexivity. Qed.

Lemma set_stays n c v s :
  isValidValue c v = true -> (v =? get s c) = true -> set_ (S n) c v s = (Returned, s).
Proof. intros Hv H. simpl. rewrite Hv, H. reflexivity. Qed.

Lemma set_wired n c v s : wired s -> wired (snd (set_ n c v s)).
Proof.
  intros Hw. eapply LinkFacts.wired_preserved; [| exact Hw].
  apply AxonFacts.set_observers.
Qed.

(** A cell that nobody observes. *)
Lemma set_unobserved_returns n c v s :
  wired s -> table c = [] -> isValidValue c v = true ->
  exists s', set_ (S n) c v s = (Returned, s') /\ wired s'.
Proof.
  intros Hw Ht Hv. rewrite AxonFacts.set_unobserved; trivial.
  - eexists. split; [reflexivity |]. destruct (v =? get s c); exact Hw.
  - rewrite (Hw c). exact Ht.
Qed.

Ltac round :=
  cbn [table springTable map app notify exec]; unfold bind;
  cbn [body Spring.body exec]; unfold bind.

(** [right] of the equivalent spring is observed by its [length] only. *)
Lemma set_right_returns n v s :
  wired s ->
  exists s', set_ (S (S n)) (equivalentSpring Spring.rightProperty) v s = (Returned, s')
             /\ wired s'.
Proof.
  intros Hw.
  destruct (v =? get s (equivalentSpring Spring.rightProperty)) eqn:E.
  - exists s. split; trivial. apply set_stays; trivial.
  - rewrite set_changes by trivial. round.
    match goal with
    | |- context [set_ (S n) ?c ?w ?t] =>
        destruct (@set_unobserved_returns n c w t) as (s' & -> & Hw'); trivial
    end.
    exists s'. auto.
Qed.

(** What a write to the anchor of the equivalent spring raises. *)
Definition anchor_error (e : error) : Prop :=
  e = AssertionError "right must be > left"
  \/ e = Error "Equilibrium position of equivalent spring must remain fixed"
  \/ e = Error "Left end of equivalent spring must remain fixed".

(** A change of [equilibriumX] of the equivalent spring reaches the guard
    that the system subscribed, unless the assertion of [right] fails
    first. *)
Lemma set_equilibriumX_throws n v s :
  wired s -> (v =? get s (equivalentSpring Spring.equilibriumXProperty)) = false ->
  exists e s',
    set_ (S (S (S n))) (equivalentSpring Spring.equilibriumXProperty) v s = (Threw e, s')
    /\ anchor_error e.
Proof.
  intros Hw E. rewrite set_changes by trivial. round. unfold anchor_error.
  match goal with
  | |- context [if ?b then _ else _] => destruct b; [eauto 6 |]
  end.
  match goal with
  | |- context [set_ (S (S n)) ?c ?w ?t] =>
      destruct (@set_right_returns n w t) as (s1 & -> & Hw1); [exact Hw |]
  end.
  cbn [springFields Spring.fields_of equivalentSpringOptions leftSpringOptions
       Spring.appliedForceRange Spring.forceDriven exec].
  unfold bind.
  match goal with
  | |- context [set_ (S (S n)) ?c ?w ?t] =>
      destruct (@set_unobserved_returns (S n) c w t) as (s2 & -> & Hw2); trivial
  end.
  match goal with
  | |- context [set_ (S (S n)) ?c ?w ?t] =>
      destruct (@set_unobserved_returns (S n) c w t) as (s3 & -> & Hw3); trivial
  end.
  eauto 6.
Qed.

(** A change of [left] of the equivalent spring reaches one of the two
    guards. *)
Lemma set_left_throws n v s :
  wired s -> (v =? get s (equivalentSpring Spring.leftProperty)) = false ->
  exists e s',
    set_ (S (S (S (S n)))) (equivalentSpring Spring.leftProperty) v s = (Threw e, s')
    /\ anchor_error e.
Proof.
  intros Hw E. rewrite set_changes by trivial. round.
  match goal with
  | |- context [set_ (S (S (S n))) ?c ?w ?t] =>
      destruct (w =? get t c) eqn:Ex;
      [ rewrite (@set_stays (S (S n)) c w t eq_refl Ex)
      | destruct (@set_equilibriumX_throws n w t) as (e & s1 & -> & He);
        [exact Hw | exact Ex | eauto] ]
  end.
  match goal with
  | |- context [set_ (S (S (S n))) ?c ?w ?t] =>
      destruct (@set_unobserved_returns (S (S n)) c w t) as (s2 & -> & Hw2); trivial
  end.
  unfold anchor_error. eauto 6.
Qed.

End Steps.

(** No listener of the system writes the left end of the equivalent
    spring. *)
Lemma nobody_writes_equivalent_left c l v :
  In l (table c) ->
  ~ In (equivalentSpring Spring.leftProperty) (LinkFacts.targets (body l v)).
Proof.
  intros Hl HB.
  destruct c as [p | p | p |]; try destruct p;
    each_listener Hl; not_written HB.
Qed.

End SeriesSteps.

(* ================================================================= *)
(** ** The series system: the guard of the arm's handler *)

Module SeriesGuard.
Import SeriesSystem SeriesFacts.

Definition is_assignment (e : event cell bool) : bool :=
  match e with
  | Assigned _ => true
  | Changed _ _ => false
  end.

(** A run of events in which the guard is not assigned. *)
Definition changes_only (t : list (event cell bool)) : Prop :=
  forallb (fun e => negb (is_assignment e)) t = true.

(** While the guard is set, a propagation leaves it set and assigns
    nothing. *)
Definition guarded (s s' : state) : Prop :=
  ignoreUpdates s = true ->
  ignoreUpdates s' = true
  /\ exists t, trace s' = trace s ++ t /\ changes_only t.

(** The events of a propagation from [s] to [s'], and how many of them are
    changes of the cell [c]. *)
Definition notifications (s s' : state) : list (event cell bool) :=
  skipn (List.length (trace s)) (trace s').

Definition changes_of (c : cell) (t : list (event cell bool)) : nat :=
  List.length (filter (fun e => match e with
                           | Changed c' _ => if cell_eq_dec c c' then true else false
                           | Assigned _ => false
                           end) t).

Lemma guarded_refl s : guarded s s.
Proof.
  intros H. split; trivial. exists []. split; [| reflexivity].
  symmetry. apply app_nil_r.
Qed.

Lemma guarded_trans s1 s2 s3 : guarded s1 s2 -> guarded s2 s3 -> guarded s1 s3.
Proof.
  intros H1 H2 H. destruct (H1 H) as (G1 & t1 & E1 & C1).
  destruct (H2 G1) as (G2 & t2 & E2 & C2).
  split; trivial. exists (t1 ++ t2). split.
  - rewrite E2, E1. symmetry. apply app_assoc.
  - unfold changes_only in *. rewrite forallb_app, C1, C2. reflexivity.
Qed.

Lemma guarded_changed c v s : guarded s (changed cell_eq_dec c v s).
Proof.
  intros H. split; trivial. exists [Changed c v]. split; reflexivity.
Qed.

Section Run.
Variable assertions : bool.

Lemma guarded_body set' :
  (forall c v s, guarded s (snd (set' c v s))) ->
  forall l v s, guarded s (snd (exec assertions set' (body l v) s)).
Proof.
  intros Hs l v s.
  assert (Ha : forall a, LinkFacts.assigns_nothing a = true ->
                         guarded s (snd (exec assertions set' a s))).
  { intros a Ha. apply LinkFacts.exec_assigns_nothing; trivial.
    - apply guarded_refl.
    - apply guarded_trans. }
  destruct l as [o | o | o | | | | | | | |]; try destruct o;
    try (apply Ha; reflexivity).
  (* the arm's handler *)
  intros H. simpl. unfold ignoreUpdates in H |- *. rewrite H. simpl.
  split; trivial. exists []. split; [| reflexivity].
  symmetry. apply app_nil_r.
Qed.

Theorem set_guarded fuel c v s :
  guarded s (snd (Axon.set cell_eq_dec assertions isValidValue body fuel c v s)).
Proof.
  apply LinkFacts.set_preorder.
  - apply guarded_refl.
  - apply guarded_trans.
  - apply guarded_changed.
  - apply guarded_body.
Qed.

(** A write that returns leaves the guard as it found it. *)
Definition guard_restored (c : cell) (v : float) (s : state)
    (r : result cell listener bool) : Prop :=
  fst r = Returned -> ignoreUpdates (snd r) = ignoreUpdates s.

Section Returned.
Variable set' : cell -> float -> state -> result cell listener bool.
Hypothesis set'_restores : AxonFacts.meets guard_restored set'.

Lemma exec_guard_restored a :
  LinkFacts.assigns_nothing a = true ->
  forall s, fst (exec assertions set' a s) = Returned ->
            ignoreUpdates (snd (exec assertions set' a s)) = ignoreUpdates s.
Proof.
  induction a as [| c e k IHk | b msg k IHk | msg | x k IHk | b a1 IH1 k IHk];
    simpl; intros Ha s; unfold bind; trivial; try discriminate.
  - destruct (set'_restores c (e s) s) as [HR _]. unfold guard_restored in HR.
    destruct (set' c (e s) s) as [[| err |] s1]; simpl in *; try discriminate.
    intros H. rewrite (IHk Ha s1 H). auto.
  - destruct (assertions && negb (b s)); simpl; [discriminate | auto].
  - apply andb_prop in Ha. destruct Ha as [Ha1 Hak].
    destruct (b s); [| auto].
    pose proof (IH1 Ha1 s) as H1.
    destruct (exec assertions set' a1 s) as [[| err |] s1]; simpl in *;
      try discriminate.
    intros H. rewrite (IHk Hak s1 H). auto.
Qed.

Lemma body_guard_restored l v s :
  fst (exec assertions set' (body l v) s) = Returned ->
  ignoreUpdates (snd (exec assertions set' (body l v) s)) = ignoreUpdates s.
Proof.
  destruct l as [o | o | o | | | | | | | |]; try destruct o;
    try (apply exec_guard_restored; reflexivity).
  (* the arm's handler *)
  simpl. unfold bind. destruct (ignoreUpdates s) eqn:G; simpl; trivial.
  match goal with
  | |- context [set' ?c ?w ?t] => destruct (set' c w t) as [[| err |] s1]
  end; simpl; trivial; discriminate.
Qed.

Lemma notify_guard_restored ls v :
  forall s, fst (notify assertions body set' ls v s) = Returned ->
            ignoreUpdates (snd (notify assertions body set' ls v s)) = ignoreUpdates s.
Proof.
  induction ls as [| l ls IH]; intros s; simpl; unfold bind; trivial.
  pose proof (body_guard_restored l v s) as H.
  destruct (exec assertions set' (body l v) s) as [[| err |] s1]; simpl in *;
    try discriminate.
  intros Hr. rewrite (IH s1 Hr). auto.
Qed.

End Returned.

Theorem set_guard_restored fuel :
  AxonFacts.meets guard_restored
    (Axon.set cell_eq_dec assertions isValidValue body fuel).
Proof.
  apply AxonFacts.set_rule; unfold guard_restored; simpl; trivial.
  intros set' Hm c v s _ _ H.
  rewrite (notify_guard_restored Hm _ _ _ H). reflexivity.
Qed.

End Run.
End SeriesGuard.

(* ================================================================= *)
(** ** The series system: what every settled state satisfies *)

Module SeriesInvariants.
Import SeriesSystem SeriesFacts.

(** The cells that are written from outside the system: the applied force
    and the displacement of the equivalent spring, the spring constants of
    the two springs, and the position of the arm. The other cells are
    driven by the listeners. *)
Definition input (c : cell) : bool :=
  match c with
  | equivalentSpring Spring.appliedForceProperty
  | equivalentSpring Spring.displacementProperty
  | leftSpring Spring.springConstantProperty
  | rightSpring Spring.springConstantProperty
  | roboticArm_leftProperty => true
  | _ => false
  end.

(** The position that the last external write to the arm asked for. *)
Definition requested (c : cell) (v : float) (p : option float) : option float :=
  match c with
  | roboticArm_leftProperty => Some v
  | _ => p
  end.

(** The settled states: the one the constructor returns, and those that
    external writes to the inputs return. The index is the position last
    requested of the arm, if any. *)
Inductive reachable (assertions : bool) : option float -> state -> Prop :=
  | reachable_new fuel s :
      SeriesSystem.new assertions fuel = (Returned, s) ->
      reachable assertions None s
  | reachable_set fuel c v p s s' :
      reachable assertions p s -> input c = true ->
      SeriesSystem.set assertions fuel c v s = (Returned, s') ->
      reachable assertions (requested c v p) s'.

(** [Feq = F1 = F2 = F] and [xeq = x1 + x2]. *)
Definition in_series (F : float) (s : state) : bool :=
  (get s (leftSpring Spring.appliedForceProperty) =? F)
  && (get s (rightSpring Spring.appliedForceProperty) =? F)
  && (get s (equivalentSpring Spring.appliedForceProperty) =? F)
  && (get s (equivalentSpring Spring.displacementProperty)
      =? get s (leftSpring Spring.displacementProperty)
         + get s (rightSpring Spring.displacementProperty)).

(** The applied force [F] on the system as constructed. *)
Definition forceApplied (assertions : bool) (F : float) : result cell listener bool :=
  SeriesSystem.set assertions 100 (equivalentSpring Spring.appliedForceProperty) F
    (constructed assertions).

Definition settles_in_series (assertions : bool) (n : Z) : bool :=
  let r := forceApplied assertions (Math.of_Z n) in
  match fst r with
  | Returned => in_series (Math.of_Z n) (snd r)
  | _ => false
  end.

(** The whole numbers of newtons of the applied force range. *)
Definition forces : list Z := map (fun i => (Z.of_nat i - 100)%Z) (seq 0 201).

Lemma forces_all n : (-100 <= n <= 100)%Z -> In n forces.
Proof.
  intros H. unfold forces. apply in_map_iff.
  exists (Z.to_nat (n + 100)). split; [lia | apply in_seq; lia].
Qed.

Lemma forces_settle_in_series assertions n :
  (-100 <= n <= 100)%Z -> settles_in_series assertions n = true.
Proof.
  intros H.
  assert (E : forallb (settles_in_series assertions) forces = true)
    by (destruct assertions; vm_compute; reflexivity).
  rewrite forallb_forall in E. apply E, forces_all, H.
Qed.

(** The arm moved to [1.5 + m / 100] on the system as constructed. *)
Definition armMovedTo (assertions : bool) (m : Z) : result cell listener bool :=
  SeriesSystem.set assertions 100 roboticArm_leftProperty (1.5 + Math.of_Z m / 100)
    (constructed assertions).

Definition returns (r : result cell listener bool) : bool :=
  match fst r with
  | Returned => true
  | _ => false
  end.

Lemma arm_moves_return assertions m :
  (-100 <= m <= 100)%Z -> returns (armMovedTo assertions m) = true.
Proof.
  intros H.
  assert (E : forallb (fun m => returns (armMovedTo assertions m)) forces = true)
    by (destruct assertions; vm_compute; reflexivity).
  rewrite forallb_forall in E. apply E, forces_all, H.
Qed.

(** The arm holds the position that was last requested. *)
Definition left_as_requested (p : option float) (s : state) : Prop :=
  exists v, p = Some v /\ holds (get s roboticArm_leftProperty) v.

Lemma input_set assertions fuel c v s :
  input c = true ->
  SeriesSystem.set assertions fuel c v s
  = Axon.set cell_eq_dec assertions isValidValue body fuel c v s.
Proof.
  intros H. unfold SeriesSystem.set, external_set.
  destruct c as [p | p | p |]; try destruct p; try discriminate; reflexivity.
Qed.

Lemma reachable_wired assertions p s : reachable assertions p s -> wired s.
Proof.
  induction 1 as [fuel s E | fuel c v p s s' _ IH Hc E].
  - apply new_returned in E. subst s. apply constructed_wired.
  - rewrite input_set in E by exact Hc.
    eapply LinkFacts.wired_preserved; [| exact IH].
    change s' with (snd (Returned, s')). rewrite <- E.
    apply AxonFacts.set_observers.
Qed.

(** In a settled state the guard of the arm's handler is clear. *)
Lemma reachable_guard_clear assertions p s :
  reachable assertions p s -> ignoreUpdates s = false.
Proof.
  induction 1 as [fuel s E | fuel c v p s s' Hr IH Hc E].
  - apply new_returned in E. subst s. destruct assertions; vm_compute; reflexivity.
  - rewrite input_set in E by exact Hc.
    destruct (SeriesGuard.set_guard_restored assertions fuel c v s) as [HR _].
    unfold SeriesGuard.guard_restored in HR. rewrite E in HR. simpl in HR.
    rewrite HR; trivial.
Qed.

Lemma constructed_attached assertions : attached (constructed assertions).
Proof. left. destruct assertions; vm_compute; reflexivity. Qed.

Lemma constructed_gripped assertions : gripped (constructed assertions).
Proof. left. destruct assertions; vm_compute; reflexivity. Qed.

Lemma constructed_equivalent_constant assertions :
  equivalent_constant (constructed assertions).
Proof. left. destruct assertions; vm_compute; reflexivity. Qed.

(** The right spring stays attached to the left spring. *)
Lemma reachable_attached assertions p s : reachable assertions p s -> attached s.
Proof.
  induction 1 as [fuel s E | fuel c v p s s' Hr IH Hc E].
  - apply new_returned in E. subst s. apply constructed_attached.
  - rewrite input_set in E by exact Hc.
    destruct (attached_rule assertions fuel c v s) as [HR _].
    rewrite E in HR. specialize (HR (reachable_wired Hr) eq_refl). simpl in HR.
    destruct (cell_eq_dec c (rightSpring Spring.leftProperty)) as [-> | _];
      [discriminate |].
    destruct HR as [[H | H] _]; [exact H |].
    eapply LinkFacts.copied_untouched; [exact H | exact IH].
Qed.

(** The arm grips the right spring, or is where it was last asked to be. *)
Lemma reachable_gripped assertions p s :
  reachable assertions p s -> gripped s \/ left_as_requested p s.
Proof.
  induction 1 as [fuel s E | fuel c v p s s' Hr IH Hc E].
  - apply new_returned in E. subst s. left. apply constructed_gripped.
  - rewrite input_set in E by exact Hc.
    destruct (gripped_rule assertions fuel c v s) as [HR _].
    rewrite E in HR. specialize (HR (reachable_wired Hr) eq_refl). simpl in HR.
    destruct (cell_eq_dec c roboticArm_leftProperty) as [-> | n].
    + destruct HR as [_ [H | [_ H]]]; [left; exact H |].
      right. exists v. split; [reflexivity | exact H].
    + destruct HR as [[H | H] _]; [left; exact H |].
      destruct IH as [IH | (w & -> & IH)].
      * left. eapply LinkFacts.copied_untouched; [exact H | exact IH].
      * right. exists w. split.
        -- destruct c as [q | q | q |]; try reflexivity. congruence.
        -- destruct H as [_ H]. rewrite H. exact IH.
Qed.

(** The equivalent spring constant is that of the two springs in series. *)
Lemma reachable_equivalent_constant assertions p s :
  reachable assertions p s -> equivalent_constant s.
Proof.
  induction 1 as [fuel s E | fuel c v p s s' Hr IH Hc E].
  - apply new_returned in E. subst s. apply constructed_equivalent_constant.
  - rewrite input_set in E by exact Hc.
    destruct (constant_rule assertions fuel c v s) as [HR _].
    rewrite E in HR. specialize (HR (reachable_wired Hr) eq_refl).
    cbn [fst snd] in HR.
    destruct (cell_eq_dec c (equivalentSpring Spring.springConstantProperty))
      as [-> | _]; [discriminate |].
    destruct (in_dec cell_eq_dec c componentConstants) as [_ | _].
    + destruct HR as [H | ->]; [exact H | exact IH].
    + destruct HR as [H | H]; [exact H |].
      eapply LinkFacts.recomputed_unmoved; [| exact H | exact IH].
      intros t t' Ht. unfold equivalentSpringConstant.
      rewrite !Ht by (simpl; tauto). reflexivity.
Qed.

End SeriesInvariants.

(* ================================================================= *)
(** ** The robotic arm on its own *)

Module RoboticArmFacts.
Import RoboticArm.

Section Facts.
Variable o : options.

(** The arm has no listener: a [set] is the validity check, the comparison
    with the current value, and the store. *)
Lemma set_checks_and_stores fuel v s :
  set o (S fuel) v s
  = (if v <? right o
     then (Returned,
           if v =? get s then s else changed property_eq_dec leftProperty v s)
     else (Threw InvalidValueError, s)).
Proof.
  unfold set, get, isValidValue. simpl.
  destruct (v <? right o); simpl; trivial.
  destruct (v =? Axon.get s leftProperty); trivial.
  destruct (observers s leftProperty) as [| [] ls]. reflexivity.
Qed.

Lemma sets_lastAccepted fuel vs :
  forall s a, holds (get s) a ->
    holds (get (sets o (S fuel) vs s)) (lastAccepted o vs a).
Proof.
  induction vs as [| v vs IH]; intros s a H; cbn [sets lastAccepted]; trivial.
  apply IH. rewrite set_checks_and_stores. unfold isValidValue.
  destruct (v <? right o); cbn [snd]; trivial.
  destruct (v =? get s) eqn:E.
  - right. exact E.
  - left. unfold get, Axon.get, changed. simpl. apply AxonFacts.update_same.
Qed.

End Facts.
End RoboticArmFacts.

(* ================================================================= *)
(** ** Derived cells, in every world *)

Module DerivedFacts.
Section Facts.

Variables cell listener X : Type.
Variable cell_eq_dec : forall a b : cell, {a = b} + {a <> b}.
Variable assertions : bool.
Variable isValidValue : cell -> float -> bool.
Variable body : listener -> float -> action cell listener X.

#[local] Abbreviation store := (store cell listener X).
#[local] Abbreviation result := (result cell listener X).
#[local] Abbreviation set_ := (set cell_eq_dec assertions isValidValue body).

(** The listeners that a cell may have. *)
Variable table : cell -> list listener.

(** The derived cell [B] is computed from the cells [sources] by the
    expression [g]; the listener [link] does it. *)
Variable sources : list cell.
Variable B : cell.
Variable link : listener.
Variable g : store -> float.

(** An action that writes [g] to [B] once and does not write [B]
    otherwise. *)
Inductive computes : action cell listener X -> Prop :=
  | computes_here k :
      ~ In B (LinkFacts.targets k) -> computes (SetCell B g k)
  | computes_after c e k :
      c <> B -> computes k -> computes (SetCell c e k)
  | computes_checked b msg k :
      computes k -> computes (Assert b msg k).

Hypothesis B_not_source : ~ In B sources.
Hypothesis g_sources :
  forall s s' : store, (forall a, In a sources -> get s' a = get s a) -> g s' = g s.
Hypothesis link_computes : forall v, computes (body link v).
Hypothesis only_link_writes_B :
  forall c l v, In l (table c) -> In B (LinkFacts.targets (body l v)) -> l = link.

(** Every subscription is one of [table], and [link] is subscribed to
    every source. *)
Definition subscribed (s : store) : Prop :=
  (forall c l, In l (observers s c) -> In l (table c))
  /\ (forall a, In a sources -> In link (observers s a)).

Definition recomputed (s : store) : Prop := holds (get s B) (g s).

Definition derived_rule (c : cell) (v : float) (s : store) (r : result) : Prop :=
  subscribed s -> fst r = Returned ->
  if cell_eq_dec c B
  then g s = v -> recomputed (snd r)
  else recomputed s -> recomputed (snd r).

Lemma subscribed_observers (s s' : store) :
  observers s' = observers s -> subscribed s -> subscribed s'.
Proof. unfold subscribed. intros ->. trivial. Qed.

Lemma recomputed_same (s s' : store) :
  get s' B = get s B -> (forall a, In a sources -> get s' a = get s a) ->
  recomputed s -> recomputed s'.
Proof. unfold recomputed. intros -> H. rewrite (g_sources s s' H). trivial. Qed.

Lemma recomputed_changed c v s :
  c <> B -> ~ In c sources -> recomputed s -> recomputed (changed cell_eq_dec c v s).
Proof.
  intros H1 H2. apply recomputed_same.
  - apply LinkFacts.changed_other. exact H1.
  - intros a Ha. apply LinkFacts.changed_other. intros ->. tauto.
Qed.

Section Round.
Variable set' : cell -> float -> store -> result.
Hypothesis set'_meets : AxonFacts.meets derived_rule set'.

Lemma set'_observers c v s : observers (snd (set' c v s)) = observers s.
Proof. apply set'_meets. Qed.

(** An action that does not write [B] keeps [B] up to date. *)
Lemma exec_keeps_recomputed a :
  ~ In B (LinkFacts.targets a) ->
  forall s, subscribed s -> recomputed s ->
    fst (exec assertions set' a s) = Returned ->
    recomputed (snd (exec assertions set' a s)).
Proof.
  induction a as [| c e k IHk | b msg k IHk | msg | x k IHk | b a1 IH1 k IHk];
    intros HB s Hs Hr; simpl in *; unfold bind.
  - trivial.
  - destruct (set'_meets c (e s) s) as [HR Ho]. unfold derived_rule in HR.
    destruct (set' c (e s) s) as [[| err |] s1]; simpl in *; try discriminate.
    destruct (cell_eq_dec c B) as [-> | _]; [tauto |].
    apply IHk; eauto using subscribed_observers.
  - destruct (assertions && negb (b s)); simpl; [discriminate | auto].
  - intros H. discriminate H.
  - apply IHk; trivial. revert Hr. apply recomputed_same; reflexivity.
  - assert (HB1 : ~ In B (LinkFacts.targets a1)) by (intros H; apply HB, in_or_app; auto).
    assert (HBk : ~ In B (LinkFacts.targets k)) by (intros H; apply HB, in_or_app; auto).
    destruct (b s); [| auto].
    pose proof (IH1 HB1 s Hs Hr) as H1.
    pose proof (@AxonFacts.exec_observers _ _ _ assertions set' set'_observers a1 s) as Ho.
    destruct (exec assertions set' a1 s) as [[| err |] s1]; simpl in *; try discriminate.
    apply IHk; eauto using subscribed_observers.
Qed.

(** The listener of the derived cell brings it up to date. *)
Lemma exec_computes a :
  computes a ->
  forall s, subscribed s ->
    fst (exec assertions set' a s) = Returned ->
    recomputed (snd (exec assertions set' a s)).
Proof.
  induction 1 as [k Hk | c e k Hc _ IH | b msg k _ IH]; intros s Hs; simpl; unfold bind.
  - destruct (set'_meets B (g s) s) as [HR Ho]. unfold derived_rule in HR.
    destruct (set' B (g s) s) as [[| err |] s1]; simpl in *; try discriminate.
    destruct (cell_eq_dec B B) as [_ | n]; [| congruence].
    apply exec_keeps_recomputed; eauto using subscribed_observers.
  - pose proof (set'_observers c (e s) s) as Ho.
    destruct (set' c (e s) s) as [[| err |] s1]; simpl in *; try discriminate.
    apply IH. eauto using subscribed_observers.
  - destruct (assertions && negb (b s)); simpl; [discriminate | auto].
Qed.

Lemma listener_keeps_recomputed c l v :
  In l (table c) ->
  forall s, subscribed s -> recomputed s ->
    fst (exec assertions set' (body l v) s) = Returned ->
    recomputed (snd (exec assertions set' (body l v) s)).
Proof.
  intros Hl s Hs Hr.
  destruct (in_dec cell_eq_dec B (LinkFacts.targets (body l v))) as [i | n].
  - rewrite (only_link_writes_B c l v Hl i). apply exec_computes; trivial.
  - apply exec_keeps_recomputed; trivial.
Qed.

Lemma notify_keeps_recomputed c ls v :
  (forall l, In l ls -> In l (table c)) ->
  forall s, subscribed s -> recomputed s ->
    fst (notify assertions body set' ls v s) = Returned ->
    recomputed (snd (notify assertions body set' ls v s)).
Proof.
  induction ls as [| l ls IH]; intros Hin s Hs Hr; simpl; unfold bind; trivial.
  pose proof (@listener_keeps_recomputed c l v (Hin l (or_introl eq_refl)) s Hs Hr) as H1.
  pose proof (@AxonFacts.exec_observers _ _ _ assertions set' set'_observers
                (body l v) s) as Ho.
  destruct (exec assertions set' (body l v) s) as [[| err |] s1]; simpl in *;
    try discriminate.
  assert (Hin' : forall l', In l' ls -> In l' (table c))
    by (intros l' Hl'; apply Hin; right; exact Hl').
  apply IH; eauto using subscribed_observers.
Qed.

Lemma notify_recomputes c ls v :
  (forall l, In l ls -> In l (table c)) -> In link ls ->
  forall s, subscribed s ->
    fst (notify assertions body set' ls v s) = Returned ->
    recomputed (snd (notify assertions body set' ls v s)).
Proof.
  induction ls as [| l ls IH]; intros Hin Hl s Hs; simpl; unfold bind; [contradiction |].
  pose proof (@AxonFacts.exec_observers _ _ _ assertions set' set'_observers
                (body l v) s) as Ho.
  destruct Hl as [E | Hl].
  - subst l. pose proof (@exec_computes (body link v) (link_computes v) s Hs) as H1.
    destruct (exec assertions set' (body link v) s) as [[| err |] s1]; simpl in *;
      try discriminate.
    assert (Hin' : forall l', In l' ls -> In l' (table c))
      by (intros l' Hl'; apply Hin; right; exact Hl').
    apply notify_keeps_recomputed with (c := c); eauto using subscribed_observers.
  - destruct (exec assertions set' (body l v) s) as [[| err |] s1]; simpl in *;
      try discriminate.
    assert (Hin' : forall l', In l' ls -> In l' (table c))
      by (intros l' Hl'; apply Hin; right; exact Hl').
    apply IH; eauto using subscribed_observers.
Qed.

End Round.

Theorem derived_rule_set fuel : AxonFacts.meets derived_rule (set_ fuel).
Proof.
  apply AxonFacts.set_rule.
  - intros c v s _ H. discriminate.
  - intros c v s _ _ H. discriminate.
  - intros c v s _ Hc _ _. simpl.
    destruct (cell_eq_dec c B) as [-> | n]; trivial.
    intros <-. right. exact Hc.
  - intros set' Hm c v s _ Hc Hs Hr.
    assert (Hs1 : subscribed (changed cell_eq_dec c v s)) by exact Hs.
    assert (Hin : forall l, In l (observers s c) -> In l (table c)) by apply Hs.
    destruct (cell_eq_dec c B) as [-> | n].
    + intros Hg. apply notify_keeps_recomputed with (c := B); trivial.
      unfold recomputed. left. rewrite LinkFacts.changed_same, <- Hg.
      symmetry. apply g_sources. intros a Ha.
      apply LinkFacts.changed_other. intros <-. tauto.
    + intros HI. destruct (in_dec cell_eq_dec c sources) as [i | i].
      * apply notify_recomputes with (c := c); trivial. apply Hs. exact i.
      * apply notify_keeps_recomputed with (c := c); trivial.
        apply recomputed_changed; trivial.
Qed.

(** *** While a world is being constructed *)

(** [link] writes none of the cells it reads. *)
Hypothesis link_spares_sources :
  forall v c, In c (LinkFacts.targets (body link v)) -> ~ In c sources.

Definition settled (s : store) : Prop := subscribed s /\ recomputed s.

Lemma create_settled c v s :
  c <> B -> ~ In c sources -> settled s -> settled (create cell_eq_dec c v s).
Proof.
  intros H1 H2 [[Hs1 Hs2] Hr]. split; [split |].
  - intros c' l. unfold create, update. simpl.
    destruct (cell_eq_dec c c'); [contradiction | apply Hs1].
  - intros a Ha. unfold create, update. simpl.
    destruct (cell_eq_dec c a) as [-> | _]; [tauto | apply Hs2, Ha].
  - revert Hr. apply recomputed_same.
    + unfold get, create; simpl. apply AxonFacts.update_other. exact H1.
    + intros a Ha. unfold get, create; simpl. apply AxonFacts.update_other.
      intros ->. tauto.
Qed.

Lemma subscribe_subscribed c l s :
  In l (table c) -> subscribed s -> subscribed (subscribe cell_eq_dec c l s).
Proof.
  intros Hl [Hs1 Hs2]. split.
  - intros c' l'. unfold subscribe, update. simpl.
    destruct (cell_eq_dec c c') as [<- | _]; [| apply Hs1].
    intros H. apply in_app_or in H. destruct H as [H | [<- | []]]; auto.
  - intros a Ha. unfold subscribe, update. simpl.
    destruct (cell_eq_dec c a) as [<- | _]; [| apply Hs2, Ha].
    apply in_or_app. left. apply Hs2, Ha.
Qed.

Lemma subscribe_settled c l s :
  In l (table c) -> settled s -> settled (subscribe cell_eq_dec c l s).
Proof.
  intros Hl [Hs Hr]. split; [apply subscribe_subscribed; trivial |].
  revert Hr. apply recomputed_same; reflexivity.
Qed.

Lemma subscribe_all_settled l deps :
  (forall d, In d deps -> In l (table d)) ->
  forall s, settled s ->
    settled (fold_left (fun t d => subscribe cell_eq_dec d l t) deps s).
Proof.
  induction deps as [| d deps IH]; intros Hl s Hs; simpl; trivial.
  apply IH; [intros d' Hd'; apply Hl; right; exact Hd' |].
  apply subscribe_settled; trivial. apply Hl. left. reflexivity.
Qed.

Lemma run_settled fuel c l v s s' :
  In l (table c) -> settled s ->
  exec assertions (set_ fuel) (body l v) s = (Returned, s') -> settled s'.
Proof.
  intros Hl [Hs Hr] E. split.
  - apply subscribed_observers with (s := s); trivial.
    change s' with (snd (Returned, s')). rewrite <- E.
    apply AxonFacts.exec_observers. apply AxonFacts.set_observers.
  - change s' with (snd (Returned, s')). rewrite <- E.
    apply listener_keeps_recomputed with (c := c); trivial.
    + apply derived_rule_set.
    + rewrite E. reflexivity.
Qed.

(** [new DerivedProperty] of another cell, and [link]. *)
Lemma derive_settled fuel c deps l s s' :
  c <> B -> ~ In c sources ->
  (forall d, In d deps -> In l (table d)) -> deps <> [] ->
  settled s ->
  derive cell_eq_dec assertions isValidValue body fuel c deps l s = (Returned, s') ->
  settled s'.
Proof.
  intros H1 H2 Hl Hd Hs. unfold derive, bind.
  destruct (exec assertions (set_ fuel) (body l 0) (create cell_eq_dec c 0 s))
    as [[| err |] s1] eqn:E; try discriminate.
  intros H. inversion H. apply subscribe_all_settled; trivial.
  destruct deps as [| d deps]; [congruence |].
  apply (@run_settled fuel d l 0 (create cell_eq_dec c 0 s) s1); trivial.
  - apply Hl. left. reflexivity.
  - apply create_settled; trivial.
Qed.

Lemma link_settled fuel c l s s' :
  In l (table c) -> settled s ->
  Axon.link cell_eq_dec assertions isValidValue body fuel c l s = (Returned, s') ->
  settled s'.
Proof.
  intros Hl Hs. unfold Axon.link. intros E.
  eapply run_settled; [exact Hl | | exact E].
  apply subscribe_settled; trivial.
Qed.

(** A write to a cell that nobody observes. *)
Lemma set_unobserved_result fuel c v s s' :
  observers s c = [] -> set_ fuel c v s = (Returned, s') ->
  s' = s \/ s' = changed cell_eq_dec c v s.
Proof.
  intros Ho. destruct fuel as [| n]; simpl; [discriminate |].
  destruct (negb (isValidValue c v)); [discriminate |].
  destruct (v =? get s c); [left; congruence |].
  rewrite Ho. simpl. right. congruence.
Qed.

(** The listener of the derived cell, run while nobody observes the cells
    it writes. *)
Lemma exec_computes_unobserved fuel a :
  computes a ->
  forall s s',
    (forall c, In c (LinkFacts.targets a) -> observers s c = [] /\ ~ In c sources) ->
    exec assertions (set_ fuel) a s = (Returned, s') ->
    recomputed s' /\ observers s' = observers s.
Proof.
  assert (Hk : forall k s s',
             ~ In B (LinkFacts.targets k) ->
             (forall c, In c (LinkFacts.targets k) ->
                        observers s c = [] /\ ~ In c sources) ->
             recomputed s ->
             exec assertions (set_ fuel) k s = (Returned, s') ->
             recomputed s' /\ observers s' = observers s).
  { induction k as [| c e k IHk | b msg k IHk | msg | x k IHk | b a1 IH1 k IHk];
      intros s s' HB HT Hr; simpl in *; unfold bind.
    - intros H. inversion H; subst. auto.
    - destruct (set_ fuel c (e s) s) as [[| err |] s1] eqn:E; try discriminate.
      destruct (HT c (or_introl eq_refl)) as [Ho Hc].
      intros H. destruct (IHk s1 s') as [H1 H2]; trivial.
      + tauto.
      + intros c' Hc'. destruct (HT c' (or_intror Hc')) as [Ho' Hc''].
        split; trivial.
        destruct (set_unobserved_result _ _ _ _ Ho E) as [-> | ->]; trivial.
      + destruct (set_unobserved_result _ _ _ _ Ho E) as [-> | ->]; trivial.
        apply recomputed_changed; tauto.
      + split; trivial. rewrite H2.
        destruct (set_unobserved_result _ _ _ _ Ho E) as [-> | ->]; trivial.
    - destruct (assertions && negb (b s)); simpl; [discriminate | auto].
    - discriminate.
    - intros H. destruct (IHk (assigned x s) s') as [H1 H2]; trivial.
      + revert Hr. apply recomputed_same; reflexivity.
      + auto.
    - assert (HB1 : ~ In B (LinkFacts.targets a1))
        by (intros H; apply HB, in_or_app; auto).
      assert (HBk : ~ In B (LinkFacts.targets k))
        by (intros H; apply HB, in_or_app; auto).
      assert (HT1 : forall c, In c (LinkFacts.targets a1) ->
                              observers s c = [] /\ ~ In c sources)
        by (intros c Hc; apply HT, in_or_app; auto).
      destruct (b s).
      + destruct (exec assertions (set_ fuel) a1 s) as [[| err |] s1] eqn:E;
          try discriminate.
        destruct (IH1 s s1 HB1 HT1 Hr E) as [H1 H2].
        intros H. destruct (IHk s1 s') as [H3 H4]; trivial.
        * intros c Hc. rewrite H2. apply HT, in_or_app. auto.
        * split; trivial. congruence.
      + apply IHk; trivial. intros c Hc. apply HT, in_or_app. auto. }
  induction 1 as [k HB | c e k Hc _ IH | b msg k _ IH]; intros s s' HT; simpl in *;
    unfold bind.
  - destruct (set_ fuel B (g s) s) as [[| err |] s1] eqn:E; try discriminate.
    destruct (HT B (or_introl eq_refl)) as [Ho _].
    intros H. destruct (Hk k s1 s') as [H1 H2]; trivial.
    + intros c Hc. destruct (HT c (or_intror Hc)) as [Ho' Hc'].
      split; trivial.
      destruct (set_unobserved_result _ _ _ _ Ho E) as [-> | ->]; trivial.
    + destruct (fuel) as [| n]; [discriminate |]. simpl in E.
      destruct (negb (isValidValue B (g s))); [discriminate |].
      destruct (g s =? get s B) eqn:Eg.
      * inversion E; subst. right. exact Eg.
      * rewrite Ho in E. simpl in E. inversion E; subst.
        left. rewrite LinkFacts.changed_same. symmetry. apply g_sources.
        intros a Ha. apply LinkFacts.changed_other. intros <-. tauto.
    + split; trivial. rewrite H2.
      destruct (set_unobserved_result _ _ _ _ Ho E) as [-> | ->]; trivial.
  - destruct (set_ fuel c (e s) s) as [[| err |] s1] eqn:E; try discriminate.
    destruct (HT c (or_introl eq_refl)) as [Ho _].
    intros H. destruct (IH s1 s') as [H1 H2]; trivial.
    + intros c' Hc'. destruct (HT c' (or_intror Hc')) as [Ho' Hc''].
      split; trivial.
      destruct (set_unobserved_result _ _ _ _ Ho E) as [-> | ->]; trivial.
    + split; trivial. rewrite H2.
      destruct (set_unobserved_result _ _ _ _ Ho E) as [-> | ->]; trivial.
  - destruct (assertions && negb (b s)); simpl; [discriminate | auto].
Qed.

(** [new DerivedProperty] of the cell [B] itself, or of the cell with
    which [B] is computed: from then on [B] is up to date. *)
Lemma derive_establishes fuel c deps s s' :
  (forall c' l, In l (observers s c') -> In l (table c')) ->
  ~ In c sources ->
  (forall a, In a sources -> In a deps) ->
  (forall d, In d deps -> In link (table d)) ->
  (forall c', In c' (LinkFacts.targets (body link 0)) ->
              c' = c \/ observers s c' = []) ->
  derive cell_eq_dec assertions isValidValue body fuel c deps link s = (Returned, s') ->
  settled s'.
Proof.
  intros Hs Hc Hd Hl Hu. unfold derive, bind.
  destruct (exec assertions (set_ fuel) (body link 0) (create cell_eq_dec c 0 s))
    as [[| err |] s1] eqn:E; try discriminate.
  intros H. injection H as <-.
  assert (HT : forall c', In c' (LinkFacts.targets (body link 0)) ->
                          observers (create cell_eq_dec c 0 s) c' = []
                          /\ ~ In c' sources).
  { intros c' Hc'. split; [| exact (link_spares_sources 0 c' Hc')].
    unfold create, update. simpl.
    destruct (cell_eq_dec c c') as [-> | n]; trivial.
    destruct (Hu c' Hc') as [-> | Ho]; [congruence | exact Ho]. }
  destruct (@exec_computes_unobserved fuel (body link 0) (link_computes 0) _ _ HT E)
    as [Hr Ho].
  assert (Hs1 : forall c' l, In l (observers s1 c') -> In l (table c')).
  { rewrite Ho. intros c' l. unfold create, update. simpl.
    destruct (cell_eq_dec c c'); [contradiction | apply Hs]. }
  clear E Ho. revert s1 Hr Hs1.
  assert (Hgen : forall ds s1,
             (forall d, In d ds -> In link (table d)) ->
             recomputed s1 ->
             (forall c' l, In l (observers s1 c') -> In l (table c')) ->
             let s2 := fold_left (fun t d => subscribe cell_eq_dec d link t) ds s1 in
             recomputed s2
             /\ (forall c' l, In l (observers s2 c') -> In l (table c'))
             /\ (forall a, In a ds \/ In link (observers s1 a) ->
                           In link (observers s2 a))).
  { induction ds as [| d ds IH]; intros s1 Hl1 Hr Hs1; simpl.
    - split; trivial. split; trivial. intros a [[] | Ha]. exact Ha.
    - destruct (IH (subscribe cell_eq_dec d link s1)) as (H1 & H2 & H3).
      + intros d' Hd'. apply Hl1. right. exact Hd'.
      + revert Hr. apply recomputed_same; reflexivity.
      + intros c' l. unfold subscribe, update. simpl.
        destruct (cell_eq_dec d c') as [<- | _]; [| apply Hs1].
        intros Hi. apply in_app_or in Hi. destruct Hi as [Hi | [<- | []]]; auto.
        apply Hl1. left. reflexivity.
      + split; trivial. split; trivial.
        intros a Ha. apply H3. unfold subscribe, update. simpl.
        destruct (cell_eq_dec d a) as [<- | n].
        * right. apply in_or_app. right. left. reflexivity.
        * destruct Ha as [[Ha | Ha] | Ha]; [congruence | auto | auto]. }
  intros s1 Hr Hs1. destruct (Hgen deps s1 Hl Hr Hs1) as (H1 & H2 & H3).
  split; [split |]; trivial.
  intros a Ha. apply H3. left. apply Hd, Ha.
Qed.

(** *** The steps of a constructor *)

Inductive step : Type :=
  | Create (c : cell) (v : float)                       (* new Property( v ) *)
  | Derive (c : cell) (deps : list cell) (l : listener) (* new DerivedProperty( deps, l ) *)
  | Link (c : cell) (l : listener).                     (* c.link( l ) *)

Definition run (fuel : nat) (st : step) : store -> result :=
  match st with
  | Create c v => fun s => (Returned, create cell_eq_dec c v s)
  | Derive c deps l => derive cell_eq_dec assertions isValidValue body fuel c deps l
  | Link c l => Axon.link cell_eq_dec assertions isValidValue body fuel c l
  end.

(** The subscriptions that a step makes. *)
Definition wiring_of (st : step) : list (SpringFacts.wiring cell listener) :=
  match st with
  | Create c _ => [SpringFacts.Fresh listener c]
  | Derive c deps l =>
      SpringFacts.Fresh listener c :: map (fun d => SpringFacts.Sub d l) deps
  | Link c l => [SpringFacts.Sub c l]
  end.

Lemma run_wired fuel st s s' :
  run fuel st s = (Returned, s') ->
  observers s' = SpringFacts.wired_by cell_eq_dec (wiring_of st) (observers s).
Proof.
  destruct st as [c v | c deps l | c l]; simpl run; intros H.
  - eapply SpringFacts.create_wired. exact H.
  - eapply SpringFacts.derive_wired. exact H.
  - eapply SpringFacts.link_wired. exact H.
Qed.

Lemma steps_wired fuel sts :
  forall s s',
    steps (map (run fuel) sts) s = (Returned, s') ->
    observers s'
    = SpringFacts.wired_by cell_eq_dec (flat_map wiring_of sts) (observers s).
Proof.
  induction sts as [| st sts IH]; intros s s' H.
  - apply SpringFacts.steps_nil in H. subst. reflexivity.
  - simpl map in H. apply SpringFacts.steps_cons in H. destruct H as (s1 & H1 & H).
    simpl flat_map. rewrite SpringFacts.wired_by_app.
    rewrite <- (run_wired _ _ _ H1). apply IH, H.
Qed.

(** Steps that leave [B] to its listener. *)
Fixpoint benign (sts : list step) : Prop :=
  match sts with
  | [] => True
  | Create c _ :: sts' => c <> B /\ ~ In c sources /\ benign sts'
  | Derive c deps l :: sts' =>
      c <> B /\ ~ In c sources /\ deps <> []
      /\ (forall d, In d deps -> In l (table d)) /\ benign sts'
  | Link c l :: sts' => In l (table c) /\ benign sts'
  end.

Lemma steps_benign fuel sts :
  forall s s',
    benign sts -> settled s ->
    steps (map (run fuel) sts) s = (Returned, s') -> settled s'.
Proof.
  induction sts as [| st sts IH]; intros s s' Hb Hs H.
  - apply SpringFacts.steps_nil in H. subst. exact Hs.
  - simpl map in H. apply SpringFacts.steps_cons in H. destruct H as (s1 & H1 & H).
    destruct st as [c v | c deps l | c l]; simpl in Hb, H1.
    + destruct Hb as (a & b & Hb). injection H1 as <-.
      eapply IH; [exact Hb | | exact H]. apply create_settled; trivial.
    + destruct Hb as (a & b & c' & d & Hb).
      eapply IH; [exact Hb | | exact H]. eapply derive_settled; eauto.
    + destruct Hb as (a & Hb).
      eapply IH; [exact Hb | | exact H]. eapply link_settled; eauto.
Qed.

(** A constructor that creates the derived cell keeps it up to date from
    then on. *)
Theorem construction_settled fuel pre c deps post s s' :
  steps (map (run fuel) (pre ++ Derive c deps link :: post)) s = (Returned, s') ->
  (forall c' l,
      In l (SpringFacts.wired_by cell_eq_dec (flat_map wiring_of pre) (observers s) c') ->
      In l (table c')) ->
  ~ In c sources ->
  (forall a, In a sources -> In a deps) ->
  (forall d, In d deps -> In link (table d)) ->
  (forall c',
      In c' (LinkFacts.targets (body link 0)) ->
      c' = c
      \/ SpringFacts.wired_by cell_eq_dec (flat_map wiring_of pre) (observers s) c' = []) ->
  benign post ->
  settled s'.
Proof.
  intros H Hs Hc Hd Hl Hu Hb.
  rewrite map_app in H.
  assert (Hsplit : exists s1,
             steps (map (run fuel) pre) s = (Returned, s1)
             /\ steps (map (run fuel) (Derive c deps link :: post)) s1 = (Returned, s')).
  { clear - H. revert s H. induction pre as [| st pre IH]; intros s H; simpl in *.
    - exists s. auto.
    - unfold bind in *. destruct (run fuel st s) as [[| err |] s1]; try discriminate.
      apply IH, H. }
  destruct Hsplit as (s1 & H1 & H2).
  apply steps_wired in H1.
  simpl map in H2. apply SpringFacts.steps_cons in H2. destruct H2 as (s2 & H2 & H3).
  simpl run in H2. rewrite <- H1 in Hs, Hu.
  eapply steps_benign; [exact Hb | | exact H3].
  eapply derive_establishes; eauto.
Qed.

End Facts.
End DerivedFacts.

(* ================================================================= *)
(** ** The derived cells of a spring *)

Module SpringDerived.
Import Spring.

(** The derived cells of a spring ([rightRange] is kept as its two
    bounds). *)
Inductive derivedProperty : Type :=
  | springForce
  | equilibriumX
  | right
  | rightRangeMinimum
  | rightRangeMaximum
  | length
  | energy.

Definition cellOf (d : derivedProperty) : property :=
  match d with
  | springForce => springForceProperty
  | equilibriumX => equilibriumXProperty
  | right => rightProperty
  | rightRangeMinimum => rightRangeMin
  | rightRangeMaximum => rightRangeMax
  | length => lengthProperty
  | energy => energyProperty
  end.

(** The listener that recomputes the cell. *)
Definition listenerOf (d : derivedProperty) : observer :=
  match d with
  | springForce => deriveSpringForce
  | equilibriumX => deriveEquilibriumX
  | right => deriveRight
  | rightRangeMinimum | rightRangeMaximum => deriveRightRange
  | length => deriveLength
  | energy => deriveEnergy
  end.

Section Instance.

Variables cell listener X : Type.
Variable P : property -> cell.
Variable self : fields.

Hypothesis P_injective : forall a b, P a = P b -> a = b.

(** The cells that the derivation reads. *)
Definition dependencies (d : derivedProperty) : list property :=
  match d with
  | springForce => [appliedForceProperty]
  | equilibriumX => [leftProperty]
  | right => [equilibriumXProperty; displacementProperty]
  | rightRangeMinimum | rightRangeMaximum =>
      if forceDriven self
      then [springConstantProperty; equilibriumXProperty]
      else [equilibriumXProperty]
  | length => [leftProperty; rightProperty]
  | energy => [springConstantProperty; displacementProperty]
  end.

Definition sources (d : derivedProperty) : list cell := map P (dependencies d).

(** The value that the derivation computes in the state [s]. *)
Definition derivation (d : derivedProperty) (s : store cell listener X) : float :=
  match d with
  | springForce => - get s (P appliedForceProperty)
  | equilibriumX => get s (P leftProperty) + self_equilibriumLength self
  | right => get s (P equilibriumXProperty) + get s (P displacementProperty)
  | rightRangeMinimum =>
      if forceDriven self
      then get s (P equilibriumXProperty)
           + min (self_appliedForceRange self) / get s (P springConstantProperty)
      else get s (P equilibriumXProperty) + min (self_displacementRange self)
  | rightRangeMaximum =>
      if forceDriven self
      then get s (P equilibriumXProperty)
           + max (self_appliedForceRange self) / get s (P springConstantProperty)
      else get s (P equilibriumXProperty) + max (self_displacementRange self)
  | length => Math.abs (get s (P rightProperty) - get s (P leftProperty))
  | energy =>
      get s (P springConstantProperty) * get s (P displacementProperty)
      * get s (P displacementProperty) / 2
  end.

(** Every derived cell holds the value of its derivation. *)
Definition derived (s : store cell listener X) : Prop :=
  forall d, holds (get s (P (cellOf d))) (derivation d s).

Lemma dependencies_only d s s' :
  (forall a, In a (sources d) -> get s' a = get s a) ->
  derivation d s' = derivation d s.
Proof.
  intros H. destruct d; unfold derivation, sources, dependencies in *;
    try destruct (forceDriven self);
    rewrite ?(H (P appliedForceProperty)), ?(H (P leftProperty)),
      ?(H (P equilibriumXProperty)), ?(H (P displacementProperty)),
      ?(H (P springConstantProperty)), ?(H (P rightProperty))
      by (simpl; tauto);
    reflexivity.
Qed.

Lemma distinct a b : a <> b -> P a <> P b.
Proof. intros H E. apply H, P_injective, E. Qed.

Ltac apart :=
  let H := fresh "H" in
  simpl; intros H;
  repeat (destruct H as [H | H]; [apply P_injective in H; discriminate H |]);
  contradiction.

Lemma listener_computes d v :
  DerivedFacts.computes (P (cellOf d)) (derivation d) (body P self (listenerOf d) v).
Proof.
  destruct d; simpl; unfold derivation;
    try destruct (forceDriven self);
    repeat first
      [ apply DerivedFacts.computes_here; apart
      | apply DerivedFacts.computes_checked
      | apply DerivedFacts.computes_after; [apply distinct; discriminate |] ].
Qed.

Lemma cell_not_dependency d : ~ In (P (cellOf d)) (sources d).
Proof.
  destruct d; unfold sources, dependencies; try destruct (forceDriven self); apart.
Qed.

End Instance.
End SpringDerived.

(* ================================================================= *)
(** ** A spring on its own: the derived cells *)

Module SingleSpringDerived.
Import Spring SingleSpringFacts SpringDerived.

Section Facts.

Variable assertions : bool.
Variable o : options.

#[local] Abbreviation self := (SingleSpring.self o).
#[local] Abbreviation state := SingleSpring.state.

Definition dependencies : derivedProperty -> list property :=
  SpringDerived.dependencies self.

Definition derivation : derivedProperty -> state -> float :=
  SpringDerived.derivation (fun p => p) self.

(** Every derived cell holds the value of its derivation. *)
Definition derived : state -> Prop := SpringDerived.derived (fun p => p) self.

Lemma sources_dependencies d :
  SpringDerived.sources (fun p : property => p) self d = dependencies d.
Proof. apply map_id. Qed.

Lemma derivation_dependencies d s s' :
  (forall a, In a (dependencies d) -> get s' a = get s a) ->
  derivation d s' = derivation d s.
Proof.
  intros H. apply SpringDerived.dependencies_only.
  rewrite sources_dependencies. exact H.
Qed.

Lemma listener_derives d v :
  DerivedFacts.computes (cellOf d) (derivation d) (SingleSpring.body o (listenerOf d) v).
Proof.
  apply (@SpringDerived.listener_computes _ _ _ (fun p : property => p) self).
  trivial.
Qed.

Lemma cell_apart d : ~ In (cellOf d) (dependencies d).
Proof.
  rewrite <- sources_dependencies.
  apply (@SpringDerived.cell_not_dependency _ (fun p : property => p)). trivial.
Qed.

Ltac each_observer Hl :=
  simpl in Hl;
  repeat (destruct Hl as [<- | Hl]; [| try contradiction]);
  try contradiction.

Lemma only_listener_writes d p l v :
  In l (table o p) ->
  In (cellOf d) (LinkFacts.targets (SingleSpring.body o l v)) ->
  l = listenerOf d.
Proof.
  intros Hl HB. unfold table in Hl. unfold SingleSpring.body in HB.
  destruct (forceDriven self) eqn:Hfd;
    destruct p; each_observer Hl;
    simpl in HB; rewrite ?Hfd in HB; simpl in HB;
    destruct d; simpl in HB; intuition (try discriminate; try reflexivity).
Qed.

Lemma listener_spares_dependencies d v p :
  In p (LinkFacts.targets (SingleSpring.body o (listenerOf d) v)) ->
  ~ In p (dependencies d).
Proof.
  unfold SingleSpring.body, dependencies, SpringDerived.dependencies.
  destruct (forceDriven self) eqn:Hfd;
    destruct d; simpl; rewrite ?Hfd; simpl;
    intros H; repeat (destruct H as [<- | H]; [| try contradiction]);
    try contradiction; intuition discriminate.
Qed.

(** Writes keep the derived cells up to date. *)
Lemma set_derived d fuel p v s s' :
  wired o s -> p <> cellOf d ->
  Axon.set property_eq_dec assertions (fun _ _ => true) (SingleSpring.body o) fuel p v s
  = (Returned, s') ->
  holds (get s (cellOf d)) (derivation d s) ->
  holds (get s' (cellOf d)) (derivation d s').
Proof.
  intros Hw Hp E.
  destruct (@DerivedFacts.derived_rule_set _ _ _ property_eq_dec assertions
              (fun _ _ => true) (SingleSpring.body o) (table o)
              (dependencies d) (cellOf d) (listenerOf d) (derivation d)
              (@cell_apart d) (@derivation_dependencies d)
              (@listener_derives d) (@only_listener_writes d) fuel p v s) as [HR _].
  unfold DerivedFacts.derived_rule in HR. rewrite E in HR. simpl in HR.
  destruct (property_eq_dec p (cellOf d)) as [-> | _]; [congruence |].
  apply HR; trivial. split.
  - intros c l. rewrite (Hw c). trivial.
  - intros a Ha. rewrite (Hw a).
    unfold dependencies, SpringDerived.dependencies in Ha. unfold table.
    destruct (forceDriven self); destruct d; simpl in Ha |- *;
      intuition (subst; simpl; tauto).
Qed.

(** The steps of [new Spring( options )] once the options are
    validated. *)
Definition new_steps (this : fields)
  : list (DerivedFacts.step property observer) :=
  [ DerivedFacts.Create observer appliedForceProperty
      (defaultValue (self_appliedForceRange this));
    DerivedFacts.Create observer springConstantProperty
      (defaultValue (self_springConstantRange this));
    DerivedFacts.Create observer displacementProperty
      (defaultValue (self_displacementRange this));
    DerivedFacts.Create observer leftProperty (left o);
    DerivedFacts.Derive springForceProperty [appliedForceProperty] deriveSpringForce;
    DerivedFacts.Derive equilibriumXProperty [leftProperty] deriveEquilibriumX;
    DerivedFacts.Derive rightProperty [equilibriumXProperty; displacementProperty]
      deriveRight;
    DerivedFacts.Create observer rightRangeMin 0;
    DerivedFacts.Derive rightRangeMax
      (if forceDriven this
       then [springConstantProperty; equilibriumXProperty]
       else [equilibriumXProperty])
      deriveRightRange;
    DerivedFacts.Derive lengthProperty [leftProperty; rightProperty] deriveLength;
    DerivedFacts.Derive energyProperty [springConstantProperty; displacementProperty]
      deriveEnergy;
    DerivedFacts.Link appliedForceProperty observeAppliedForce;
    DerivedFacts.Link springConstantProperty observeSpringConstant;
    DerivedFacts.Link displacementProperty observeDisplacement ].

Lemma new_runs fuel s :
  SingleSpring.new assertions o fuel = (Returned, s) ->
  exists this,
    fields_of o = Some this
    /\ steps (map (DerivedFacts.run property_eq_dec assertions (fun _ _ => true)
                     (SingleSpring.body o) fuel) (new_steps this))
             (empty property observer tt)
       = (Returned, s).
Proof.
  unfold SingleSpring.new, Spring.new. intros H.
  repeat (apply SpringFacts.steps_cons in H; destruct H as (? & Ha & H);
          try (apply SpringFacts.assert_returned in Ha; subst)).
  apply SpringFacts.steps_nil in H. subst.
  destruct (fields_of o) as [this |]; try discriminate.
  exists this. split; trivial.
Qed.

(** Where the constructor creates each derived cell. *)
Definition position (d : derivedProperty) : nat :=
  match d with
  | springForce => 4
  | equilibriumX => 5
  | right => 6
  | rightRangeMinimum | rightRangeMaximum => 8
  | length => 9
  | energy => 10
  end.

Lemma new_derived fuel s :
  SingleSpring.new assertions o fuel = (Returned, s) -> derived s.
Proof.
  intros H d. apply new_runs in H. destruct H as (this & Hf & H).
  assert (Hself : self = this) by (unfold SingleSpring.self; rewrite Hf; reflexivity).
  apply (@DerivedFacts.construction_settled _ _ _ property_eq_dec assertions
           (fun _ _ => true) (SingleSpring.body o) (table o)
           (dependencies d) (cellOf d) (listenerOf d) (derivation d)
           (@cell_apart d) (@derivation_dependencies d)
           (@listener_derives d) (@only_listener_writes d)
           (@listener_spares_dependencies d) fuel
           (firstn (position d) (new_steps this))
           (match d with rightRangeMinimum => rightRangeMax | _ => cellOf d end)
           (dependencies d)
           (skipn (S (position d)) (new_steps this))
           (empty property observer tt) s).
  - unfold dependencies, SpringDerived.dependencies. rewrite Hself. destruct d; exact H.
  - intros c' l. unfold table, new_steps. rewrite Hself.
    destruct (forceDriven this); destruct d; destruct c'; simpl; tauto.
  - unfold dependencies, SpringDerived.dependencies. rewrite Hself.
    destruct (forceDriven this); destruct d; simpl; intuition discriminate.
  - trivial.
  - unfold dependencies, SpringDerived.dependencies, table. rewrite Hself.
    destruct (forceDriven this); destruct d; simpl; intuition (subst; simpl; tauto).
  - unfold SingleSpring.body, new_steps. rewrite Hself.
    destruct (forceDriven this) eqn:Hfd; destruct d; simpl; rewrite ?Hfd; simpl;
      intros c' Hc'; repeat (destruct Hc' as [<- | Hc']; [| try contradiction]);
      try contradiction; auto.
  - unfold dependencies, SpringDerived.dependencies, table, new_steps. rewrite Hself.
    destruct (forceDriven this); destruct d; simpl;
      repeat split; try discriminate; intuition (try discriminate; subst; simpl; tauto).
Qed.

(** The derived cells are up to date in every state that the constructor
    or a write from outside returns in. *)
Lemma reachable_derived s : reachable assertions o s -> derived s.
Proof.
  induction 1 as [fuel s H | fuel p v s s' Hs IH H].
  - eapply new_derived, H.
  - intros d. apply reachable_wired_hooke in Hs.
    unfold SingleSpring.set, external_set in H.
    destruct (isDerived p) eqn:Hd; try discriminate.
    eapply set_derived; [apply Hs | | exact H | apply IH].
    intros ->. destruct d; discriminate.
Qed.

End Facts.
End SingleSpringDerived.

(* ================================================================= *)
(** ** The series system: the derived cells of the three springs *)

Module SeriesDerived.
Import SeriesSystem SeriesFacts SpringDerived.

(** A spring of the system: where its cells and its listeners are in the
    world, and its read-only fields. *)
Record component : Type := mkComponent {
    cells : Spring.property -> cell;
    listeners : Spring.observer -> listener;
    fields : Spring.fields
  }.

Definition springs : list component :=
  [ mkComponent leftSpring ofLeftSpring (springFields leftSpringOptions);
    mkComponent rightSpring ofRightSpring (springFields (rightSpringOptions 0));
    mkComponent equivalentSpring ofEquivalentSpring
                (springFields (equivalentSpringOptions 0)) ].

(** Every derived cell of the spring holds the value of its derivation. *)
Definition derived (w : component) : state -> Prop :=
  SpringDerived.derived (cells w) (fields w).

Lemma cells_injective w a b : In w springs -> cells w a = cells w b -> a = b.
Proof.
  intros [<- | [<- | [<- | []]]]; simpl; congruence.
Qed.

Lemma body_listener w o v :
  In w springs -> body (listeners w o) v = Spring.body (cells w) (fields w) o v.
Proof.
  intros [<- | [<- | [<- | []]]]; reflexivity.
Qed.

Lemma series_listener_writes w d c l v :
  In w springs -> In l (table c) ->
  In (cells w (cellOf d)) (LinkFacts.targets (body l v)) ->
  l = listeners w (listenerOf d).
Proof.
  intros Hw Hl HB.
  destruct Hw as [<- | [<- | [<- | []]]];
    destruct c as [p | p | p |]; try destruct p;
    each_listener Hl; cbn in HB;
    destruct d; simpl in HB |- *;
    intuition (try discriminate; try reflexivity).
Qed.

Lemma listener_subscribed w d a :
  In w springs -> In a (sources (cells w) (fields w) d) ->
  In (listeners w (listenerOf d)) (table a).
Proof.
  intros [<- | [<- | [<- | []]]] Ha; destruct d; cbn in Ha;
    repeat (destruct Ha as [<- | Ha]; [simpl; tauto |]); contradiction.
Qed.

(** Writes keep the derived cells up to date. *)
Lemma series_set_derived assertions w d fuel c v s s' :
  In w springs -> wired s -> c <> cells w (cellOf d) ->
  Axon.set cell_eq_dec assertions isValidValue body fuel c v s = (Returned, s') ->
  holds (get s (cells w (cellOf d))) (derivation (cells w) (fields w) d s) ->
  holds (get s' (cells w (cellOf d))) (derivation (cells w) (fields w) d s').
Proof.
  intros Hin Hw Hc E.
  destruct (@DerivedFacts.derived_rule_set _ _ _ cell_eq_dec assertions
              isValidValue body table
              (sources (cells w) (fields w) d) (cells w (cellOf d))
              (listeners w (listenerOf d)) (derivation (cells w) (fields w) d)
              (@cell_not_dependency _ (cells w) (fields w)
                 (fun a b => @cells_injective w a b Hin) d)
              (@dependencies_only _ _ _ (cells w) (fields w) d))
    with (fuel := fuel) (c := c) (v := v) (s := s) as [HR _].
  - intros u. rewrite body_listener by exact Hin.
    apply listener_computes. intros a b. apply cells_injective, Hin.
  - intros c' l u. apply series_listener_writes, Hin.
  - unfold DerivedFacts.derived_rule in HR. rewrite E in HR. simpl in HR.
    destruct (cell_eq_dec c (cells w (cellOf d))) as [-> | _]; [congruence |].
    apply HR; trivial. split.
    + intros c' l. rewrite (Hw c'). trivial.
    + intros a Ha. rewrite (Hw a). apply listener_subscribed; trivial.
Qed.

Lemma constructed_derived assertions w :
  In w springs -> derived w (constructed assertions).
Proof.
  intros [<- | [<- | [<- | []]]] d; destruct assertions; destruct d;
    first [left; vm_compute; reflexivity | right; vm_compute; reflexivity].
Qed.

Lemma input_not_derived w d c :
  In w springs -> SeriesInvariants.input c = true -> c <> cells w (cellOf d).
Proof.
  intros [<- | [<- | [<- | []]]] Hc ->; destruct d; discriminate.
Qed.

(** The derived cells of the three springs are up to date in every
    settled state. *)
Lemma series_reachable_derived assertions p s w :
  SeriesInvariants.reachable assertions p s -> In w springs -> derived w s.
Proof.
  intros Hs Hw. induction Hs as [fuel s E | fuel c v p s s' Hr IH Hc E].
  - apply new_returned in E. subst s. apply constructed_derived, Hw.
  - intros d. rewrite SeriesInvariants.input_set in E by exact Hc.
    eapply series_set_derived; [exact Hw | | | exact E | apply IH].
    + apply (SeriesInvariants.reachable_wired Hr).
    + apply input_not_derived; trivial.
Qed.

End SeriesDerived.

(* ================================================================= *)
(** ** Cells that only their own listeners write *)

(** A family of cells, [fixed], is closed when the listeners of the cells
    outside the family write no cell of the family. A write to a cell
    outside the family then leaves every cell of the family as it was,
    however the write ends. *)
Module FixedFacts.
Section Facts.

Variables cell listener X : Type.
Variable cell_eq_dec : forall a b : cell, {a = b} + {a <> b}.
Variable assertions : bool.
Variable isValidValue : cell -> float -> bool.
Variable body : listener -> float -> action cell listener X.
Variable table : cell -> list listener.

#[local] Abbreviation store := (store cell listener X).
#[local] Abbreviation result := (result cell listener X).
#[local] Abbreviation set_ := (set cell_eq_dec assertions isValidValue body).
#[local] Abbreviation wired := (LinkFacts.wired table).

Variable fixed : cell -> bool.

Definition spares (a : action cell listener X) : Prop :=
  forall t, In t (LinkFacts.targets a) -> fixed t = false.

Hypothesis fixed_closed :
  forall c l v, fixed c = false -> In l (table c) -> spares (body l v).

Definition unmoved (s s' : store) : Prop :=
  (forall a, fixed a = true -> get s' a = get s a)
  /\ observers s' = observers s.

Lemma unmoved_transitive s1 s2 s3 : unmoved s1 s2 -> unmoved s2 s3 -> unmoved s1 s3.
Proof.
  intros [H1 O1] [H2 O2]. split; [| congruence].
  intros a Ha. rewrite H2, H1; trivial.
Qed.

Lemma unmoved_reflexive s : unmoved s s.
Proof. split; trivial. Qed.

Definition keeps (set' : cell -> float -> store -> result) : Prop :=
  forall c v s, wired s -> fixed c = false -> unmoved s (snd (set' c v s)).

Lemma unmoved_wired s s' : unmoved s s' -> wired s -> wired s'.
Proof. intros [_ H]. apply LinkFacts.wired_preserved, H. Qed.

Lemma exec_unmoved set' a :
  keeps set' -> spares a ->
  forall s, wired s -> unmoved s (snd (exec assertions set' a s)).
Proof.
  intros Hk.
  induction a as [| c e k IHk | b msg k IHk | msg | x k IHk | b a1 IH1 k IHk];
    intros Ha s Hw; simpl; unfold bind; try apply unmoved_reflexive.
  - assert (H1 : unmoved s (snd (set' c (e s) s)))
      by (apply Hk; [exact Hw | apply Ha; simpl; tauto]).
    destruct (set' c (e s) s) as [[| err |] s1]; simpl in *; trivial.
    eapply unmoved_transitive; [exact H1 |].
    apply IHk; [intros t Ht; apply Ha; simpl; tauto | eapply unmoved_wired; eassumption].
  - destruct (assertions && negb (b s)); simpl; [apply unmoved_reflexive |].
    apply IHk; trivial.
  - apply (IHk Ha (assigned x s)). exact Hw.
  - assert (Ha1 : spares a1) by (intros t Ht; apply Ha; simpl; apply in_or_app; auto).
    assert (Hak : spares k) by (intros t Ht; apply Ha; simpl; apply in_or_app; auto).
    destruct (b s); [| apply IHk; trivial].
    specialize (IH1 Ha1 s Hw).
    destruct (exec assertions set' a1 s) as [[| err |] s1]; simpl in *; trivial.
    eapply unmoved_transitive; [exact IH1 |].
    apply IHk; [exact Hak | eapply unmoved_wired; eassumption].
Qed.

Lemma notify_unmoved set' ls v :
  keeps set' -> (forall l, In l ls -> spares (body l v)) ->
  forall s, wired s -> unmoved s (snd (notify assertions body set' ls v s)).
Proof.
  intros Hk. induction ls as [| l ls IH]; intros Hs s Hw; simpl; unfold bind;
    try apply unmoved_reflexive.
  assert (H1 : unmoved s (snd (exec assertions set' (body l v) s)))
    by (apply exec_unmoved; [exact Hk | apply Hs; simpl; tauto | exact Hw]).
  destruct (exec assertions set' (body l v) s) as [[| err |] s1]; simpl in *; trivial.
  eapply unmoved_transitive; [exact H1 |].
  apply IH; [intros l' Hl'; apply Hs; simpl; tauto | eapply unmoved_wired; eassumption].
Qed.

Theorem set_unmoved fuel : keeps (set_ fuel).
Proof.
  induction fuel as [| n IH]; intros c v s Hw Hc; simpl; try apply unmoved_reflexive.
  destruct (negb (isValidValue c v)); simpl; try apply unmoved_reflexive.
  destruct (v =? get s c); simpl; try apply unmoved_reflexive.
  apply unmoved_transitive with (s2 := changed cell_eq_dec c v s).
  - split; [| reflexivity]. intros a Ha. apply LinkFacts.changed_other.
    intros ->. congruence.
  - apply notify_unmoved; [exact IH | | exact Hw].
    intros l Hl. apply fixed_closed with (c := c); [exact Hc |].
    rewrite <- (Hw c). exact Hl.
Qed.

End Facts.
End FixedFacts.

(* ================================================================= *)
(** ** The series system: the fixed ends *)

Module SeriesFixed.
Import SeriesSystem SeriesFacts.

(** The left end and the equilibrium position of the left spring and of
    the equivalent spring. *)
Definition fixed (c : cell) : bool :=
  match c with
  | leftSpring Spring.leftProperty
  | leftSpring Spring.equilibriumXProperty
  | equivalentSpring Spring.leftProperty
  | equivalentSpring Spring.equilibriumXProperty => true
  | _ => false
  end.

Lemma fixed_closed c l v :
  fixed c = false -> In l (table c) ->
  FixedFacts.spares fixed (body l v).
Proof.
  intros Hc Hl t Ht.
  destruct c as [p | p | p |]; try destruct p; try discriminate;
    each_listener Hl; cbn in Ht;
    repeat (destruct Ht as [<- | Ht]; [reflexivity |]); contradiction.
Qed.

Lemma input_not_fixed c : SeriesInvariants.input c = true -> fixed c = false.
Proof.
  destruct c as [p | p | p |]; try destruct p; try discriminate; reflexivity.
Qed.

Lemma set_fixed assertions fuel c v s a :
  wired s -> fixed c = false -> fixed a = true ->
  get (snd (Axon.set cell_eq_dec assertions isValidValue body fuel c v s)) a = get s a.
Proof.
  intros Hw Hc Ha.
  apply (@FixedFacts.set_unmoved _ _ _ cell_eq_dec assertions isValidValue body
           table fixed fixed_closed fuel c v s Hw Hc); exact Ha.
Qed.

(** The fixed ends hold the values that the constructor gave them. *)
Lemma reachable_fixed assertions p s a :
  SeriesInvariants.reachable assertions p s -> fixed a = true ->
  get s a = get (constructed assertions) a.
Proof.
  intros Hs Ha. induction Hs as [fuel s E | fuel c v p s s' Hr IH Hc E].
  - apply new_returned in E. subst s. reflexivity.
  - rewrite <- IH. rewrite SeriesInvariants.input_set in E by exact Hc.
    change s' with (snd (Returned, s')). rewrite <- E.
    apply set_fixed; trivial.
    + apply (SeriesInvariants.reachable_wired Hr).
    + apply input_not_fixed, Hc.
Qed.

End SeriesFixed.

(* ================================================================= *)
(** ** The robotic arm: [reset] *)

Module RoboticArmReset.
Import RoboticArm.

Section Facts.
Variable o : options.

(** The value the cell was created with is never overwritten. *)
Lemma arm_set_initialValue fuel v s :
  initialValue (snd (set o (S fuel) v s)) = initialValue s.
Proof.
  rewrite RoboticArmFacts.set_checks_and_stores.
  destruct (v <? right o); trivial. simpl.
  destruct (v =? get s); reflexivity.
Qed.

Lemma sets_initialValue fuel vs :
  forall s, initialValue (sets o (S fuel) vs s) = initialValue s.
Proof.
  induction vs as [| v vs IH]; intros s; cbn [sets]; trivial.
  rewrite IH. apply arm_set_initialValue.
Qed.

Lemma new_initialValue : initialValue (new o) leftProperty = left o.
Proof. unfold new, create. simpl. apply AxonFacts.update_same. Qed.

(** [reset] is [set] of the initial position. *)
Lemma reset_sets n fuel vs :
  reset o n (sets o (S fuel) vs (new o))
  = set o n (left o) (sets o (S fuel) vs (new o)).
Proof.
  unfold reset, Axon.reset, set.
  rewrite sets_initialValue, new_initialValue. reflexivity.
Qed.

End Facts.
End RoboticArmReset.

(* ================================================================= *)
(** ** Cells whose values an assertion checks *)

(** The listener [check] of the cell [A] begins with an assertion on the
    notified value. With assertions enabled, the value of [A] passes the
    check in every state that a constructor which links [check] to [A], and
    the writes that return, reach. *)
Module CheckedFacts.
Section Facts.

Variables cell listener X : Type.
Variable cell_eq_dec : forall a b : cell, {a = b} + {a <> b}.
Variable isValidValue : cell -> float -> bool.
Variable body : listener -> float -> action cell listener X.

#[local] Abbreviation store := (store cell listener X).
#[local] Abbreviation result := (result cell listener X).
#[local] Abbreviation set_ := (set cell_eq_dec true isValidValue body).
#[local] Abbreviation step := (DerivedFacts.step cell listener).
#[local] Abbreviation run := (DerivedFacts.run cell_eq_dec true isValidValue body).

Variable A : cell.
Variable check : listener.
Variable ok : float -> bool.

Hypothesis body_check :
  forall v, exists msg k, body check v = Assert (fun _ => ok v) msg k.

Definition guarded (s : store) : Prop := In check (observers s A).

Definition checked (s : store) : Prop := ok (get s A) = true.

Definition kept_or_checked (s s' : store) : Prop :=
  get s' A = get s A \/ checked s'.

Definition checked_rule (c : cell) (v : float) (s : store) (r : result) : Prop :=
  guarded s -> fst r = Returned -> kept_or_checked s (snd r).

Lemma koc_refl s : kept_or_checked s s.
Proof. left. reflexivity. Qed.

Lemma koc_trans s1 s2 s3 :
  kept_or_checked s1 s2 -> kept_or_checked s2 s3 -> kept_or_checked s1 s3.
Proof.
  unfold kept_or_checked, checked. intros [H1 | H1] [H2 | H2]; auto.
  - left. congruence.
  - right. rewrite H2. exact H1.
Qed.

Lemma koc_checked s s' : kept_or_checked s s' -> checked s -> checked s'.
Proof. unfold checked. intros [H | H] Hs; trivial. rewrite H. exact Hs. Qed.

Lemma guarded_observers (s s' : store) :
  observers s' = observers s -> guarded s -> guarded s'.
Proof. unfold guarded. intros ->. trivial. Qed.

Section Round.
Variable set' : cell -> float -> store -> result.
Hypothesis set'_meets : AxonFacts.meets checked_rule set'.

Lemma exec_koc a :
  forall s, guarded s -> fst (exec true set' a s) = Returned ->
            kept_or_checked s (snd (exec true set' a s))
            /\ observers (snd (exec true set' a s)) = observers s.
Proof.
  induction a as [| c e k IHk | b msg k IHk | msg | x k IHk | b a1 IH1 k IHk];
    intros s Hg; simpl; unfold bind.
  - intros _. split; [apply koc_refl | reflexivity].
  - destruct (set'_meets c (e s) s) as [H1 O1].
    destruct (set' c (e s) s) as [[| err |] s1]; simpl in *; try discriminate.
    intros H. destruct (IHk s1) as [H2 O2]; trivial.
    { eapply guarded_observers; eassumption. }
    split; [| congruence].
    eapply koc_trans; [apply H1; trivial | exact H2].
  - destruct (negb (b s)); simpl; [discriminate |]. apply IHk, Hg.
  - discriminate.
  - apply (IHk (assigned x s)). exact Hg.
  - destruct (b s); [| apply IHk, Hg].
    specialize (IH1 s Hg).
    destruct (exec true set' a1 s) as [[| err |] s1]; simpl in *; try discriminate.
    intros H. destruct IH1 as [H1 O1]; trivial.
    destruct (IHk s1) as [H2 O2]; trivial.
    { eapply guarded_observers; eassumption. }
    split; [| congruence].
    eapply koc_trans; eassumption.
Qed.

(** The check passes if the listener returns. *)
Lemma exec_check v s :
  fst (exec true set' (body check v) s) = Returned -> ok v = true.
Proof.
  destruct (body_check v) as (msg & k & ->). simpl.
  destruct (ok v); trivial. simpl. discriminate.
Qed.

Lemma notify_koc ls v :
  forall s, guarded s -> fst (notify true body set' ls v s) = Returned ->
            kept_or_checked s (snd (notify true body set' ls v s))
            /\ (In check ls -> ok v = true).
Proof.
  induction ls as [| l ls IH]; intros s Hg; simpl; unfold bind.
  - intros _. split; [apply koc_refl | contradiction].
  - pose proof (exec_koc (body l v) s Hg) as H1.
    pose proof (@exec_check v s) as Hc.
    destruct (exec true set' (body l v) s) as [[| err |] s1] eqn:E;
      simpl in *; try discriminate.
    intros H. destruct H1 as [H1 O1]; trivial.
    destruct (IH s1) as [H2 H3]; trivial.
    { eapply guarded_observers; eassumption. }
    split; [eapply koc_trans; eassumption |].
    intros [<- | Hl]; [| auto].
    apply Hc. rewrite E. reflexivity.
Qed.
End Round.

Theorem checked_rule_set fuel : AxonFacts.meets checked_rule (set_ fuel).
Proof.
  apply AxonFacts.set_rule.
  - intros c v s _ H. discriminate.
  - intros c v s _ _ H. discriminate.
  - intros c v s _ _ _ _. apply koc_refl.
  - intros set' Hset c v s _ _ Hg H.
    destruct (@notify_koc set' Hset (observers s c) v (changed cell_eq_dec c v s))
      as [H1 H2]; trivial.
    destruct (cell_eq_dec c A) as [-> | Hc].
    + right. eapply koc_checked; [exact H1 |].
      unfold checked. rewrite LinkFacts.changed_same. apply H2, Hg.
    + eapply koc_trans; [| exact H1].
      left. apply LinkFacts.changed_other, Hc.
Qed.

(** Writes that return keep the value checked. *)
Lemma set_checked fuel c v s s' :
  guarded s -> checked s -> set_ fuel c v s = (Returned, s') ->
  guarded s' /\ checked s'.
Proof.
  intros Hg Hc E.
  destruct (checked_rule_set fuel c v s) as [HR HO].
  rewrite E in HR, HO. simpl in HO. split.
  - eapply guarded_observers; eassumption.
  - eapply koc_checked; [apply HR; trivial | exact Hc].
Qed.

(** *** The constructor *)

Lemma exec_checked fuel a s s' :
  guarded s -> checked s -> exec true (set_ fuel) a s = (Returned, s') ->
  guarded s' /\ checked s'.
Proof.
  intros Hg Hc E.
  destruct (@exec_koc (set_ fuel) (checked_rule_set fuel) a s Hg) as [H O].
  - rewrite E. reflexivity.
  - rewrite E in H, O. simpl in H, O. split.
    + eapply guarded_observers; eassumption.
    + eapply koc_checked; eassumption.
Qed.

Lemma subscribe_checked c l s :
  guarded s -> checked s ->
  guarded (subscribe cell_eq_dec c l s) /\ checked (subscribe cell_eq_dec c l s).
Proof.
  intros Hg Hc. split; [| exact Hc].
  unfold guarded, subscribe, update in *. simpl.
  destruct (cell_eq_dec c A) as [-> | _]; trivial.
  apply in_or_app. auto.
Qed.

Lemma subscribe_all_checked l deps :
  forall s, guarded s -> checked s ->
    guarded (fold_left (fun t d => subscribe cell_eq_dec d l t) deps s)
    /\ checked (fold_left (fun t d => subscribe cell_eq_dec d l t) deps s).
Proof.
  induction deps as [| d deps IH]; intros s Hg Hc; simpl; auto.
  destruct (@subscribe_checked d l s Hg Hc). apply IH; trivial.
Qed.

Lemma create_checked c v s :
  c <> A -> guarded s -> checked s ->
  guarded (create cell_eq_dec c v s) /\ checked (create cell_eq_dec c v s).
Proof.
  intros Hc Hg Hk. unfold guarded, checked, get, create in *. simpl.
  rewrite !AxonFacts.update_other by exact Hc. auto.
Qed.

(** Steps that do not create [A] anew. *)
Fixpoint leaves (sts : list step) : Prop :=
  match sts with
  | [] => True
  | DerivedFacts.Create _ c _ :: sts' | DerivedFacts.Derive c _ _ :: sts' =>
      c <> A /\ leaves sts'
  | DerivedFacts.Link _ _ :: sts' => leaves sts'
  end.

Lemma run_checked fuel st s s' :
  leaves [st] -> guarded s -> checked s -> run fuel st s = (Returned, s') ->
  guarded s' /\ checked s'.
Proof.
  destruct st as [c v | c deps l | c l]; simpl; intros Hl Hg Hc E.
  - injection E as <-. apply create_checked; tauto.
  - unfold derive, bind in E.
    destruct (exec _ _ _ _) as [[| err |] s1] eqn:E1; try discriminate.
    injection E as <-.
    destruct (@create_checked c 0 s) as [Hg0 Hc0]; try tauto.
    destruct (exec_checked _ _ Hg0 Hc0 E1) as [Hg1 Hc1].
    apply subscribe_all_checked; trivial.
  - unfold link in E. cbv zeta in E.
    destruct (@subscribe_checked c l s Hg Hc) as [Hg0 Hc0].
    apply (exec_checked _ _ Hg0 Hc0 E).
Qed.

Lemma steps_checked fuel sts :
  forall s s',
    leaves sts -> guarded s -> checked s ->
    steps (map (run fuel) sts) s = (Returned, s') ->
    guarded s' /\ checked s'.
Proof.
  induction sts as [| st sts IH]; intros s s' Hl Hg Hc H.
  - apply SpringFacts.steps_nil in H. subst. auto.
  - simpl map in H. apply SpringFacts.steps_cons in H. destruct H as (s1 & H1 & H).
    destruct (@run_checked fuel st s s1) as [Hg1 Hc1]; trivial.
    { destruct st; simpl in *; tauto. }
    apply (IH s1 s'); trivial.
    destruct st; simpl in *; tauto.
Qed.

(** Linking [check] invokes it with the current value of [A]. *)
Lemma link_checks fuel s s' :
  run fuel (DerivedFacts.Link A check) s = (Returned, s') ->
  guarded s' /\ checked s'.
Proof.
  simpl. unfold link. cbv zeta. intros E.
  assert (Hg : guarded (subscribe cell_eq_dec A check s)).
  { unfold guarded, subscribe. simpl. rewrite AxonFacts.update_same.
    apply in_or_app. simpl. auto. }
  assert (Hc : checked (subscribe cell_eq_dec A check s)).
  { unfold checked. eapply exec_check. rewrite E. reflexivity. }
  apply (exec_checked _ _ Hg Hc E).
Qed.

Theorem construction_checked fuel pre post s s' :
  steps (map (run fuel) (pre ++ DerivedFacts.Link A check :: post)) s = (Returned, s') ->
  leaves post ->
  guarded s' /\ checked s'.
Proof.
  intros H Hl. rewrite map_app in H.
  assert (Hsplit : exists s1,
             steps (map (run fuel) (DerivedFacts.Link A check :: post)) s1
             = (Returned, s')).
  { clear - H. revert s H. induction pre as [| st pre IH]; intros s H; simpl in *.
    - exists s. auto.
    - unfold bind in *.
      destruct (DerivedFacts.run cell_eq_dec true isValidValue body fuel st s)
        as [[| err |] s1]; try discriminate.
      apply IH with (s := s1), H. }
  destruct Hsplit as (s1 & H1).
  simpl map in H1. apply SpringFacts.steps_cons in H1. destruct H1 as (s2 & H2 & H3).
  apply link_checks in H2. destruct H2 as [Hg Hc].
  eapply steps_checked; eassumption.
Qed.

End Facts.
End CheckedFacts.

(* ================================================================= *)
(** ** A spring on its own: the ranges *)

Module SingleSpringRanges.
Import Spring SingleSpringFacts.

(** The three quantities that a property observer checks against a
    range. *)
Inductive quantity : Type :=
  | appliedForce
  | springConstant
  | displacement.

Definition cellOf (q : quantity) : property :=
  match q with
  | appliedForce => appliedForceProperty
  | springConstant => springConstantProperty
  | displacement => displacementProperty
  end.

Definition observerOf (q : quantity) : observer :=
  match q with
  | appliedForce => observeAppliedForce
  | springConstant => observeSpringConstant
  | displacement => observeDisplacement
  end.

Definition rangeOf (self : fields) (q : quantity) : Range :=
  match q with
  | appliedForce => self_appliedForceRange self
  | springConstant => self_springConstantRange self
  | displacement => self_displacementRange self
  end.

Section Facts.

Variable o : options.

#[local] Abbreviation self := (SingleSpring.self o).
#[local] Abbreviation state := SingleSpring.state.

(** Every quantity is within its range. *)
Definition inRange (s : state) : Prop :=
  forall q, contains (rangeOf self q) (get s (cellOf q)) = true.

Lemma body_check q v :
  exists msg k,
    SingleSpring.body o (observerOf q) v
    = Assert (fun _ => contains (rangeOf self q) v) msg k.
Proof. destruct q; simpl; eauto. Qed.

Lemma observer_subscribed q s :
  wired o s -> CheckedFacts.guarded (cellOf q) (observerOf q) s.
Proof.
  intros Hw. unfold CheckedFacts.guarded. rewrite (Hw (cellOf q)).
  unfold table. destruct q; simpl; try destruct (forceDriven self); simpl; tauto.
Qed.

(** Writes that return keep the quantities within their ranges. *)
Lemma set_inRange fuel p v s s' :
  wired o s -> inRange s ->
  Axon.set property_eq_dec true (fun _ _ => true) (SingleSpring.body o) fuel p v s
  = (Returned, s') ->
  inRange s'.
Proof.
  intros Hw Hs E q.
  apply (@CheckedFacts.set_checked _ _ _ property_eq_dec (fun _ _ => true)
           (SingleSpring.body o) (cellOf q) (observerOf q)
           (contains (rangeOf self q)) (body_check q) fuel p v s s').
  - apply observer_subscribed, Hw.
  - apply Hs.
  - exact E.
Qed.

(** Where the constructor links each property observer. *)
Definition position (q : quantity) : nat :=
  match q with
  | appliedForce => 11
  | springConstant => 12
  | displacement => 13
  end.

Lemma new_inRange fuel s :
  SingleSpring.new true o fuel = (Returned, s) -> inRange s.
Proof.
  intros H q. apply SingleSpringDerived.new_runs in H. destruct H as (this & _ & H).
  apply (@CheckedFacts.construction_checked _ _ _ property_eq_dec (fun _ _ => true)
           (SingleSpring.body o) (cellOf q) (observerOf q)
           (contains (rangeOf self q)) (body_check q) fuel
           (firstn (position q) (SingleSpringDerived.new_steps o this))
           (skipn (S (position q)) (SingleSpringDerived.new_steps o this))
           (empty property observer tt) s).
  - destruct q; exact H.
  - destruct q; simpl; tauto.
Qed.

End Facts.
End SingleSpringRanges.

(* ================================================================= *)
(** ** The series system: the ranges of the three springs *)

Module SeriesRanges.
Import SeriesSystem SeriesFacts SeriesDerived SingleSpringRanges.

(** Every quantity of the spring is within its range. *)
Definition inRange (w : component) (s : state) : Prop :=
  forall q, contains (rangeOf (fields w) q) (get s (cells w (cellOf q))) = true.

Lemma series_body_check w q v :
  In w springs ->
  exists msg k,
    body (listeners w (observerOf q)) v
    = Assert (fun _ => contains (rangeOf (fields w) q) v) msg k.
Proof.
  intros [<- | [<- | [<- | []]]]; destruct q; simpl; eauto.
Qed.

Lemma series_observer_subscribed w q s :
  In w springs -> wired s ->
  CheckedFacts.guarded (cells w (cellOf q)) (listeners w (observerOf q)) s.
Proof.
  intros Hin Hw. unfold CheckedFacts.guarded. rewrite (Hw (cells w (cellOf q))).
  destruct Hin as [<- | [<- | [<- | []]]]; destruct q; simpl; tauto.
Qed.

(** Writes that return keep the quantities within their ranges. *)
Lemma series_set_inRange w fuel c v s s' :
  In w springs -> wired s -> inRange w s ->
  Axon.set cell_eq_dec true isValidValue body fuel c v s = (Returned, s') ->
  inRange w s'.
Proof.
  intros Hin Hw Hs E q.
  apply (@CheckedFacts.set_checked _ _ _ cell_eq_dec isValidValue body
           (cells w (cellOf q)) (listeners w (observerOf q))
           (contains (rangeOf (fields w) q))
           (fun u => @series_body_check w q u Hin) fuel c v s s').
  - apply series_observer_subscribed; trivial.
  - apply Hs.
  - exact E.
Qed.

Lemma constructed_inRange w : In w springs -> inRange w (constructed true).
Proof.
  intros [<- | [<- | [<- | []]]] q; destruct q; vm_compute; reflexivity.
Qed.

End SeriesRanges.

(* ================================================================= *)
(** ** A spring on its own: writes that an observer rejects *)

Module SingleSpringRejects.
Import Spring SingleSpringFacts SingleSpringSteps SingleSpringRanges.

(** The message of the assertion of each property observer. *)
Definition message (q : quantity) : string :=
  match q with
  | appliedForce => "appliedForce is out of range"
  | springConstant => "springConstant is out of range"
  | displacement => "displacement is out of range"
  end.

(** What an out-of-range write raises: the assertion of the observer, or,
    for the displacement, the assertion of [right], which runs first. *)
Definition rejection (q : quantity) (e : error) : Prop :=
  e = AssertionError (message q)
  \/ (q = displacement /\ e = AssertionError "right must be > left").

Section Facts.

Variable o : options.

#[local] Abbreviation self := (SingleSpring.self o).
#[local] Abbreviation state := SingleSpring.state.
#[local] Abbreviation set_ :=
  (Axon.set property_eq_dec true (fun _ _ => true) (SingleSpring.body o)).

(** The three quantities keep the values of [s], but for [q], which holds
    [v]. *)
Definition written (q : quantity) (v : float) (s s' : state) : Prop :=
  get s' (cellOf q) = v
  /\ forall q', q' <> q -> get s' (cellOf q') = get s (cellOf q').

Ltac unfold_round :=
  cbn [table notify exec]; unfold bind;
  cbn [SingleSpring.body Spring.body exec]; unfold bind.

Lemma written_changed q v s :
  written q v s (changed property_eq_dec (cellOf q) v s).
Proof.
  split; [apply get_changed_same |].
  intros q' Hq. apply get_changed_other. intros E. apply Hq.
  destruct q, q'; try discriminate; reflexivity.
Qed.

Lemma written_put q v s s' p u :
  isDerived p = true -> written q v s s' -> written q v s (put p u s').
Proof.
  intros Hp [H1 H2]. unfold written.
  assert (E : forall q', get (put p u s') (cellOf q') = get s' (cellOf q')).
  { intros q'. unfold put. destruct (u =? get s' p); trivial.
    apply get_changed_other. intros ->. destruct q'; discriminate. }
  split; [rewrite E; exact H1 |].
  intros q' Hq. rewrite E. apply H2, Hq.
Qed.

Lemma written_same_inputs q v s s1 s2 :
  written q v s s1 -> same_inputs s1 s2 -> written q v s s2.
Proof.
  intros [H1 H2] (a & b & c & _).
  assert (E : forall q', get s2 (cellOf q') = get s1 (cellOf q'))
    by (intros q'; destruct q'; assumption).
  split; [rewrite E; exact H1 |].
  intros q' Hq. rewrite E. apply H2, Hq.
Qed.

Lemma appliedForce_rejected n v s :
  wired o s -> (v =? get s appliedForceProperty) = false ->
  contains (self_appliedForceRange self) v = false ->
  exists s',
    set_ (S (S n)) appliedForceProperty v s
    = (Threw (AssertionError (message appliedForce)), s')
    /\ written appliedForce v s s'.
Proof.
  intros Hw Hc Hr. rewrite (@set_changed true o) by trivial. unfold_round.
  rewrite (@set_leaf true o) by trivial. rewrite Hr. simpl.
  eexists. split; [reflexivity |].
  apply written_put; [reflexivity |]. apply (written_changed appliedForce).
Qed.

Lemma springConstant_rejected n v s :
  wired o s -> (v =? get s springConstantProperty) = false ->
  contains (self_springConstantRange self) v = false ->
  exists s',
    set_ (S (S n)) springConstantProperty v s
    = (Threw (AssertionError (message springConstant)), s')
    /\ written springConstant v s s'.
Proof.
  intros Hw Hc Hr. rewrite (@set_changed true o) by trivial.
  unfold table. destruct (forceDriven self) eqn:Hfd.
  - cbn [notify]. unfold bind.
    cbn [SingleSpring.body Spring.body]. rewrite Hfd. cbn [exec]. unfold bind.
    rewrite (@set_leaf true o) by trivial.
    rewrite (@set_leaf true o) by (try apply wired_put; trivial).
    rewrite (@set_leaf true o) by (repeat apply wired_put; trivial).
    rewrite Hr. simpl.
    eexists. split; [reflexivity |].
    repeat (apply written_put; [reflexivity |]). apply (written_changed springConstant).
  - cbn [notify]. unfold bind.
    cbn [SingleSpring.body Spring.body exec]. unfold bind.
    rewrite (@set_leaf true o) by trivial.
    rewrite Hr. simpl.
    eexists. split; [reflexivity |].
    repeat (apply written_put; [reflexivity |]). apply (written_changed springConstant).
Qed.

Lemma displacement_rejected n v s :
  wired o s -> (v =? get s displacementProperty) = false ->
  contains (self_displacementRange self) v = false ->
  exists e s',
    set_ (S (S (S n))) displacementProperty v s = (Threw e, s')
    /\ rejection displacement e
    /\ written displacement v s s'.
Proof.
  intros Hw Hc Hr. rewrite (@set_changed true o) by trivial.
  cbn [table notify].
  set (t := changed property_eq_dec displacementProperty v s).
  assert (Hwt : wired o t) by exact Hw.
  destruct (0 <? get t equilibriumXProperty + get t displacementProperty
                 - get t leftProperty) eqn:Ha.
  - destruct (@derive_right_energy true o n v t Hwt) as (s1 & Hw1 & H1 & E).
    { unfold passes. rewrite Ha. reflexivity. }
    rewrite E. cbn [notify]. unfold bind.
    cbn [SingleSpring.body Spring.body exec]. rewrite Hr. simpl.
    exists (AssertionError (message displacement)), s1.
    split; [reflexivity |]. split; [left; reflexivity |].
    eapply written_same_inputs; [apply (written_changed displacement) | exact H1].
  - unfold bind at 1. cbn [SingleSpring.body Spring.body exec].
    rewrite Ha. simpl.
    exists (AssertionError "right must be > left"), t.
    split; [reflexivity |]. split; [right; auto |].
    apply (written_changed displacement).
Qed.

End Facts.
End SingleSpringRejects.

(* ================================================================= *)
(** ** Listeners that throw *)

Module GuardFacts.
Section Facts.

Variables cell listener X : Type.
Variable assertions : bool.
Variable body : listener -> float -> action cell listener X.

(** A notification that reaches a listener whose body is a [throw]
    does not return. *)
Lemma notify_throws set' l msg ls v :
  In l ls -> body l v = Throw msg ->
  forall s, fst (notify assertions body set' ls v s) <> Returned.
Proof.
  intros Hl Hb. induction ls as [| l' ls IH]; [contradiction |].
  intros s. simpl. unfold bind.
  destruct Hl as [-> | Hl].
  - rewrite Hb. simpl. discriminate.
  - destruct (exec assertions set' (body l' v) s) as [[| err |] s1]; simpl;
      try discriminate.
    apply IH, Hl.
Qed.

End Facts.
End GuardFacts.

(* ================================================================= *)
(** ** The series system: the left end of the left spring *)

Module SeriesAnchor.
Import SeriesSystem SeriesFacts.

(** No listener of the system writes the left end of the left spring. *)
Lemma nobody_writes_left c l v :
  In l (table c) ->
  ~ In (leftSpring Spring.leftProperty) (LinkFacts.targets (body l v)).
Proof.
  intros Hl HB.
  destruct c as [p | p | p |]; try destruct p;
    each_listener Hl; not_written HB.
Qed.

Lemma set_left_never_returns assertions n v s :
  wired s -> (v =? get s (leftSpring Spring.leftProperty)) = false ->
  fst (Axon.set cell_eq_dec assertions isValidValue body n
         (leftSpring Spring.leftProperty) v s) <> Returned.
Proof.
  intros Hw Hc. destruct n as [| n]; [discriminate |].
  simpl. rewrite Hc, (Hw (leftSpring Spring.leftProperty)).
  eapply GuardFacts.notify_throws with (l := leftSpringLeftGuard).
  - simpl. tauto.
  - reflexivity.
Qed.

End SeriesAnchor.

(* ================================================================= *)
(** ** A spring on its own: [reset] as writes from outside *)

Module SingleSpringResets.
Import Spring SingleSpringFacts.

(** A [reset] that returns ends in a state that writes from outside
    reach. *)
Lemma reset_reachable assertions o fuel s s' :
  reachable assertions o s ->
  SingleSpring.reset assertions o fuel s = (Returned, s') ->
  reachable assertions o s'.
Proof.
  intros Hs H. unfold SingleSpring.reset, Spring.reset in H. cbv zeta in H.
  apply SpringFacts.steps_cons in H. destruct H as (s1 & H1 & H).
  apply SpringFacts.steps_cons in H. destruct H as (s2 & H2 & H).
  apply SpringFacts.steps_cons in H. destruct H as (s3 & H3 & H).
  apply SpringFacts.steps_cons in H. destruct H as (s4 & H4 & H).
  apply SpringFacts.steps_nil in H. subst s'.
  assert (R1 : reachable assertions o s1)
    by (apply (reachable_set fuel appliedForceProperty
                 (initialValue s appliedForceProperty) Hs H1)).
  assert (R2 : reachable assertions o s2)
    by (apply (reachable_set fuel springConstantProperty
                 (initialValue s1 springConstantProperty) R1 H2)).
  assert (R3 : reachable assertions o s3)
    by (apply (reachable_set fuel displacementProperty
                 (initialValue s2 displacementProperty) R2 H3)).
  apply (reachable_set fuel leftProperty (initialValue s3 leftProperty) R3 H4).
Qed.

End SingleSpringResets.

(* ================================================================= *)
(** ** Cells with a validity predicate *)

(** [set] stores a value only after the validity predicate of the cell
    accepted it: if every cell holds a valid value, then so it is after a
    write, however the write ends. *)
Module ValidFacts.
Section Facts.

Variables cell listener X : Type.
Variable cell_eq_dec : forall a b : cell, {a = b} + {a <> b}.
Variable assertions : bool.
Variable isValidValue : cell -> float -> bool.
Variable body : listener -> float -> action cell listener X.

#[local] Abbreviation store := (store cell listener X).
#[local] Abbreviation result := (result cell listener X).
#[local] Abbreviation set_ := (set cell_eq_dec assertions isValidValue body).

Definition valid (s : store) : Prop :=
  forall c, isValidValue c (get s c) = true.

Definition keeps (set' : cell -> float -> store -> result) : Prop :=
  forall c v s, valid s -> valid (snd (set' c v s)).

Lemma exec_valid set' a :
  keeps set' -> forall s, valid s -> valid (snd (exec assertions set' a s)).
Proof.
  intros Hk.
  induction a as [| c e k IHk | b msg k IHk | msg | x k IHk | b a1 IH1 k IHk];
    intros s Hs; simpl; unfold bind; trivial.
  - specialize (Hk c (e s) s Hs).
    destruct (set' c (e s) s) as [[| err |] s1]; simpl in *; auto.
  - destruct (assertions && negb (b s)); simpl; auto.
  - apply (IHk (assigned x s)). exact Hs.
  - destruct (b s); auto.
    specialize (IH1 s Hs).
    destruct (exec assertions set' a1 s) as [[| err |] s1]; simpl in *; auto.
Qed.

Lemma notify_valid set' ls v :
  keeps set' ->
  forall s, valid s -> valid (snd (notify assertions body set' ls v s)).
Proof.
  intros Hk. induction ls as [| l ls IH]; intros s Hs; simpl; unfold bind; trivial.
  pose proof (@exec_valid set' (body l v) Hk s Hs) as H1.
  destruct (exec assertions set' (body l v) s) as [[| err |] s1]; simpl in *; auto.
Qed.

Theorem set_valid fuel : keeps (set_ fuel).
Proof.
  induction fuel as [| n IH]; intros c v s Hs; simpl; trivial.
  destruct (isValidValue c v) eqn:Hv; simpl; trivial.
  destruct (v =? get s c); simpl; trivial.
  apply notify_valid; [exact IH |].
  intros c'. destruct (cell_eq_dec c c') as [<- | Hc].
  - rewrite LinkFacts.changed_same. exact Hv.
  - rewrite LinkFacts.changed_other by exact Hc. apply Hs.
Qed.

End Facts.
End ValidFacts.

(* ================================================================= *)
(** ** The series system: the arm stays left of its fixed end *)

Module SeriesArm.
Import SeriesSystem SeriesFacts.

Lemma constructed_valid assertions :
  ValidFacts.valid isValidValue (constructed assertions).
Proof.
  intros c. destruct c as [p | p | p |]; try reflexivity.
  destruct assertions; vm_compute; reflexivity.
Qed.

Lemma external_set_valid assertions fuel c v s :
  ValidFacts.valid isValidValue s ->
  ValidFacts.valid isValidValue (snd (SeriesSystem.set assertions fuel c v s)).
Proof.
  intros Hs. unfold SeriesSystem.set, external_set.
  destruct (isDerived c); [exact Hs |].
  apply ValidFacts.set_valid, Hs.
Qed.

Lemma reachable_valid assertions p s :
  SeriesInvariants.reachable assertions p s -> ValidFacts.valid isValidValue s.
Proof.
  induction 1 as [fuel s E | fuel c v p s s' Hr IH Hc E].
  - apply new_returned in E. subst s. apply constructed_valid.
  - change s' with (snd (Returned, s')). rewrite <- E. apply external_set_valid, IH.
Qed.

End SeriesArm.

(* ================================================================= *)
(** ** The series system: [reset] *)

Module SeriesReset.
Import SeriesSystem SeriesFacts.

(** What every settled state has, and what [reset] keeps, write by
    write. *)
Definition invariant (assertions : bool) (s : state) : Prop :=
  wired s
  /\ initialValue s = initialValue (constructed assertions)
  /\ (forall a, SeriesFixed.fixed a = true -> get s a = get (constructed assertions) a)
  /\ (forall w, In w SeriesDerived.springs -> SeriesDerived.derived w s).

Lemma reachable_initialValue assertions p s :
  SeriesInvariants.reachable assertions p s ->
  initialValue s = initialValue (constructed assertions).
Proof.
  induction 1 as [fuel s E | fuel c v p s s' Hr IH Hc E].
  - apply new_returned in E. subst s. reflexivity.
  - rewrite <- IH. rewrite SeriesInvariants.input_set in E by exact Hc.
    change s' with (snd (Returned, s')). rewrite <- E.
    apply InitialValueFacts.set_initialValue.
Qed.

Lemma reachable_invariant assertions p s :
  SeriesInvariants.reachable assertions p s -> invariant assertions s.
Proof.
  intros Hs. split; [apply (SeriesInvariants.reachable_wired Hs) |].
  split; [apply (reachable_initialValue Hs) |]. split.
  - intros a Ha. eapply SeriesFixed.reachable_fixed; eassumption.
  - intros w Hw. eapply SeriesDerived.series_reachable_derived; eassumption.
Qed.

(** [reset] of a fixed end writes the value that is there. *)
Lemma reset_fixed assertions fuel c s s' :
  isDerived c = false -> SeriesFixed.fixed c = true -> invariant assertions s ->
  Axon.reset cell_eq_dec assertions isValidValue body fuel c s = (Returned, s') ->
  s' = s.
Proof.
  intros Hd Hf (_ & Hi & Hx & _) E. unfold Axon.reset in E.
  destruct fuel as [| n]; [discriminate |].
  simpl in E. rewrite Hi, (Hx c Hf) in E.
  destruct c as [q | q | q |]; try destruct q; try discriminate;
    destruct assertions; vm_compute in E; congruence.
Qed.

Lemma not_derived_cell w d c :
  In w SeriesDerived.springs -> isDerived c = false ->
  c <> SeriesDerived.cells w (SpringDerived.cellOf d).
Proof.
  intros [<- | [<- | [<- | []]]] Hc ->; destruct d; discriminate.
Qed.

(** [reset] of a cell keeps the invariant. *)
Lemma reset_invariant assertions fuel c s s' :
  isDerived c = false -> invariant assertions s ->
  Axon.reset cell_eq_dec assertions isValidValue body fuel c s = (Returned, s') ->
  invariant assertions s'.
Proof.
  intros Hd Hs E. destruct (SeriesFixed.fixed c) eqn:Hf.
  - rewrite (@reset_fixed assertions fuel c s s' Hd Hf Hs E). exact Hs.
  - destruct Hs as (Hw & Hi & Hx & Hr). unfold Axon.reset in E.
    split; [| split; [| split]].
    + eapply LinkFacts.wired_preserved; [| exact Hw].
      change s' with (snd (Returned, s')). rewrite <- E.
      apply AxonFacts.set_observers.
    + rewrite <- Hi. change s' with (snd (Returned, s')). rewrite <- E.
      apply InitialValueFacts.set_initialValue.
    + intros a Ha. rewrite <- (Hx a Ha).
      change s' with (snd (Returned, s')). rewrite <- E.
      apply SeriesFixed.set_fixed; trivial.
    + intros w Hin d.
      eapply SeriesDerived.series_set_derived; [exact Hin | exact Hw | | exact E | apply Hr, Hin].
      apply not_derived_cell; trivial.
Qed.

Lemma spring_reset_invariant assertions fuel (P : Spring.property -> cell) s s' :
  (forall q, isDerived (P q) = Spring.isDerived q) ->
  invariant assertions s ->
  Spring.reset P cell_eq_dec assertions isValidValue body fuel s = (Returned, s') ->
  invariant assertions s'.
Proof.
  intros HP Hs H. unfold Spring.reset in H. cbv zeta in H.
  apply SpringFacts.steps_cons in H. destruct H as (s1 & H1 & H).
  apply SpringFacts.steps_cons in H. destruct H as (s2 & H2 & H).
  apply SpringFacts.steps_cons in H. destruct H as (s3 & H3 & H).
  apply SpringFacts.steps_cons in H. destruct H as (s4 & H4 & H).
  apply SpringFacts.steps_nil in H. subst s'.
  apply reset_invariant in H1; [| apply (HP Spring.appliedForceProperty) | exact Hs].
  apply reset_invariant in H2; [| apply (HP Spring.springConstantProperty) | exact H1].
  apply reset_invariant in H3; [| apply (HP Spring.displacementProperty) | exact H2].
  apply reset_invariant in H4; [| apply (HP Spring.leftProperty) | exact H3].
  exact H4.
Qed.

Lemma system_reset_invariant assertions fuel s s' :
  invariant assertions s ->
  SeriesSystem.reset assertions fuel s = (Returned, s') ->
  invariant assertions s'.
Proof.
  intros Hs H. unfold SeriesSystem.reset in H. cbv zeta in H.
  apply SpringFacts.steps_cons in H. destruct H as (s1 & H1 & H).
  apply SpringFacts.steps_cons in H. destruct H as (s2 & H2 & H).
  apply SpringFacts.steps_cons in H. destruct H as (s3 & H3 & H).
  apply SpringFacts.steps_cons in H. destruct H as (s4 & H4 & H).
  apply SpringFacts.steps_nil in H. subst s'.
  apply spring_reset_invariant in H1; [| reflexivity | exact Hs].
  apply spring_reset_invariant in H2; [| reflexivity | exact H1].
  apply reset_invariant in H3; [| reflexivity | exact H2].
  apply spring_reset_invariant in H4; [| reflexivity | exact H3].
  exact H4.
Qed.

End SeriesReset.

(* ================================================================= *)
(** ** Scenarios *)

Lemma returned_eq (cell listener X : Type) (r : result cell listener X) :
  fst r = Returned -> r = (Returned, snd r).
Proof. destruct r as [out s]. simpl. intros ->. reflexivity. Qed.

Module Scenario.
Import Spring.

(** The force-driven spring of the spec's concrete scenario:
    [springConstantRange = [100,1000] @ 200],
    [appliedForceRange = [-10,10] @ 0], [equilibriumLength = 1.5],
    [left = 0]. *)
Definition forceDriven : options :=
  mkOptions 0 1.5 (RangeWithValue 100 1000 200) None
            (Some (RangeWithValue (-10) 10 0)) APPLIED_FORCE_DELTA.

Definition fuel : nat := 100.

(** A run of writes from outside, one after the other. *)
Definition writes (o : options) (ws : list (property * float))
  : SingleSpring.state -> result property observer unit :=
  steps (map (fun w => SingleSpring.set true o fuel (fst w) (snd w)) ws).

Definition constructed (o : options) : SingleSpring.state :=
  snd (SingleSpring.new true o fuel).

(** The spring after [appliedForce = 10], then [displacement = 0.051]. *)
Definition stretched : SingleSpring.state :=
  snd (writes forceDriven [(appliedForceProperty, 10); (displacementProperty, 0.051)]
              (constructed forceDriven)).

(** The spring after [appliedForce = 10]. *)
Definition loaded : SingleSpring.state :=
  snd (writes forceDriven [(appliedForceProperty, 10)] (constructed forceDriven)).

(** The spring after [appliedForce = 10], [springConstant = 500],
    [displacement = 0.0051] and [left = 0.25]. *)
Definition moved : SingleSpring.state :=
  snd (writes forceDriven
         [ (appliedForceProperty, 10); (springConstantProperty, 500);
           (displacementProperty, 0.0051); (leftProperty, 0.25) ]
         (constructed forceDriven)).

(** A force-driven spring whose initial applied force, 0.5, is not a
    multiple of the delta; [appliedForce = 3], then [reset]. *)
Definition offGrid : options :=
  mkOptions 0 1.5 (RangeWithValue 100 1000 200) None
            (Some (RangeWithValue (-10) 10 0.5)) APPLIED_FORCE_DELTA.

Definition offGridReset : result property observer unit :=
  bind (writes offGrid [(appliedForceProperty, 3)])
       (SingleSpring.reset true offGrid fuel) (constructed offGrid).

Lemma reachable_constructed o :
  fst (SingleSpring.new true o fuel) = Returned ->
  SingleSpringFacts.reachable true o (constructed o).
Proof.
  intros H. apply SingleSpringFacts.reachable_new with (fuel := fuel).
  apply returned_eq, H.
Qed.

Lemma reachable_writes o ws :
  forall s,
    SingleSpringFacts.reachable true o s ->
    fst (writes o ws s) = Returned ->
    SingleSpringFacts.reachable true o (snd (writes o ws s)).
Proof.
  unfold writes.
  induction ws as [| [p v] ws IH]; intros s Hs H; simpl in *; trivial.
  unfold bind in *.
  destruct (SingleSpring.set true o fuel p v s) as [[| e |] s1] eqn:E;
    try discriminate.
  apply IH; trivial.
  eapply SingleSpringFacts.reachable_set; eassumption.
Qed.

End Scenario.

(* ================================================================= *)
(** ** Scenarios on the series system *)

Module SeriesScenario.
Import SeriesSystem.

Definition fuel : nat := 100.

(** The system as its constructor leaves it, with assertions enabled. *)
Definition constructed : state := SeriesFacts.constructed true.

(** An attempt to move the left end of the equivalent spring to 0.5. *)
Definition anchorMoved : result cell listener bool :=
  SeriesSystem.set true fuel (equivalentSpring Spring.leftProperty) 0.5 constructed.

(** A move of the robotic arm from 1.5 to 1.6. *)
Definition armMoved : result cell listener bool :=
  SeriesSystem.set true fuel roboticArm_leftProperty 1.6 constructed.

(** A move of the robotic arm from 1.5 to 1.5005, less than what changes
    the quantised force. *)
Definition armNudged : result cell listener bool :=
  SeriesSystem.set true fuel roboticArm_leftProperty 1.5005 constructed.

(** The left spring made stiffer: its spring constant goes from 200 to
    400. *)
Definition stiffened : result cell listener bool :=
  SeriesSystem.set true fuel (leftSpring Spring.springConstantProperty) 400 constructed.

Lemma constructed_reachable : SeriesInvariants.reachable true None constructed.
Proof.
  apply SeriesInvariants.reachable_new with (fuel := 1%nat).
  apply SeriesFacts.new_fuel.
Qed.

Lemma written_reachable c v p s :
  SeriesInvariants.reachable true p s ->
  SeriesInvariants.input c = true ->
  fst (SeriesSystem.set true fuel c v s) = Returned ->
  SeriesInvariants.reachable true (SeriesInvariants.requested c v p)
    (snd (SeriesSystem.set true fuel c v s)).
Proof.
  intros Hs Hc H. eapply SeriesInvariants.reachable_set; [exact Hs | exact Hc |].
  apply returned_eq, H.
Qed.

End SeriesScenario.

(* ================================================================= *)
(** ** Hooke's law in the settled states of a spring *)

(** C1, counterexample. The force-driven spring of the spec's scenario is
    constructed, [appliedForce] is set to 10 and then [displacement] to
    0.051. Every call returns, and the spring settles with [F = 10],
    [k = 200] and [x = 0.051]: [k x] is 10.2, rounded to the delta it is 10,
    which is the force already there, so nothing is written back and [F]
    differs from [k x] by more than 0.1. *)
Lemma C1_counterexample :
  fst (SingleSpring.new true Scenario.forceDriven Scenario.fuel) = Returned
  /\ fst (Scenario.writes Scenario.forceDriven
            [(Spring.appliedForceProperty, 10); (Spring.displacementProperty, 0.051)]
            (Scenario.constructed Scenario.forceDriven)) = Returned
  /\ get Scenario.stretched Spring.appliedForceProperty = 10
  /\ get Scenario.stretched Spring.springConstantProperty = 200
  /\ get Scenario.stretched Spring.displacementProperty = 0.051
  /\ (0.1 <? Math.abs (get Scenario.stretched Spring.appliedForceProperty
                       - get Scenario.stretched Spring.springConstantProperty
                         * get Scenario.stretched Spring.displacementProperty)) = true.
Proof. vm_compute. repeat split. Qed.

(** C1, as amended. In every state that a spring reaches by its constructor
    and by writes from outside that return, the displacement is the quotient
    [appliedForce / springConstant], or the applied force is the product
    [springConstant * displacement] after the rounding to the delta (for a
    force-driven spring) and the clamping to the range that the displacement
    observer applies, or (displacement-driven spring) the product itself. *)
Theorem C1_hooke_up_to_quantisation
    (assertions : bool) (o : Spring.options) (s : SingleSpring.state) :
  SingleSpringFacts.reachable assertions o s -> SingleSpringFacts.hooke o s.
Proof. intros H. apply (SingleSpringFacts.reachable_wired_hooke H). Qed.

Lemma C1_witness : SingleSpringFacts.hooke Scenario.forceDriven Scenario.stretched.
Proof.
  apply (@C1_hooke_up_to_quantisation true).
  apply Scenario.reachable_writes.
  - apply Scenario.reachable_constructed. vm_compute. reflexivity.
  - vm_compute. reflexivity.
Defined.

(* ================================================================= *)
(** ** C2: the relations of two springs in series *)




(* ================================================================= *)
(** ** The concrete scenario *)

(** C3. The force-driven spring of the scenario, with assertions enabled or
    not: after [appliedForce = 10] the displacement is 0.05 and the right
    end is at 1.55; after [springConstant = 500] the displacement is 0.02
    and the applied force is still 10. Every call returns. *)
Theorem C3_concrete_scenario (assertions : bool) :
  let r0 := SingleSpring.new assertions Scenario.forceDriven Scenario.fuel in
  let r1 := SingleSpring.set assertions Scenario.forceDriven Scenario.fuel
              Spring.appliedForceProperty 10 (snd r0) in
  let r2 := SingleSpring.set assertions Scenario.forceDriven Scenario.fuel
              Spring.springConstantProperty 500 (snd r1) in
  fst r0 = Returned
  /\ fst r1 = Returned
  /\ get (snd r1) Spring.displacementProperty = 0.05
  /\ get (snd r1) Spring.rightProperty = 1.55
  /\ fst r2 = Returned
  /\ get (snd r2) Spring.displacementProperty = 0.02
  /\ get (snd r2) Spring.appliedForceProperty = 10.
Proof. destruct assertions; vm_compute; repeat split. Qed.

(* ================================================================= *)
(** ** The displacement observer *)

Lemma forceOfDisplacement_options (o : Spring.options) (k x : float) :
  Spring.forceOfDisplacement (SingleSpring.self o) k x
  = constrainValue (Spring.self_appliedForceRange (SingleSpring.self o))
      match Spring.appliedForceRange o with
      | Some _ => Math.round (k * x / Spring.appliedForceDelta o)
                  * Spring.appliedForceDelta o
      | None => k * x
      end.
Proof.
  unfold Spring.forceOfDisplacement, SingleSpring.self, Spring.fields_of.
  destruct (Spring.appliedForceRange o), (Spring.displacementRange o); reflexivity.
Qed.

(** C4. When the displacement of a constructed spring changes to [x] (and
    the assertions on the way pass), the spring stores [x], recomputes
    [right], [length] and [energy], and then calls [appliedForceProperty.set]
    with [springConstant * x], which, if and only if [appliedForceRange] was
    supplied to the constructor, is first rounded to the nearest integer
    multiple of [appliedForceDelta], and which is then clamped into the
    applied-force range. *)
Theorem C4_displacement_observer
    (assertions : bool) (o : Spring.options) (n : nat) (x : float)
    (s : SingleSpring.state) :
  SingleSpringFacts.wired o s ->
  (x =? get s Spring.displacementProperty) = false ->
  SingleSpringSteps.passes assertions
    (0 <? get s Spring.equilibriumXProperty + x - get s Spring.leftProperty) = true ->
  SingleSpringSteps.passes assertions
    (contains (Spring.self_displacementRange (SingleSpring.self o)) x) = true ->
  exists s1,
    SingleSpringSteps.same_inputs
      (changed Spring.property_eq_dec Spring.displacementProperty x s) s1
    /\ SingleSpring.set assertions o (3 + n) Spring.displacementProperty x s
       = SingleSpring.set assertions o (2 + n) Spring.appliedForceProperty
           (constrainValue (Spring.self_appliedForceRange (SingleSpring.self o))
              match Spring.appliedForceRange o with
              | Some _ =>
                  Math.round (get s Spring.springConstantProperty * x
                              / Spring.appliedForceDelta o)
                  * Spring.appliedForceDelta o
              | None => get s Spring.springConstantProperty * x
              end)
           s1.
Proof.
  intros Hw Hc Ha1 Ha2.
  destruct (@SingleSpringSteps.set_displacement assertions o n x s Hw Hc Ha1 Ha2)
    as (s1 & _ & H1 & E).
  exists s1. split; trivial.
  unfold SingleSpring.set, external_set. simpl Spring.isDerived. cbv iota.
  rewrite <- forceOfDisplacement_options. exact E.
Qed.

Lemma C4_witness :
  exists s1,
    SingleSpringSteps.same_inputs
      (changed Spring.property_eq_dec Spring.displacementProperty 0.051
               (Scenario.constructed Scenario.forceDriven)) s1
    /\ SingleSpring.set true Scenario.forceDriven 3 Spring.displacementProperty 0.051
         (Scenario.constructed Scenario.forceDriven)
       = SingleSpring.set true Scenario.forceDriven 2 Spring.appliedForceProperty
           (constrainValue (RangeWithValue (-10) 10 0) (Math.round (200 * 0.051 / 1) * 1))
           s1.
Proof.
  destruct (@C4_displacement_observer true Scenario.forceDriven 0 0.051
              (Scenario.constructed Scenario.forceDriven)) as (s1 & H & E).
  - apply (SingleSpringFacts.reachable_wired_hooke
             (Scenario.reachable_constructed Scenario.forceDriven
                ltac:(vm_compute; reflexivity))).
  - vm_compute. reflexivity.
  - vm_compute. reflexivity.
  - vm_compute. reflexivity.
  - exists s1. split; [exact H | exact E].
Defined.

(* ================================================================= *)
(** ** Writing the spring constant *)




(* ================================================================= *)
(** ** C6: writes to the anchor of the equivalent spring *)




(* ================================================================= *)
(** ** C7: one move of the robotic arm *)




(* ================================================================= *)
(** ** C8: [reset] *)




(* ================================================================= *)
(** ** C9: the validity predicate of the robotic arm *)

(** C9: for an arm with fixed right end [r], [set( v )] on the left cell
    fails with the validity error when [v < r] is false, and then leaves the
    state as it was; otherwise it returns, and the cell holds [v]. For
    numbers (not NaN), [v < r] is false exactly when [v >= r]. After any
    calls of [set], [get()] returns the last value that was accepted, the
    initial one if none was. *)
Theorem C9_arm_left_of_right
    (o : RoboticArm.options) (fuel : nat) (v : float) (vs : list float)
    (s : RoboticArm.state) :
  RoboticArm.set o (S fuel) v s
  = (if v <? RoboticArm.right o
     then (Returned,
           if v =? RoboticArm.get s then s
           else changed RoboticArm.property_eq_dec RoboticArm.leftProperty v s)
     else (Threw InvalidValueError, s))
  /\ (NumberFacts.is_number v = true ->
      NumberFacts.is_number (RoboticArm.right o) = true ->
      (v <? RoboticArm.right o) = negb (RoboticArm.right o <=? v))
  /\ holds (RoboticArm.get (RoboticArm.sets o (S fuel) vs (RoboticArm.new o)))
           (RoboticArm.lastAccepted o vs (RoboticArm.left o)).
Proof.
  split; [apply RoboticArmFacts.set_checks_and_stores |]. split.
  - intros Hv Hr. destruct (v <? RoboticArm.right o) eqn:E.
    + destruct (RoboticArm.right o <=? v) eqn:E'; trivial.
      apply NumberFacts.leb_ltb_false in E'. congruence.
    + rewrite (NumberFacts.ltb_false_leb Hv Hr E). reflexivity.
  - apply RoboticArmFacts.sets_lastAccepted. left.
    unfold RoboticArm.get, RoboticArm.new, Axon.get, create. simpl.
    apply AxonFacts.update_same.
Qed.

(* ================================================================= *)
(** ** C10: the springs and the arm stay attached *)




(* ================================================================= *)
(** * Further properties of the model *)

(* ================================================================= *)
(** ** The derived cells of a spring *)

(** X1: in every state that the constructor of a spring or a write from
    outside returns in, every derived cell holds the value of its
    derivation: [springForce = -appliedForce],
    [equilibriumX = left + equilibriumLength],
    [right = equilibriumX + displacement], the bounds of [rightRange],
    [length = |right - left|] and [energy = k * x * x / 2]. *)
Theorem X1_derived_cells_up_to_date assertions o s :
  SingleSpringFacts.reachable assertions o s ->
  SingleSpringDerived.derived o s.
Proof. apply SingleSpringDerived.reachable_derived. Qed.

Lemma X1_witness :
  SingleSpringFacts.reachable true Scenario.forceDriven Scenario.moved
  /\ SingleSpringDerived.derived Scenario.forceDriven Scenario.moved.
Proof.
  assert (H : SingleSpringFacts.reachable true Scenario.forceDriven Scenario.moved).
  { apply Scenario.reachable_writes.
    - apply Scenario.reachable_constructed. vm_compute. reflexivity.
    - vm_compute. reflexivity. }
  split; [exact H | exact (X1_derived_cells_up_to_date H)].
Defined.





(** X4: [reset] of the robotic arm, after any calls of [set]. If the
    initial position is left of the fixed right end, [reset] returns and
    the arm is at its initial position again. Otherwise (an arm that was
    constructed with [left >= right], or with a NaN) [reset] fails with the
    validity error and leaves the arm where it is. *)
Theorem X4_arm_reset
    (o : RoboticArm.options) (fuel : nat) (vs : list float) :
  let s := RoboticArm.sets o (S fuel) vs (RoboticArm.new o) in
  match RoboticArm.reset o (S fuel) s with
  | (Returned, s') =>
      (RoboticArm.left o <? RoboticArm.right o) = true
      /\ holds (RoboticArm.get s') (RoboticArm.left o)
  | (Threw e, s') =>
      (RoboticArm.left o <? RoboticArm.right o) = false
      /\ e = InvalidValueError /\ s' = s
  | (OutOfFuel, _) => False
  end.
Proof.
  cbv zeta. rewrite RoboticArmReset.reset_sets.
  rewrite RoboticArmFacts.set_checks_and_stores.
  destruct (RoboticArm.left o <? RoboticArm.right o); [| auto].
  split; trivial.
  destruct (RoboticArm.left o =? RoboticArm.get _) eqn:E.
  - right. exact E.
  - left. unfold RoboticArm.get, Axon.get, changed. simpl.
    apply AxonFacts.update_same.
Qed.

(* ================================================================= *)
(** ** The ranges of a spring *)

(** X5: with assertions enabled, in every state that the constructor of a
    spring or a write from outside returns in, the applied force, the
    spring constant and the displacement are within their ranges (the
    range given in the options, or the one that the constructor
    computed). *)
Theorem X5_quantities_within_ranges
    (o : Spring.options) (s : SingleSpring.state) :
  SingleSpringFacts.reachable true o s ->
  contains (Spring.self_appliedForceRange (SingleSpring.self o))
           (get s Spring.appliedForceProperty) = true
  /\ contains (Spring.self_springConstantRange (SingleSpring.self o))
              (get s Spring.springConstantProperty) = true
  /\ contains (Spring.self_displacementRange (SingleSpring.self o))
              (get s Spring.displacementProperty) = true.
Proof.
  intros Hs.
  assert (H : SingleSpringRanges.inRange o s).
  { induction Hs as [fuel s H | fuel p v s s' Hs IH H].
    - eapply SingleSpringRanges.new_inRange, H.
    - apply SingleSpringFacts.reachable_wired_hooke in Hs.
      unfold SingleSpring.set, external_set in H.
      destruct (Spring.isDerived p); try discriminate.
      eapply SingleSpringRanges.set_inRange; [apply Hs | exact IH | exact H]. }
  split; [apply (H SingleSpringRanges.appliedForce) |].
  split; [apply (H SingleSpringRanges.springConstant) |].
  apply (H SingleSpringRanges.displacement).
Qed.

Lemma X5_witness :
  contains (Spring.self_appliedForceRange (SingleSpring.self Scenario.forceDriven))
           (get Scenario.moved Spring.appliedForceProperty) = true
  /\ contains (Spring.self_springConstantRange (SingleSpring.self Scenario.forceDriven))
              (get Scenario.moved Spring.springConstantProperty) = true
  /\ contains (Spring.self_displacementRange (SingleSpring.self Scenario.forceDriven))
              (get Scenario.moved Spring.displacementProperty) = true.
Proof.
  apply (@X5_quantities_within_ranges Scenario.forceDriven Scenario.moved).
  apply Scenario.reachable_writes.
  - apply Scenario.reachable_constructed. vm_compute. reflexivity.
  - vm_compute. reflexivity.
Defined.



(** X7: with assertions enabled, a write from outside of an out-of-range
    value to the applied force, the spring constant or the displacement
    raises the assertion of the property observer (for the displacement,
    possibly the assertion of [right], which runs first). Nothing is rolled
    back: the cell then holds the rejected value, and the other two
    quantities are as they were. *)
Theorem X7_out_of_range_write_raises_and_is_kept
    (o : Spring.options) (n : nat) (q : SingleSpringRanges.quantity) (v : float)
    (s : SingleSpring.state) :
  SingleSpringFacts.reachable true o s ->
  (v =? get s (SingleSpringRanges.cellOf q)) = false ->
  contains (SingleSpringRanges.rangeOf (SingleSpring.self o) q) v = false ->
  exists e s',
    SingleSpring.set true o (3 + n) (SingleSpringRanges.cellOf q) v s = (Threw e, s')
    /\ SingleSpringRejects.rejection q e
    /\ get s' (SingleSpringRanges.cellOf q) = v
    /\ forall q', q' <> q ->
         get s' (SingleSpringRanges.cellOf q') = get s (SingleSpringRanges.cellOf q').
Proof.
  intros Hs Hc Hr. apply SingleSpringFacts.reachable_wired_hooke in Hs.
  destruct Hs as [Hw _].
  change (3 + n)%nat with (S (S (S n))).
  destruct q; unfold SingleSpring.set, external_set; simpl Spring.isDerived; cbv iota.
  - destruct (@SingleSpringRejects.appliedForce_rejected o (S n) v s Hw Hc Hr)
      as (s' & E & H1 & H2).
    exists (AssertionError (SingleSpringRejects.message SingleSpringRanges.appliedForce)), s'.
    split; [exact E |]. split; [left; reflexivity | auto].
  - destruct (@SingleSpringRejects.springConstant_rejected o (S n) v s Hw Hc Hr)
      as (s' & E & H1 & H2).
    exists (AssertionError (SingleSpringRejects.message SingleSpringRanges.springConstant)), s'.
    split; [exact E |]. split; [left; reflexivity | auto].
  - destruct (@SingleSpringRejects.displacement_rejected o n v s Hw Hc Hr)
      as (e & s' & E & He & H1 & H2).
    exists e, s'. auto.
Qed.

Lemma X7_witness :
  exists e s',
    SingleSpring.set true Scenario.forceDriven 3 Spring.appliedForceProperty 11
      (Scenario.constructed Scenario.forceDriven) = (Threw e, s')
    /\ SingleSpringRejects.rejection SingleSpringRanges.appliedForce e
    /\ get s' Spring.appliedForceProperty = 11
    /\ forall q', q' <> SingleSpringRanges.appliedForce ->
         get s' (SingleSpringRanges.cellOf q')
         = get (Scenario.constructed Scenario.forceDriven) (SingleSpringRanges.cellOf q').
Proof.
  apply (@X7_out_of_range_write_raises_and_is_kept Scenario.forceDriven 0
           SingleSpringRanges.appliedForce 11 (Scenario.constructed Scenario.forceDriven)).
  - apply Scenario.reachable_constructed. vm_compute. reflexivity.
  - vm_compute. reflexivity.
  - vm_compute. reflexivity.
Defined.

(* ================================================================= *)
(** ** [reset] of a spring *)

(** X8: [reset] of a spring is four writes from outside. From a state that
    the constructor and writes from outside reach, a [reset] that returns
    ends in such a state again; so Hooke's law holds in it as far as the
    code keeps it, and every derived cell holds the value of its
    derivation, whether or not the initial values were restored. *)
Theorem X8_reset_keeps_the_invariants
    (assertions : bool) (o : Spring.options) (fuel : nat) (s s' : SingleSpring.state) :
  SingleSpringFacts.reachable assertions o s ->
  SingleSpring.reset assertions o fuel s = (Returned, s') ->
  SingleSpringFacts.reachable assertions o s'
  /\ SingleSpringFacts.hooke o s'
  /\ SingleSpringDerived.derived o s'.
Proof.
  intros Hs H.
  assert (R : SingleSpringFacts.reachable assertions o s')
    by (eapply SingleSpringResets.reset_reachable; eassumption).
  split; [exact R |]. split.
  - apply (SingleSpringFacts.reachable_wired_hooke R).
  - apply (SingleSpringDerived.reachable_derived R).
Qed.

Lemma X8_witness :
  SingleSpringFacts.reachable true Scenario.offGrid (snd Scenario.offGridReset)
  /\ SingleSpringFacts.hooke Scenario.offGrid (snd Scenario.offGridReset)
  /\ SingleSpringDerived.derived Scenario.offGrid (snd Scenario.offGridReset).
Proof.
  apply (@X8_reset_keeps_the_invariants true Scenario.offGrid Scenario.fuel
           (snd (Scenario.writes Scenario.offGrid [(Spring.appliedForceProperty, 3)]
                   (Scenario.constructed Scenario.offGrid)))).
  - apply Scenario.reachable_writes.
    + apply Scenario.reachable_constructed. vm_compute. reflexivity.
    + vm_compute. reflexivity.
  - vm_compute. reflexivity.
Defined.

(* ================================================================= *)
(** ** The left end of the left spring *)



(* ================================================================= *)
(** ** The robotic arm of the series system *)



(* ================================================================= *)
(** ** [reset] of the series system *)


